(** * Mutable pairing heap (origin/heaps/pairing_heap.hpp)

    A shallow embedding of [mutable_pairing_heap_impl] and of the two
    [mutable_pairing_heap] front ends, followed by the properties of the
    heap engine: the link discipline of [merge], the arena and size
    bookkeeping, the identity locator, heap order and extraction order. *)

From stdpp Require Import base option list numbers gmap sorting.
From Stdlib Require Import Lia.

Local Open Scope N_scope.

#[local] Set Warnings "-clear-no-such-hyp".

(** ** [size_t] and [std::vector] *)

(** [size_type] is a 64-bit unsigned integer; [size_type(-1)] is the
    "no relation" sentinel. *)
Definition two64 : N := 2 ^ 64.
Definition NONE : N := two64 - 1.

(** [n - 1] on [size_t], as in [elements_.size() - 1]. *)
Definition size_minus_1 (n : N) : N := (n + (two64 - 1)) mod two64.

(** [std::vector<pairing_heap_node>::max_size()]: [PTRDIFF_MAX] divided by
    the size of a node (five [size_t] fields).  [push_back] beyond it throws. *)
Definition max_size : N := (2 ^ 63 - 1) / 40.

Definition vsize {A} (v : list A) : N := N.of_nat (length v).

(** [v[i]]: reading outside the vector is undefined, modelled by [None]. *)
Definition vec_at {A} (v : list A) (i : N) : option A :=
  if decide (i < vsize v) then v !! N.to_nat i else None.

(** [v[i] = x]. *)
Definition vec_set {A} (v : list A) (i : N) (x : A) : option (list A) :=
  if decide (i < vsize v) then Some (<[N.to_nat i := x]> v) else None.

(** [v.pop_back()]: undefined on an empty vector. *)
Definition pop_back {A} (v : list A) : option (list A) :=
  match v with
  | [] => None
  | _ => Some (removelast v)
  end.

(** ** The node arena *)

Record pairing_heap_node := mk_node {
  item_index : N;
  parent : N;
  child : N;
  right_sibling : N;
  left_sibling : N
}.

Definition with_item_index (v : N) (nd : pairing_heap_node) :=
  mk_node v (parent nd) (child nd) (right_sibling nd) (left_sibling nd).
Definition with_parent (v : N) (nd : pairing_heap_node) :=
  mk_node (item_index nd) v (child nd) (right_sibling nd) (left_sibling nd).
Definition with_child (v : N) (nd : pairing_heap_node) :=
  mk_node (item_index nd) (parent nd) v (right_sibling nd) (left_sibling nd).
Definition with_right_sibling (v : N) (nd : pairing_heap_node) :=
  mk_node (item_index nd) (parent nd) (child nd) v (left_sibling nd).
Definition with_left_sibling (v : N) (nd : pairing_heap_node) :=
  mk_node (item_index nd) (parent nd) (child nd) (right_sibling nd) v.

(** A node all of whose fields are the sentinel: what [pop] leaves behind. *)
Definition dead_node : pairing_heap_node := mk_node NONE NONE NONE NONE NONE.

(** [data_[i].field = v], for a field setter [f]. *)
Definition set_field (f : N → pairing_heap_node → pairing_heap_node)
    (i v : N) (d : list pairing_heap_node) : option (list pairing_heap_node) :=
  nd ← vec_at d i; vec_set d i (f v nd).

Definition set_item_index := set_field with_item_index.
Definition set_parent := set_field with_parent.
Definition set_child := set_field with_child.
Definition set_right_sibling := set_field with_right_sibling.
Definition set_left_sibling := set_field with_left_sibling.

(** [merge(index1, index2)]: the tree at [index1] becomes the leftmost child
    of [index2]. *)
Definition merge (index1 index2 : N) (d : list pairing_heap_node)
    : option (list pairing_heap_node) :=
  d ← set_parent index1 index2 d;
  n2 ← vec_at d index2;
  d ← set_right_sibling index1 (child n2) d;
  n2 ← vec_at d index2;
  d ← (if child n2 =? NONE then Some d
       else set_left_sibling (child n2) index1 d);
  set_child index2 index1 d.

(** The vector after [v[i] = x]. *)
Definition vput {A} (v : list A) (i : N) (x : A) : list A :=
  <[N.to_nat i := x]> v.

(** What a field write does to the node read at [j]. *)
Definition written (f : N → pairing_heap_node → pairing_heap_node)
    (i v j : N) (nd : pairing_heap_node) : pairing_heap_node :=
  if decide (j = i) then f v nd else nd.

(** The node read at [j] after [merge x y], where [c] is the child of [y]
    before the call. *)
Definition merged (x y c j : N) (nd : pairing_heap_node)
    : pairing_heap_node :=
  written with_child y x j
    (if decide (c = NONE) then written with_right_sibling x c j
                                 (written with_parent x y j nd)
     else written with_left_sibling c x j
            (written with_right_sibling x c j
               (written with_parent x y j nd))).

(** The effect of [merge(x, y)] on the links, field by field: [x] gets [y]
    as parent and the previous child of [y] as right sibling, that previous
    child gets [x] as left sibling, [y] gets [x] as child; every other field
    of every node, the left sibling of [x] among them, is as before. *)
Definition merge_links (d : list pairing_heap_node) (x y : N)
    (d' : list pairing_heap_node) : Prop :=
  ∃ nx ny, vec_at d x = Some nx ∧ vec_at d y = Some ny ∧
    length d' = length d ∧
    ∀ j nj, vec_at d j = Some nj →
      ∃ nj', vec_at d' j = Some nj' ∧
        item_index nj' = item_index nj ∧
        parent nj' = (if decide (j = x) then y else parent nj) ∧
        right_sibling nj' =
          (if decide (j = x) then child ny else right_sibling nj) ∧
        left_sibling nj' =
          (if decide (j ≠ x ∧ child ny ≠ NONE ∧ j = child ny) then x
           else left_sibling nj) ∧
        child nj' = (if decide (j = y) then x else child nj).

(** ** Items with an identity *)

(** An item is an identity with a priority; the locator files it under the
    identity and the heap orders by priority. *)
Definition item_key (x : Z * Z) : Z := x.1.
Definition item_less (x y : Z * Z) : bool := (x.2 <? y.2)%Z.

(** A node after its parent and sibling links have been reset. *)
Definition detached (nd : pairing_heap_node) : pairing_heap_node :=
  mk_node (item_index nd) NONE (child nd) NONE NONE.

(** [rep] reads the link fields only. *)
Definition same_links (n n' : pairing_heap_node) : Prop :=
  parent n' = parent n ∧ child n' = child n ∧
  left_sibling n' = left_sibling n ∧ right_sibling n' = right_sibling n.

(** The node whose child or right-sibling link leads to the node whose
    record is [ni]. *)
Definition before (ni : pairing_heap_node) : N :=
  if left_sibling ni =? NONE then parent ni else left_sibling ni.

(** ** The heap engine *)

(** The two identity-locator policies of [mutable_pairing_heap]. *)
Inductive policy := External | Internal.

Section Engine.
Context {K : Type} `{Countable K}.
Context {T : Type}.
(** [key] is the identity under which the locator files an item: the key
    equality of the map behind [id_].  For the default
    [std::unordered_map<T, size_t>] over plain values it is the identity
    function. *)
Variable key : T → K.
Variable compare : T → T → bool.

Record heap := mk_heap {
  elements_ : list T;
  data_ : list pairing_heap_node;
  map_ : gmap K N;     (* the table [id_] refers to *)
  top_ : N
}.

(** [id_(d)] used as an rvalue.  [operator[]] of the map creates a
    value-initialised entry when the key is absent. *)
Definition id_read (m : gmap K N) (d : T) : N * gmap K N :=
  match m !! key d with
  | Some i => (i, m)
  | None => (0, <[key d := 0]> m)
  end.

(** [id_(d) = index]. *)
Definition id_write (m : gmap K N) (d : T) (index : N) : gmap K N :=
  <[key d := index]> m.

(** The heap built by the constructors that take a comparison. *)
Definition empty_heap : heap := mk_heap [] [] ∅ NONE.

(** [elements_[data_[i].item_index]] *)
Definition value_at (e : list T) (d : list pairing_heap_node) (i : N)
    : option T :=
  nd ← vec_at d i; vec_at e (item_index nd).

Definition top (h : heap) : option T :=
  value_at (elements_ h) (data_ h) (top_ h).

Definition size (h : heap) : N := vsize (elements_ h).

Definition empty (h : heap) : bool := vsize (elements_ h) =? 0.

(** The melding step shared by [push] and [update]. *)
Definition meld (e : list T) (d : list pairing_heap_node) (index top : N)
    : option (list pairing_heap_node * N) :=
  vi ← value_at e d index;
  vt ← value_at e d top;
  if compare vi vt then d ← merge top index d; Some (d, index)
  else d ← merge index top d; Some (d, top).

Definition push (x : T) (h : heap) : option heap :=
  let e := elements_ h ++ [x] in
  let obj := mk_node (size_minus_1 (vsize e)) NONE NONE NONE NONE in
  if decide (max_size ≤ vsize (data_ h)) then None
  else
    let d := data_ h ++ [obj] in
    let index := size_minus_1 (vsize d) in
    let m := id_write (map_ h) x index in
    if top_ h =? NONE then Some (mk_heap e d m index)
    else '(d, t) ← meld e d index (top_ h); Some (mk_heap e d m t).

Definition update (x : T) (h : heap) : option heap :=
  let '(index, m) := id_read (map_ h) x in
  nd ← vec_at (data_ h) index;
  e ← vec_set (elements_ h) (item_index nd) x;
  if index =? top_ h then Some (mk_heap e (data_ h) m (top_ h))
  else
    let parent := parent nd in
    let left_sib := left_sibling nd in
    let right_sib := right_sibling nd in
    d ← (if left_sib =? NONE then set_child parent right_sib (data_ h)
         else set_right_sibling left_sib right_sib (data_ h));
    d ← (if right_sib =? NONE then Some d
         else set_left_sibling right_sib left_sib d);
    d ← set_parent index NONE d;
    d ← set_left_sibling index NONE d;
    d ← set_right_sibling index NONE d;
    '(d, t) ← meld e d index (top_ h);
    Some (mk_heap e d m t).

(** *** [pop] *)

(** The variables of the first loop of [pop]. *)
Record pairing := mk_pairing {
  pr_data : list pairing_heap_node;
  pr_index1 : N;
  pr_prev_pair : N;
  pr_new_top : N
}.

Definition pairing_cond (s : pairing) : option bool :=
  if pr_index1 s =? NONE then Some false
  else nd ← vec_at (pr_data s) (pr_index1 s);
       Some (negb (right_sibling nd =? NONE)).

Definition pairing_body (e : list T) (s : pairing) : option pairing :=
  let index1 := pr_index1 s in
  n1 ← vec_at (pr_data s) index1;
  let index2 := right_sibling n1 in
  n2 ← vec_at (pr_data s) index2;
  let next_index := right_sibling n2 in
  d ← set_parent index1 NONE (pr_data s);
  d ← set_left_sibling index1 NONE d;
  d ← set_right_sibling index1 NONE d;
  d ← set_parent index2 NONE d;
  d ← set_left_sibling index2 NONE d;
  d ← set_right_sibling index2 NONE d;
  v1 ← value_at e d index1;
  v2 ← value_at e d index2;
  '(d, new_top) ← (if compare v1 v2
                   then d ← merge index2 index1 d; Some (d, index1)
                   else d ← merge index1 index2 d; Some (d, index2));
  d ← set_left_sibling new_top (pr_prev_pair s) d;
  Some (mk_pairing d next_index new_top new_top).

(** A [while] loop runs on fuel; [None] when the fuel does not suffice. *)
Fixpoint pairing_loop (fuel : nat) (e : list T) (s : pairing)
    : option pairing :=
  match fuel with
  | O => None
  | S fuel =>
      c ← pairing_cond s;
      if c : bool then s ← pairing_body e s; pairing_loop fuel e s
      else Some s
  end.

(** The [if] after the first loop: an unpaired last child. *)
Definition pairing_odd (s : pairing) : option (list pairing_heap_node * N) :=
  let index1 := pr_index1 s in
  if index1 =? NONE then Some (pr_data s, pr_new_top s)
  else
    nd ← vec_at (pr_data s) index1;
    if right_sibling nd =? NONE then
      d ← set_parent index1 NONE (pr_data s);
      d ← set_right_sibling index1 NONE d;
      d ← set_left_sibling index1 (pr_prev_pair s) d;
      Some (d, index1)
    else Some (pr_data s, pr_new_top s).

Definition accum_cond (d : list pairing_heap_node) (new_top : N)
    : option bool :=
  if new_top =? NONE then Some false
  else nd ← vec_at d new_top; Some (negb (left_sibling nd =? NONE)).

Definition accum_body (e : list T) (d : list pairing_heap_node) (new_top : N)
    : option (list pairing_heap_node * N) :=
  nt ← vec_at d new_top;
  let merge_pair := left_sibling nt in
  mp ← vec_at d merge_pair;
  let next_pair := left_sibling mp in
  d ← set_left_sibling new_top NONE d;
  d ← set_left_sibling merge_pair NONE d;
  vm ← value_at e d merge_pair;
  vn ← value_at e d new_top;
  '(d, new_top) ← (if compare vm vn
                   then d ← merge new_top merge_pair d; Some (d, merge_pair)
                   else d ← merge merge_pair new_top d; Some (d, new_top));
  d ← set_left_sibling new_top next_pair d;
  Some (d, new_top).

Fixpoint accum_loop (fuel : nat) (e : list T) (d : list pairing_heap_node)
    (new_top : N) : option (list pairing_heap_node * N) :=
  match fuel with
  | O => None
  | S fuel =>
      c ← accum_cond d new_top;
      if c : bool then '(d, nt) ← accum_body e d new_top; accum_loop fuel e d nt
      else Some (d, new_top)
  end.

(** The two passes over the children of the root. *)
Definition pop_children (e : list T) (d : list pairing_heap_node) (top : N)
    : option (list pairing_heap_node * N) :=
  nt ← vec_at d top;
  let fuel := S (length d) in
  s ← pairing_loop fuel e (mk_pairing d (child nt) NONE NONE);
  '(d, new_top) ← pairing_odd s;
  accum_loop fuel e d new_top.

(** The compaction step: the last value moves into the slot of the root. *)
Definition pop_compact (h : heap) (d : list pairing_heap_node) (new_top : N)
    : option heap :=
  let e := elements_ h in
  last ← vec_at e (size_minus_1 (vsize e));
  let '(index, m) := id_read (map_ h) last in
  nt ← vec_at d (top_ h);
  e ← vec_set e (item_index nt) last;
  d ← set_item_index index (item_index nt) d;
  d ← set_parent (top_ h) NONE d;
  d ← set_child (top_ h) NONE d;
  d ← set_right_sibling (top_ h) NONE d;
  d ← set_left_sibling (top_ h) NONE d;
  d ← set_item_index (top_ h) NONE d;
  e ← pop_back e;
  Some (mk_heap e d m new_top).

(** [mutable_pairing_heap_impl::pop] *)
Definition pop (h : heap) : option heap :=
  if top_ h =? NONE then Some h
  else
    '(d, new_top) ← pop_children (elements_ h) (data_ h) (top_ h);
    pop_compact h d new_top.

(** *** The public classes *)

(** [mutable_pairing_heap<T, Compare, default_t>::pop]: reads the top,
    pops, then erases the locator entry of what it read. *)
Definition pop_internal (h : heap) : option heap :=
  top_element ← top h;
  h ← pop h;
  Some (mk_heap (elements_ h) (data_ h) (delete (key top_element) (map_ h))
                (top_ h)).

Definition pop_of (pol : policy) (h : heap) : option heap :=
  match pol with
  | External => pop h
  | Internal => pop_internal h
  end.

(** Calls of the public interface that change the heap. *)
Inductive op := Push (x : T) | Pop | Update (x : T).

Definition step (pol : policy) (o : op) (h : heap) : option heap :=
  match o with
  | Push x => push x h
  | Pop => pop_of pol h
  | Update x => update x h
  end.

Fixpoint run (pol : policy) (ops : list op) (h : heap) : option heap :=
  match ops with
  | [] => Some h
  | o :: ops => h ← step pol o h; run pol ops h
  end.

(** [n] rounds of [top()] then [pop()]; the values read, in order. *)
Fixpoint drain (pol : policy) (n : nat) (h : heap) : option (list T * heap) :=
  match n with
  | O => Some ([], h)
  | S n =>
      x ← top h;
      h ← pop_of pol h;
      '(xs, h) ← drain pol n h;
      Some (x :: xs, h)
  end.

(** *** Counting calls *)

Definition is_push (o : op) : bool :=
  match o with Push _ => true | _ => false end.
Definition is_pop (o : op) : bool :=
  match o with Pop => true | _ => false end.

Definition count_pushes (ops : list op) : nat := length (filter is_push ops).
Definition count_pops (ops : list op) : nat := length (filter is_pop ops).

(** The guard of [pop]: [top_] is not the sentinel. *)
Definition past_guard (h : heap) : bool := negb (top_ h =? NONE).

(** The [pop] calls of a run that get past the guard of [pop]. *)
Fixpoint count_guarded_pops (pol : policy) (ops : list op) (h : heap) : nat :=
  match ops with
  | [] => O
  | o :: ops =>
      Nat.add (if is_pop o && past_guard h then 1%nat else 0%nat)
        match step pol o h with
        | Some h' => count_guarded_pops pol ops h'
        | None => 0%nat
        end
  end.

(** *** Heap order on the arena *)

(** For every node [c] whose parent field is a node [p], the value of [c]
    is not preferred to the value of [p]. *)
Definition heap_order (h : heap) : Prop :=
  ∀ c nc, vec_at (data_ h) c = Some nc → parent nc ≠ NONE →
    ∃ np vc vp,
      vec_at (data_ h) (parent nc) = Some np ∧
      vec_at (elements_ h) (item_index nc) = Some vc ∧
      vec_at (elements_ h) (item_index np) = Some vp ∧
      compare vc vp = false.

(** *** The tree the arena encodes *)

(** A forest in leftmost-child / right-sibling form: [Br i v c s] is the
    node at arena index [i] holding [v], with [c] its children and [s] the
    siblings to its right. *)
Inductive bt := Lf | Br (i : N) (v : T) (c s : bt).

Definition root (t : bt) : N :=
  match t with Lf => NONE | Br i _ _ _ => i end.

Definition sib (t : bt) : bt :=
  match t with Lf => Lf | Br _ _ _ s => s end.

Fixpoint nodes (t : bt) : list (N * T) :=
  match t with
  | Lf => []
  | Br i v c s => (i, v) :: nodes c ++ nodes s
  end.

(** The nodes of a sibling chain, without their descendants. *)
Fixpoint level (t : bt) : list (N * T) :=
  match t with
  | Lf => []
  | Br i v _ s => (i, v) :: level s
  end.

(** [rep d t p l]: the arena [d] links the nodes of [t] as the sibling
    chain [t] under parent [p], the first of them having [l] as left
    sibling. *)
Fixpoint rep (d : list pairing_heap_node) (t : bt) (p l : N) : Prop :=
  match t with
  | Lf => True
  | Br i v c s =>
      ∃ nd, vec_at d i = Some nd ∧ parent nd = p ∧ left_sibling nd = l ∧
            child nd = root c ∧ right_sibling nd = root s ∧
            rep d c i NONE ∧ rep d s p i
  end.

(** Heap order below a parent value [pv], asked for only under [G]. *)
Fixpoint ho (G : Prop) (pv : T) (t : bt) : Prop :=
  match t with
  | Lf => True
  | Br i v c s => (G → compare v pv = false) ∧ ho G v c ∧ ho G pv s
  end.

Definition hot (G : Prop) (t : bt) : Prop :=
  match t with Lf => True | Br i v c s => ho G v c end.

(** The roots left by the pairing pass of [pop], latest first, chained
    through their left-sibling fields. *)
Fixpoint chain (d : list pairing_heap_node) (ws : list (N * T * bt))
    (hd : N) : Prop :=
  match ws with
  | [] => hd = NONE
  | (w, v, c) :: ws =>
      hd = w ∧
      ∃ nd, vec_at d w = Some nd ∧ parent nd = NONE ∧
            right_sibling nd = NONE ∧ child nd = root c ∧
            rep d c w NONE ∧ chain d ws (left_sibling nd)
  end.

Definition wnodes (ws : list (N * T * bt)) : list (N * T) :=
  ws ≫= λ '(w, v, c), (w, v) :: nodes c.

(** [splits t i vi ci t2]: the tree [t] holds the node [i] with value [vi]
    and children [ci], and is [t2] once that node and its descendants are
    taken out. *)
Inductive splits : bt → N → T → bt → bt → Prop :=
  | splits_here i v c s : splits (Br i v c s) i v c s
  | splits_child j v c s i vi ci c2 :
      splits c i vi ci c2 → splits (Br j v c s) i vi ci (Br j v c2 s)
  | splits_sib j v c s i vi ci s2 :
      splits s i vi ci s2 → splits (Br j v c s) i vi ci (Br j v c s2).

(** What the two unlinking writes of [update], made for a node whose
    record is [ni], do to the node read at [j]. *)
Definition unlinked (ni : pairing_heap_node) (j : N)
    (nj : pairing_heap_node) : pairing_heap_node :=
  let n1 :=
    if left_sibling ni =? NONE
    then written with_child (parent ni) (right_sibling ni) j nj
    else written with_right_sibling (left_sibling ni) (right_sibling ni) j nj
  in
  if right_sibling ni =? NONE then n1
  else written with_left_sibling (right_sibling ni) (left_sibling ni) j n1.

(** *** The representation invariant *)

Record Inv (G : Prop) (h : heap) (t : bt) : Prop := mk_Inv {
  inv_cap : vsize (data_ h) ≤ max_size;
  inv_size : vsize (elements_ h) ≤ vsize (data_ h);
  inv_top : top_ h = root t;
  inv_sib : sib t = Lf;
  inv_rep : rep (data_ h) t NONE NONE;
  inv_nodup : NoDup (nodes t).*1;
  inv_vals : ∀ i v, (i, v) ∈ nodes t →
    value_at (elements_ h) (data_ h) i = Some v ∧ map_ h !! key v = Some i;
  inv_inj : ∀ i j ni nj, i ∈ (nodes t).*1 → j ∈ (nodes t).*1 →
    vec_at (data_ h) i = Some ni → vec_at (data_ h) j = Some nj →
    item_index ni = item_index nj → i = j;
  inv_surj : ∀ s, s < vsize (elements_ h) →
    ∃ i ni, i ∈ (nodes t).*1 ∧ vec_at (data_ h) i = Some ni ∧
            item_index ni = s;
  inv_dead : ∀ i nd, vec_at (data_ h) i = Some nd → i ∉ (nodes t).*1 →
    parent nd = NONE;
  inv_ho : hot G t
}.

(** *** Preconditions of the calls *)

(** No stored item has the key of [x]. *)
Definition fresh (x : T) (h : heap) : bool :=
  bool_decide (key x ∉ key <$> elements_ h).

(** Some stored item has the key of [x]. *)
Definition tracked (x : T) (h : heap) : bool :=
  bool_decide (key x ∈ key <$> elements_ h).

(** The decrease-key precondition of [update(x)]: no child of the node
    that [x] resolves to holds a value preferred to [x]. *)
Definition decrease_key (x : T) (h : heap) : bool :=
  let index := (id_read (map_ h) x).1 in
  forallb (λ nc,
    if parent nc =? index then
      match vec_at (elements_ h) (item_index nc) with
      | Some vc => negb (compare vc x)
      | None => true
      end
    else true) (data_ h).

(** [strict] asks for the decrease-key precondition as well. *)
Definition pre (strict : bool) (o : op) (h : heap) : bool :=
  match o with
  | Push x => fresh x h
  | Pop => true
  | Update x => tracked x h && (negb strict || decrease_key x h)
  end.

Fixpoint run_pre (strict : bool) (pol : policy) (ops : list op) (h : heap)
    : bool :=
  match ops with
  | [] => true
  | o :: ops =>
      pre strict o h &&
      match step pol o h with
      | Some h' => run_pre strict pol ops h'
      | None => true
      end
  end.

(** *** The logical items *)

(** The items in the heap, named by the arena index their [push] created,
    each with the value it was last given. *)
Definition items_step (o : op) (h : heap) (g : gmap N T) : gmap N T :=
  match o with
  | Push x => <[vsize (data_ h) := x]> g
  | Pop => delete (top_ h) g
  | Update x => <[(id_read (map_ h) x).1 := x]> g
  end.

Fixpoint items (pol : policy) (ops : list op) (h : heap) (g : gmap N T)
    : gmap N T :=
  match ops with
  | [] => g
  | o :: ops =>
      match step pol o h with
      | Some h' => items pol ops h' (items_step o h g)
      | None => g
      end
  end.

(** The locator applied to [v] yields an arena index whose node's
    [item_index] addresses a stored value equal to [v]. *)
Definition locates (h : heap) (v : T) : Prop :=
  ∃ nd, vec_at (data_ h) (id_read (map_ h) v).1 = Some nd ∧
        vec_at (elements_ h) (item_index nd) = Some v.

(** *** Orders *)

Definition asymmetric : Prop :=
  ∀ x y, compare x y = true → compare y x = false.

(** Incomparability is transitive. *)
Definition negatively_transitive : Prop :=
  ∀ x y z, compare x y = false → compare y z = false → compare x z = false.

(** The logical items [g] are the nodes of the tree [t]. *)
Definition tracks (g : gmap N T) (t : bt) : Prop :=
  ∀ n v, g !! n = Some v ↔ (n, v) ∈ nodes t.

(** [pop] of the front end with the internal map reads [top()] before the
    guard of the engine's [pop], and so asks for a heap that is not
    empty. *)
Definition pop_ready (pol : policy) (o : op) (h : heap) : bool :=
  match pol, o with
  | Internal, Pop => negb (empty h)
  | _, _ => true
  end.

Fixpoint run_ready (pol : policy) (ops : list op) (h : heap) : bool :=
  match ops with
  | [] => true
  | o :: ops =>
      pop_ready pol o h &&
      match step pol o h with
      | Some h' => run_ready pol ops h'
      | None => true
      end
  end.

(** *** The heap without [update]: [pairing_heap<T, Comp>] *)

(** Beside the value array and the arena, [pairing_heap] keeps the vector
    [reversemap_]: for each slot of the value array, the arena index of
    the node whose value the slot holds.  It takes the place of the
    locator in the compaction step of [pop]. *)
Record pairing_heap := mk_pairing_heap {
  ph_elements_ : list T;
  ph_data_ : list pairing_heap_node;
  reversemap_ : list N;
  ph_top_ : N
}.

(** The heap built by the default constructor of [pairing_heap]. *)
Definition ph_empty_heap : pairing_heap := mk_pairing_heap [] [] [] NONE.

Definition ph_top (h : pairing_heap) : option T :=
  value_at (ph_elements_ h) (ph_data_ h) (ph_top_ h).

Definition ph_size (h : pairing_heap) : N := vsize (ph_elements_ h).

Definition ph_empty (h : pairing_heap) : bool :=
  vsize (ph_elements_ h) =? 0.

(** [pairing_heap::push].  Its melding step and its [merge] are, statement
    for statement, those of [mutable_pairing_heap_impl]. *)
Definition ph_push (x : T) (h : pairing_heap) : option pairing_heap :=
  let e := ph_elements_ h ++ [x] in
  let obj := mk_node (size_minus_1 (vsize e)) NONE NONE NONE NONE in
  if decide (max_size ≤ vsize (ph_data_ h)) then None
  else
    let d := ph_data_ h ++ [obj] in
    let index := size_minus_1 (vsize d) in
    let r := reversemap_ h ++ [index] in
    if ph_top_ h =? NONE then Some (mk_pairing_heap e d r index)
    else '(d, t) ← meld e d index (ph_top_ h);
         Some (mk_pairing_heap e d r t).

(** The compaction step of [pairing_heap::pop]. *)
Definition ph_compact (h : pairing_heap) (d : list pairing_heap_node)
    (new_top : N) : option pairing_heap :=
  let e := ph_elements_ h in
  let r := reversemap_ h in
  index ← vec_at r (size_minus_1 (vsize r));
  nt ← vec_at d (ph_top_ h);
  last ← vec_at e (size_minus_1 (vsize e));
  e ← vec_set e (item_index nt) last;
  r ← vec_set r (item_index nt) index;
  d ← set_item_index index (item_index nt) d;
  d ← set_parent (ph_top_ h) NONE d;
  d ← set_child (ph_top_ h) NONE d;
  d ← set_right_sibling (ph_top_ h) NONE d;
  d ← set_left_sibling (ph_top_ h) NONE d;
  d ← set_item_index (ph_top_ h) NONE d;
  e ← pop_back e;
  r ← pop_back r;
  Some (mk_pairing_heap e d r new_top).

(** [pairing_heap::pop]: the two passes over the children of the root are
    those of [mutable_pairing_heap_impl::pop]. *)
Definition ph_pop (h : pairing_heap) : option pairing_heap :=
  if ph_top_ h =? NONE then Some h
  else
    '(d, new_top) ← pop_children (ph_elements_ h) (ph_data_ h) (ph_top_ h);
    ph_compact h d new_top.

(** [reserve(n)] changes no value; beyond [max_size] the arena throws. *)
Definition ph_reserve (n : N) (h : pairing_heap) : option pairing_heap :=
  if decide (max_size < n) then None else Some h.

Fixpoint ph_push_all (vs : list T) (h : pairing_heap)
    : option pairing_heap :=
  match vs with
  | [] => Some h
  | x :: vs => h ← ph_push x h; ph_push_all vs h
  end.

(** The constructors of [pairing_heap] from a range or an initializer
    list. *)
Definition ph_make (vs : list T) : option pairing_heap :=
  h ← ph_reserve (vsize vs) ph_empty_heap; ph_push_all vs h.

Inductive ph_op := PhPush (x : T) | PhPop.

Definition ph_step (o : ph_op) (h : pairing_heap) : option pairing_heap :=
  match o with
  | PhPush x => ph_push x h
  | PhPop => ph_pop h
  end.

Fixpoint ph_run (ops : list ph_op) (h : pairing_heap)
    : option pairing_heap :=
  match ops with
  | [] => Some h
  | o :: ops => h ← ph_step o h; ph_run ops h
  end.

(** [n] rounds of [top()] then [pop()]; the values read, in order. *)
Fixpoint ph_drain (n : nat) (h : pairing_heap)
    : option (list T * pairing_heap) :=
  match n with
  | O => Some ([], h)
  | S n =>
      x ← ph_top h;
      h ← ph_pop h;
      '(xs, h) ← ph_drain n h;
      Some (x :: xs, h)
  end.

Definition ph_is_push (o : ph_op) : bool :=
  match o with PhPush _ => true | PhPop => false end.

(** Heap order on the arena of [pairing_heap]. *)
Definition ph_heap_order (h : pairing_heap) : Prop :=
  ∀ c nc, vec_at (ph_data_ h) c = Some nc → parent nc ≠ NONE →
    ∃ np vc vp,
      vec_at (ph_data_ h) (parent nc) = Some np ∧
      vec_at (ph_elements_ h) (item_index nc) = Some vc ∧
      vec_at (ph_elements_ h) (item_index np) = Some vp ∧
      compare vc vp = false.

(** [reversemap_] inverts [item_index]: the slot [s] of the value array
    belongs to the node [reversemap_[s]]. *)
Definition reversemap_ok (h : pairing_heap) : Prop :=
  length (reversemap_ h) = length (ph_elements_ h) ∧
  ∀ s i, vec_at (reversemap_ h) s = Some i →
    ∃ nd, vec_at (ph_data_ h) i = Some nd ∧ item_index nd = s.

(** *** [print] *)

(** What [print] writes to the stream, piece by piece: a value through its
    [operator<<], the strings ["("], [" "] and [")"], and [std::endl]. *)
Inductive token := Value (v : T) | Open | Space | Close | Endl.

(** [print_recur(x, os)] and its [do ... while] loop over the children of
    [x], which starts at the child [i] and follows the right siblings.
    Both run on fuel: on an arena whose links loop the source does not
    return. *)
Fixpoint print_recur (fuel : nat) (e : list T) (d : list pairing_heap_node)
    (x : N) : option (list token) :=
  match fuel with
  | O => None
  | S fuel =>
      if x =? NONE then Some []
      else
        v ← value_at e d x;
        nd ← vec_at d x;
        let i := child nd in
        if i =? NONE then Some [Value v]
        else
          r ← print_children fuel e d i;
          Some (Value v :: Open :: r ++ [Close])
  end
with print_children (fuel : nat) (e : list T) (d : list pairing_heap_node)
    (i : N) : option (list token) :=
  match fuel with
  | O => None
  | S fuel =>
      r ← print_recur fuel e d i;
      nd ← vec_at d i;
      let i := right_sibling nd in
      if i =? NONE then Some (r ++ [Space])
      else rest ← print_children fuel e d i; Some (r ++ Space :: rest)
  end.

(** [mutable_pairing_heap_impl::print] *)
Definition print (h : heap) : option (list token) :=
  if top_ h =? NONE then Some []
  else
    r ← print_recur (S (2 * length (data_ h))) (elements_ h) (data_ h)
           (top_ h);
    Some (r ++ [Endl]).

(** The values among the pieces written. *)
Definition printed_values (out : list token) : list T :=
  omap (λ k, match k with Value v => Some v | _ => None end) out.

(** A sibling chain of the tree as [print_recur] writes it: each node is
    its value, then its children between brackets if it has any, and a
    space follows each node of the chain. *)
Fixpoint render (t : bt) : list token :=
  match t with
  | Lf => []
  | Br i v c s =>
      (Value v :: match c with
                  | Lf => []
                  | Br _ _ _ _ => Open :: render c ++ [Close]
                  end)
      ++ Space :: render s
  end.

(** * Properties *)


(** ** Vectors and arena writes *)

Section VecFacts.
Context {A : Type}.
Implicit Types (v : list A) (i j : N) (x : A).

Lemma vsize_app v x : vsize (v ++ [x]) = vsize v + 1.
Proof. unfold vsize. rewrite length_app. simpl. lia. Qed.

Lemma vec_at_lookup v i : vec_at v i = v !! N.to_nat i.
Proof.
unfold vec_at, vsize. case_decide as Hi; [done|].
symmetry. apply lookup_ge_None. lia.
Qed.

Lemma vec_at_lt v i x : vec_at v i = Some x → i < vsize v.
Proof. unfold vec_at. case_decide; [done|discriminate]. Qed.

Lemma vec_at_is_Some v i : i < vsize v → is_Some (vec_at v i).
Proof.
intros Hi. rewrite vec_at_lookup. apply lookup_lt_is_Some.
unfold vsize in Hi. lia.
Qed.

Lemma vec_at_elem_of v i x : vec_at v i = Some x → x ∈ v.
Proof. rewrite vec_at_lookup. apply list_elem_of_lookup_2. Qed.

Lemma elem_of_vec_at v x : x ∈ v → ∃ i, vec_at v i = Some x.
Proof.
intros [n Hn]%list_elem_of_lookup_1. exists (N.of_nat n).
by rewrite vec_at_lookup, Nat2N.id.
Qed.

Lemma vec_at_app_l v x i : i < vsize v → vec_at (v ++ [x]) i = vec_at v i.
Proof.
intros Hi. rewrite !vec_at_lookup. apply lookup_app_l.
unfold vsize in Hi. lia.
Qed.

Lemma vec_at_app_r v x : vec_at (v ++ [x]) (vsize v) = Some x.
Proof.
rewrite vec_at_lookup. unfold vsize. rewrite Nat2N.id.
by rewrite lookup_app_r, Nat.sub_diag.
Qed.

Lemma vec_at_app_Some v x i y :
vec_at (v ++ [x]) i = Some y →
(i < vsize v ∧ vec_at v i = Some y) ∨ (i = vsize v ∧ y = x).
Proof.
intros Hy. pose proof (vec_at_lt _ _ _ Hy) as Hlt. rewrite vsize_app in Hlt.
destruct (decide (i < vsize v)) as [Hi|Hi].
- left. by rewrite vec_at_app_l in Hy.
- right. assert (i = vsize v) as -> by lia.
  rewrite vec_at_app_r in Hy. by inversion Hy.
Qed.

Lemma vsize_vput v i x : vsize (vput v i x) = vsize v.
Proof. unfold vsize, vput. by rewrite length_insert. Qed.

Lemma length_vput v i x : length (vput v i x) = length v.
Proof. apply length_insert. Qed.

Lemma vec_at_vput v i x j :
vec_at (vput v i x) j =
  if decide (j = i) then (if decide (i < vsize v) then Some x else None)
  else vec_at v j.
Proof.
rewrite !vec_at_lookup. unfold vput. case_decide as Hj.
- subst j. case_decide as Hi.
  + apply list_lookup_insert_eq. unfold vsize in Hi. lia.
  + apply lookup_ge_None. rewrite length_insert. unfold vsize in Hi. lia.
- apply list_lookup_insert_ne. lia.
Qed.

Lemma vec_at_vput_eq v i x : i < vsize v → vec_at (vput v i x) i = Some x.
Proof. intros. rewrite vec_at_vput. by rewrite !decide_True. Qed.

Lemma vec_at_vput_ne v i x j : j ≠ i → vec_at (vput v i x) j = vec_at v j.
Proof. intros. rewrite vec_at_vput. by rewrite decide_False. Qed.

Lemma vec_set_Some v i x v' :
vec_set v i x = Some v' ↔ i < vsize v ∧ v' = vput v i x.
Proof.
unfold vec_set, vput. case_decide as Hi; split.
- intros [= <-]. done.
- intros [_ ->]. done.
- discriminate.
- intros [? _]. done.
Qed.

Lemma vec_set_vput v i x : i < vsize v → vec_set v i x = Some (vput v i x).
Proof. intros. by apply vec_set_Some. Qed.

Lemma pop_back_Some v v' :
pop_back v = Some v' ↔ v ≠ [] ∧ v' = removelast v.
Proof.
destruct v as [|a w]; simpl; split.
- discriminate.
- intros [? _]. done.
- intros [= <-]. done.
- intros [_ ->]. done.
Qed.

Lemma length_removelast v : v ≠ [] → S (length (removelast v)) = length v.
Proof.
intros Hv. destruct (exists_last Hv) as (w & a & ->).
rewrite removelast_last, length_app. simpl. lia.
Qed.
End VecFacts.

Lemma size_minus_1_succ n : n + 1 < two64 → size_minus_1 (n + 1) = n.
Proof.
intros Hn. unfold size_minus_1.
replace (n + 1 + (two64 - 1)) with (n + 1 * two64) by (unfold two64 in *; lia).
rewrite N.Div0.mod_add. apply N.mod_small. lia.
Qed.

Lemma size_minus_1_zero : size_minus_1 0 = NONE.
Proof. reflexivity. Qed.

Lemma max_size_lt_NONE : max_size < NONE.
Proof. reflexivity. Qed.

Section FieldFacts.
Implicit Types (d : list pairing_heap_node) (i j v : N).

Lemma set_field_Some f i v d d' :
set_field f i v d = Some d' ↔
∃ nd, vec_at d i = Some nd ∧ d' = vput d i (f v nd).
Proof.
unfold set_field. split.
- intros Hs. destruct (vec_at d i) as [nd|] eqn:Hi; [|done]. simpl in Hs.
  apply vec_set_Some in Hs as [_ ->]. eauto.
- intros (nd & Hi & ->). rewrite Hi. simpl.
  apply vec_set_vput. by eapply vec_at_lt.
Qed.

Lemma set_field_vput f i v d nd :
vec_at d i = Some nd → set_field f i v d = Some (vput d i (f v nd)).
Proof. intros. apply set_field_Some. eauto. Qed.

Lemma set_field_length f i v d d' :
set_field f i v d = Some d' → length d' = length d.
Proof. intros (nd & _ & ->)%set_field_Some. apply length_vput. Qed.
End FieldFacts.

(** ** Straight-line code as a transformation of the arena's lookups *)

Ltac inv_bind H :=
repeat match type of H with
| (_ ≫= _) = Some _ =>
    let x := fresh "x" in
    let Hx := fresh "Hx" in
    apply bind_Some in H as (x & Hx & H); cbv beta in H
end.

Section ArenaLookup.
Implicit Types (d : list pairing_heap_node) (i j v : N).

Lemma set_field_lookup f i v d d' :
set_field f i v d = Some d' →
∀ j, vec_at d' j = written f i v j <$> vec_at d j.
Proof.
intros (nd & Hi & ->)%set_field_Some j. rewrite vec_at_vput.
unfold written. case_decide as Hj.
- subst j. rewrite Hi. simpl.
  rewrite decide_True; [done|]. by eapply vec_at_lt.
- by destruct (vec_at d j).
Qed.

Lemma set_field_is_Some f i v d :
is_Some (vec_at d i) → is_Some (set_field f i v d).
Proof. intros [nd Hnd]. erewrite set_field_vput; eauto. Qed.

Lemma written_child_parent i v j nd :
child (written with_parent i v j nd) = child nd.
Proof. unfold written. by case_decide. Qed.

Lemma written_child_right i v j nd :
child (written with_right_sibling i v j nd) = child nd.
Proof. unfold written. by case_decide. Qed.

Lemma merge_lookup x y d d' :
merge x y d = Some d' →
∃ ny, vec_at d y = Some ny ∧ length d' = length d ∧
      ∀ j, vec_at d' j = merged x y (child ny) j <$> vec_at d j.
Proof.
unfold merge. intros Hm. inv_bind Hm.
rename x0 into d1, x1 into n1, x2 into d2, x3 into n2, x4 into d3.
pose proof (set_field_lookup _ _ _ _ _ Hx) as L1.
pose proof (set_field_lookup _ _ _ _ _ Hx1) as L2.
pose proof (set_field_lookup _ _ _ _ _ Hm) as L4.
rewrite L1 in Hx0. rewrite L2, L1 in Hx2.
destruct (vec_at d y) as [ny|] eqn:Hy; [|done]. simpl in Hx0, Hx2.
injection Hx0 as <-. injection Hx2 as <-.
rewrite written_child_parent in *.
rewrite written_child_right, written_child_parent in *.
exists ny. split; [done|]. split.
- apply set_field_length in Hx, Hx1, Hm.
  destruct (child ny =? NONE); [injection Hx3 as <-; congruence|].
  apply set_field_length in Hx3. congruence.
- intros j. rewrite L4. unfold merged.
  destruct (N.eqb_spec (child ny) NONE) as [Hc|Hc].
  + injection Hx3 as <-. rewrite L2, L1.
    destruct (vec_at d j); simpl; [|done].
    by rewrite decide_True.
  + pose proof (set_field_lookup _ _ _ _ _ Hx3) as L3.
    rewrite L3, L2, L1.
    destruct (vec_at d j); simpl; [|done].
    by rewrite decide_False.
Qed.

Lemma merge_is_Some x y d ny :
is_Some (vec_at d x) → vec_at d y = Some ny →
(child ny ≠ NONE → is_Some (vec_at d (child ny))) →
is_Some (merge x y d).
Proof.
intros [nx Hx] Hy Hc. unfold merge.
destruct (set_field_is_Some with_parent x y d) as [d1 H1]; [eauto|].
pose proof (set_field_lookup _ _ _ _ _ H1) as L1.
unfold set_parent. rewrite H1. simpl. rewrite L1, Hy. simpl.
rewrite written_child_parent.
destruct (set_field_is_Some with_right_sibling x (child ny) d1)
  as [d2 H2]; [rewrite L1, Hx; eauto|].
pose proof (set_field_lookup _ _ _ _ _ H2) as L2.
unfold set_right_sibling. rewrite H2. simpl. rewrite L2, L1, Hy. simpl.
rewrite written_child_right, written_child_parent.
destruct (N.eqb_spec (child ny) NONE) as [Hn|Hn]; simpl.
- apply set_field_is_Some. rewrite L2, L1, Hy. eauto.
- destruct (Hc Hn) as [nc Hnc].
  destruct (set_field_is_Some with_left_sibling (child ny) x d2)
    as [d3 H3]; [rewrite L2, L1, Hnc; eauto|].
  unfold set_left_sibling. rewrite H3. simpl.
  apply set_field_is_Some.
  rewrite (set_field_lookup _ _ _ _ _ H3), L2, L1, Hy. eauto.
Qed.
End ArenaLookup.

(** ** [merge] *)

Lemma merge_links_of_lookup d x y d' nx ny :
  x ≠ y → child ny ≠ x →
  vec_at d x = Some nx → vec_at d y = Some ny → length d' = length d →
  (∀ j, vec_at d' j = merged x y (child ny) j <$> vec_at d j) →
  merge_links d x y d'.
Proof.
  intros Hxy Hcx Hx Hy Hlen L. exists nx, ny. do 3 (split; [done|]).
  intros j nj Hj. rewrite L, Hj. simpl. eexists. split; [done|].
  unfold merged, written.
  repeat case_decide; simpl; repeat split; try done; try congruence;
    try (exfalso; intuition congruence).
Qed.

(** ** Lengths: no operation but [push] resizes the arena *)

Ltac lengths :=
  unfold set_item_index, set_parent, set_child, set_right_sibling,
    set_left_sibling in *;
  repeat match goal with
  | H : set_field _ _ _ _ = Some _ |- _ => apply set_field_length in H
  | H : merge _ _ _ = Some _ |- _ =>
      apply merge_lookup in H as (? & _ & H & _)
  end.

Lemma meld_length e d i t d' t' :
  meld e d i t = Some (d', t') → length d' = length d.
Proof.
  unfold meld. intros Hm. inv_bind Hm.
  destruct (compare _ _); inv_bind Hm; injection Hm as <- <-; by lengths.
Qed.

Lemma pairing_body_length e s s' :
  pairing_body e s = Some s' → length (pr_data s') = length (pr_data s).
Proof.
  unfold pairing_body. intros Hb. inv_bind Hb.
  destruct x9 as [d9 nt]. simpl in Hb. inv_bind Hb. injection Hb as <-. simpl.
  destruct (compare _ _); inv_bind Hx9; injection Hx9 as <- <-;
    lengths; congruence.
Qed.

Lemma pairing_loop_length fuel e s s' :
  pairing_loop fuel e s = Some s' → length (pr_data s') = length (pr_data s).
Proof.
  revert s. induction fuel as [|fuel IH]; intros s; simpl; [done|].
  intros Hl. inv_bind Hl. destruct x as [|].
  - inv_bind Hl. apply IH in Hl. apply pairing_body_length in Hx0. congruence.
  - by injection Hl as <-.
Qed.

Lemma pairing_odd_length s d nt :
  pairing_odd s = Some (d, nt) → length d = length (pr_data s).
Proof.
  unfold pairing_odd. destruct (_ =? _); [by intros [= <- <-]|].
  intros Ho. inv_bind Ho. destruct (_ =? _); [|by injection Ho as <- <-].
  inv_bind Ho. injection Ho as <- <-. lengths. congruence.
Qed.

Lemma accum_body_length e d nt d' nt' :
  accum_body e d nt = Some (d', nt') → length d' = length d.
Proof.
  unfold accum_body. intros Hb. inv_bind Hb.
  destruct x5 as [d5 n5]. simpl in Hb. inv_bind Hb. injection Hb as <- <-.
  destruct (compare _ _); inv_bind Hx5; injection Hx5 as <- <-;
    lengths; congruence.
Qed.

Lemma accum_loop_length fuel e d nt d' nt' :
  accum_loop fuel e d nt = Some (d', nt') → length d' = length d.
Proof.
  revert d nt. induction fuel as [|fuel IH]; intros d nt; simpl; [done|].
  intros Hl. inv_bind Hl. destruct x as [|].
  - inv_bind Hl. destruct x as [d1 n1]. simpl in Hl.
    apply IH in Hl. apply accum_body_length in Hx0. congruence.
  - by injection Hl as <- <-.
Qed.

Lemma pop_children_length e d t d' nt :
  pop_children e d t = Some (d', nt) → length d' = length d.
Proof.
  unfold pop_children. intros Hp. inv_bind Hp. destruct x1 as [d1 n1].
  cbv beta iota in Hp. apply accum_loop_length in Hp.
  apply pairing_odd_length in Hx1. apply pairing_loop_length in Hx0.
  simpl in Hx0. congruence.
Qed.

Lemma pop_compact_facts h d nt h' :
  pop_compact h d nt = Some h' →
  length (data_ h') = length d ∧
  vec_at (data_ h') (top_ h) = Some dead_node ∧
  S (length (elements_ h')) = length (elements_ h) ∧
  top_ h' = nt.
Proof.
  unfold pop_compact. intros Hc. inv_bind Hc.
  destruct (id_read _ _) as [index m]. inv_bind Hc. injection Hc as <-.
  simpl.
  match goal with Hp : pop_back _ = Some _ |- _ =>
    apply pop_back_Some in Hp as [Hne ->] end.
  match goal with Hp : vec_set _ _ _ = Some _ |- _ =>
    apply vec_set_Some in Hp as [_ ->] end.
  assert (elements_ h ≠ []) as Hne'.
  { intros He. rewrite He in Hne. by apply Hne. }
  split; [|split; [|split]]; [..|done].
  - lengths. congruence.
  - unfold set_item_index, set_parent, set_child, set_right_sibling,
      set_left_sibling in *.
    repeat match goal with
    | Hs : set_field _ (top_ h) NONE ?d0 = Some ?d1 |- context [vec_at ?d1] =>
        rewrite (set_field_lookup _ _ _ _ _ Hs)
    end.
    match goal with
    | Hs : set_field with_parent (top_ h) NONE _ = Some _ |- _ =>
        apply set_field_Some in Hs as (n0 & Hn0 & _)
    end.
    rewrite Hn0. simpl. unfold written. by rewrite !decide_True.
  - rewrite length_removelast by done. by rewrite length_vput.
Qed.

Lemma pop_guard h : top_ h = NONE → pop h = Some h.
Proof. intros Ht. unfold pop. by rewrite Ht. Qed.

Lemma pop_facts h h' :
  top_ h ≠ NONE → pop h = Some h' →
  length (data_ h') = length (data_ h) ∧
  vec_at (data_ h') (top_ h) = Some dead_node ∧
  S (length (elements_ h')) = length (elements_ h).
Proof.
  intros Ht. unfold pop. destruct (N.eqb_spec (top_ h) NONE); [done|].
  intros Hp. inv_bind Hp. destruct x as [d nt]. simpl in Hp.
  apply pop_children_length in Hx.
  apply pop_compact_facts in Hp as (? & ? & ? & _).
  repeat split; [congruence|done..].
Qed.

Lemma pop_internal_Some h h' :
  pop_internal h = Some h' ↔
  ∃ v h1, top h = Some v ∧ pop h = Some h1 ∧
    h' = mk_heap (elements_ h1) (data_ h1) (delete (key v) (map_ h1))
           (top_ h1).
Proof.
  unfold pop_internal. split.
  - intros Hp. inv_bind Hp. injection Hp as <-. eauto.
  - intros (v & h1 & -> & Hp & ->). simpl. by rewrite Hp.
Qed.

Lemma top_Some_guard h v :
  vsize (data_ h) ≤ max_size → top h = Some v → top_ h ≠ NONE.
Proof.
  unfold top, value_at. intros Hcap Ht. inv_bind Ht.
  apply vec_at_lt in Hx. pose proof max_size_lt_NONE. lia.
Qed.

Lemma push_length x h h' :
  push x h = Some h' →
  length (data_ h') = S (length (data_ h)) ∧
  length (elements_ h') = S (length (elements_ h)) ∧
  vsize (data_ h') ≤ max_size.
Proof.
  unfold push. case_decide as Hcap; [done|].
  assert (vsize (data_ h ++ [mk_node (size_minus_1
            (vsize (elements_ h ++ [x]))) NONE NONE NONE NONE]) ≤ max_size)
    as Hle by (rewrite vsize_app; lia).
  destruct (_ =? _).
  - intros [= <-]. simpl. rewrite !length_app. simpl. split; [lia|].
    split; [lia|done].
  - intros Hp. inv_bind Hp. destruct x0 as [d t]. injection Hp as <-. simpl.
    apply meld_length in Hx. unfold vsize in *.
    rewrite Hx, !length_app in *. simpl in *. split; [lia|]. split; [lia|done].
Qed.

Lemma update_length x h h' :
  update x h = Some h' →
  length (data_ h') = length (data_ h) ∧
  length (elements_ h') = length (elements_ h).
Proof.
  unfold update. destruct (id_read _ _) as [index m]. intros Hu. inv_bind Hu.
  match goal with Hp : vec_set _ _ _ = Some _ |- _ =>
    apply vec_set_Some in Hp as [_ ->] end.
  destruct (_ =? _).
  - injection Hu as <-. simpl. by rewrite length_vput.
  - inv_bind Hu.
    match goal with Hp : meld _ _ _ _ = Some ?p |- _ =>
      destruct p as [d t]; apply meld_length in Hp end.
    injection Hu as <-. simpl.
    rewrite length_vput. split; [|done].
    repeat match goal with
    | Hp : (if ?b then _ else _) = Some _ |- _ => destruct b
    | Hp : Some _ = Some _ |- _ => injection Hp as <-
    end; lengths; congruence.
Qed.

(** ** Counting pushes and pops along a run *)

Lemma count_pushes_cons o ops :
  count_pushes (o :: ops) =
    ((if is_push o then 1 else 0) + count_pushes ops)%nat.
Proof. unfold count_pushes. rewrite filter_cons. by destruct o. Qed.

Lemma step_lengths pol o h h' :
  step pol o h = Some h' →
  length (data_ h') =
    ((if is_push o then 1 else 0) + length (data_ h))%nat ∧
  ((if is_pop o && past_guard h then 1 else 0) +
     length (elements_ h') =
   (if is_push o then 1 else 0) + length (elements_ h))%nat.
Proof.
  destruct o as [x| |x]; simpl.
  - intros (? & ? & _)%push_length. lia.
  - assert (∀ h1, pop h = Some h1 →
      length (data_ h1) = length (data_ h) ∧
      ((if past_guard h then 1 else 0) + length (elements_ h1)
       = length (elements_ h))%nat) as Hpop.
    { intros h1 Hp. unfold past_guard.
      destruct (N.eqb_spec (top_ h) NONE) as [Ht|Ht].
      - rewrite pop_guard in Hp by done. by injection Hp as <-.
      - simpl. apply pop_facts in Hp as (? & _ & ?); [lia|done]. }
    destruct pol; simpl; [apply Hpop|].
    intros (v & h1 & _ & Hp & ->)%pop_internal_Some. simpl. by apply Hpop.
  - intros [? ?]%update_length. lia.
Qed.

Lemma run_lengths pol ops h h' :
  run pol ops h = Some h' →
  length (data_ h') = (count_pushes ops + length (data_ h))%nat ∧
  (count_guarded_pops pol ops h + length (elements_ h') =
   count_pushes ops + length (elements_ h))%nat.
Proof.
  revert h. induction ops as [|o ops IH]; intros h; simpl.
  - intros [= <-]. done.
  - intros Hr. inv_bind Hr. rewrite Hx, count_pushes_cons.
    apply IH in Hr as [? ?]. apply step_lengths in Hx as [? ?]. lia.
Qed.

Lemma empty_iff_size h : empty h = true ↔ size h = 0.
Proof. unfold empty, size. apply N.eqb_eq. Qed.

(** C6 (amended): after any run from the empty heap, [size()] is the number
    of [push] calls minus the number of [pop] calls that got past the
    emptiness guard of [pop] (a [pop] that finds the heap empty removes
    nothing and is not counted); [empty()] holds exactly when [size()] is
    zero. *)
Theorem size_is_pushes_minus_guarded_pops pol ops h :
  run pol ops empty_heap = Some h →
  (N.to_nat (size h) + count_guarded_pops pol ops empty_heap
   = count_pushes ops)%nat ∧
  (empty h = true ↔ size h = 0).
Proof.
  intros Hr. split; [|apply empty_iff_size].
  apply run_lengths in Hr as [_ Hr]. simpl in Hr.
  unfold size, vsize. lia.
Qed.

(** C10: the arena holds one record per [push] ever made; a [pop] that
    extracts the root keeps the length of the arena, leaves the record of
    the extracted node in place with every field set to the sentinel, and
    takes one value off the value array. *)
Theorem arena_never_shrinks pol ops h :
  run pol ops empty_heap = Some h →
  length (data_ h) = count_pushes ops ∧
  ∀ h', top_ h ≠ NONE → pop_of pol h = Some h' →
    length (data_ h') = length (data_ h) ∧
    vec_at (data_ h') (top_ h) = Some dead_node ∧
    S (length (elements_ h')) = length (elements_ h).
Proof.
  intros Hr. split.
  - apply run_lengths in Hr as [Hr _]. simpl in Hr. lia.
  - intros h' Ht. destruct pol; simpl.
    + by apply pop_facts.
    + intros (v & h1 & _ & Hp & ->)%pop_internal_Some. simpl.
      by apply pop_facts.
Qed.

(** C8 (amended): for distinct [x] and [y] where [x] is not already the
    child of [y], [merge(x, y)] is defined as soon as the nodes it reads are
    in the arena, and changes exactly the four links. *)
Theorem merge_sets_four_links d x y nx ny :
  x ≠ y → vec_at d x = Some nx → vec_at d y = Some ny → child ny ≠ x →
  (child ny ≠ NONE → child ny < vsize d) →
  ∃ d', merge x y d = Some d' ∧ merge_links d x y d'.
Proof.
  intros Hxy Hx Hy Hcx Hc.
  destruct (merge_is_Some x y d ny) as [d' Hm]; [eauto|done|..].
  { intros Hn. apply vec_at_is_Some. auto. }
  exists d'. split; [done|].
  apply merge_lookup in Hm as (ny' & Hy' & Hlen & L).
  assert (ny' = ny) as -> by congruence.
  by eapply merge_links_of_lookup.
Qed.

(** C7: when [update(x)] resolves to the root, it stores [x] in the slot
    of the root and leaves the arena, the top index and the size alone. *)
Theorem update_of_root_only_overwrites x h h' :
  (id_read (map_ h) x).1 = top_ h → update x h = Some h' →
  data_ h' = data_ h ∧ top_ h' = top_ h ∧ size h' = size h ∧
  ∃ nd, vec_at (data_ h) (top_ h) = Some nd ∧
        item_index nd < size h ∧
        elements_ h' = vput (elements_ h) (item_index nd) x.
Proof.
  unfold update. destruct (id_read _ _) as [index m]. simpl.
  intros -> Hu. inv_bind Hu. rewrite N.eqb_refl in Hu. injection Hu as <-.
  match goal with Hp : vec_set _ _ _ = Some _ |- _ =>
    apply vec_set_Some in Hp as [? ->] end.
  unfold size. simpl. rewrite vsize_vput. eauto 10.
Qed.

(** C5: [pop] of the engine returns at its guard on the empty heap, and so
    does the front end that forwards to it; the front end with the internal
    map reads [top()] before it reaches the guard, which on the empty heap
    is a read outside the arena. *)
Theorem pop_on_empty_heap :
  pop_of External empty_heap = Some empty_heap ∧
  pop_of Internal empty_heap = None.
Proof. split; reflexivity. Qed.

Lemma id_read_Some m x i : m !! key x = Some i → id_read m x = (i, m).
Proof. unfold id_read. by intros ->. Qed.

Lemma push_map x h h' :
  push x h = Some h' →
  map_ h' = <[key x := vsize (data_ h)]> (map_ h) ∧
  vsize (data_ h') = vsize (data_ h) + 1.
Proof.
  intros Hp. pose proof (push_length _ _ _ Hp) as (Hl & _ & _).
  revert Hp. unfold push. cbv zeta. case_decide as Hcap; [done|].
  rewrite !vsize_app, (size_minus_1_succ (vsize (data_ h)))
    by (pose proof max_size_lt_NONE; unfold NONE in *; lia).
  unfold id_write. split; [|unfold vsize; lia].
  destruct (_ =? _); [by injection Hp as <-|].
  inv_bind Hp. destruct x0. by injection Hp as <-.
Qed.

(** ** Trees in the arena *)

Local Abbreviation idxs t := ((nodes t).*1).

Lemma idxs_Br i v c s : idxs (Br i v c s) = i :: idxs c ++ idxs s.
Proof. simpl. by rewrite fmap_app. Qed.

Lemma NoDup_sub {A} (l k : list A) : k ⊆+ l → NoDup l → NoDup k.
Proof.
  intros [k' Hk]%submseteq_Permutation Hl. rewrite Hk in Hl.
  by apply NoDup_app in Hl as [? _].
Qed.

Lemma NoDup_apart {A} (l k1 k2 : list A) x :
  k1 ++ k2 ⊆+ l → NoDup l → x ∈ k1 → x ∉ k2.
Proof.
  intros Hk Hl. apply (NoDup_sub _ _ Hk) in Hl.
  apply NoDup_app in Hl as (_ & Hd & _). apply Hd.
Qed.

Ltac nodup H := eapply NoDup_sub; [|exact H]; solve_submseteq.
Ltac apart H k :=
  eapply (NoDup_apart _ k); [|exact H|]; [solve_submseteq|];
  repeat first [done | apply list_elem_of_here | apply elem_of_app; left; done
               | apply elem_of_app; right; done | apply list_elem_of_further].

Lemma in_range_not_NONE {A} (v : list A) i x :
  vsize v ≤ max_size → vec_at v i = Some x → i ≠ NONE.
Proof.
  intros Hcap Hx ->. apply vec_at_lt in Hx. pose proof max_size_lt_NONE. lia.
Qed.

Lemma rep_ext d d' t p l :
  (∀ i, i ∈ idxs t → vec_at d' i = vec_at d i) → rep d t p l → rep d' t p l.
Proof.
  revert p l. induction t as [|i v c IHc s IHs]; intros p l Hext; [done|].
  rewrite idxs_Br in Hext. simpl.
  intros (nd & Hi & Hp & Hl & Hc & Hr & Hrc & Hrs). exists nd.
  rewrite Hext by set_solver. repeat split; try done.
  - apply IHc; [|done]. intros j Hj. apply Hext. set_solver.
  - apply IHs; [|done]. intros j Hj. apply Hext. set_solver.
Qed.

Lemma rep_lt d t p l i : rep d t p l → i ∈ idxs t → i < vsize d.
Proof.
  revert p l. induction t as [|j v c IHc s IHs]; intros p l.
  - simpl. by intros _ ?%elem_of_nil.
  - rewrite idxs_Br. simpl.
    intros (nd & Hj & _ & _ & _ & _ & Hrc & Hrs) Hi.
    apply elem_of_cons in Hi as [->|Hi]; [by eapply vec_at_lt|].
    apply elem_of_app in Hi as [Hi|Hi]; eauto.
Qed.

Lemma rep_not_NONE d t p l :
  vsize d ≤ max_size → rep d t p l → NONE ∉ idxs t.
Proof.
  intros Hcap Hr Hn. pose proof (rep_lt _ _ _ _ _ Hr Hn).
  pose proof max_size_lt_NONE. lia.
Qed.

Lemma root_in t : t ≠ Lf → root t ∈ idxs t.
Proof. destruct t; [done|]. intros _. rewrite idxs_Br. set_solver. Qed.

Lemma root_NONE d t p l :
  vsize d ≤ max_size → rep d t p l → root t = NONE → t = Lf.
Proof.
  intros Hcap Hr Hn. destruct t as [|i v c s]; [done|].
  assert (Br i v c s ≠ Lf) as Hne by done.
  apply root_in in Hne. rewrite Hn in Hne.
  by eapply rep_not_NONE in Hne.
Qed.

Lemma root_not_NONE d i v c s p l :
  vsize d ≤ max_size → rep d (Br i v c s) p l → i ≠ NONE.
Proof. intros Hcap Hr Hn. by apply (root_NONE _ _ _ _ Hcap Hr) in Hn. Qed.

Lemma rep_root_in_range d t p l :
  rep d t p l → root t ≠ NONE → is_Some (vec_at d (root t)).
Proof.
  destruct t; [done|]. simpl. intros (nd & Hi & _) _. eauto.
Qed.

Lemma level_subseteq t : level t ⊆ nodes t.
Proof.
  induction t as [|i v c IHc s IHs]; simpl; [done|]. set_solver.
Qed.

Lemma rep_level_parent d t p l j vj :
  rep d t p l → (j, vj) ∈ level t →
  ∃ nj, vec_at d j = Some nj ∧ parent nj = p.
Proof.
  revert l. induction t as [|i v c IHc s IHs]; intros l; simpl.
  - by intros _ ?%elem_of_nil.
  - intros (nd & Hi & Hp & _ & _ & _ & _ & Hrs) Hj.
    apply elem_of_cons in Hj as [[= -> ->]|Hj]; eauto.
Qed.

(** Pigeonhole: distinct indices of the arena are no more than its
    length. *)
Lemma NoDup_lt_length (l : list N) (n : nat) :
  NoDup l → (∀ i, i ∈ l → i < N.of_nat n) → (length l ≤ n)%nat.
Proof.
  intros Hnd Hlt.
  assert (N.to_nat <$> l ⊆+ seq 0 n) as Hsub.
  { apply NoDup_submseteq.
    - apply NoDup_fmap; [|done]. intros ? ?. apply N2Nat.inj.
    - intros x (i & -> & Hi)%list_elem_of_fmap. apply elem_of_seq.
      specialize (Hlt _ Hi). lia. }
  apply submseteq_length in Hsub. by rewrite length_fmap, length_seq in Hsub.
Qed.

(** ** [merge] on trees *)

Lemma item_index_written f i v j nd :
  (∀ v nd, item_index (f v nd) = item_index nd) →
  item_index (written f i v j nd) = item_index nd.
Proof. intros Hf. unfold written. by case_decide. Qed.

Lemma item_index_merged x y c j nd :
  item_index (merged x y c j nd) = item_index nd.
Proof.
  unfold merged. case_decide; by rewrite !item_index_written.
Qed.

Lemma merged_other x y c j nd :
  j ≠ x → j ≠ y → j ≠ c → merged x y c j nd = nd.
Proof.
  intros. unfold merged, written. by repeat case_decide.
Qed.

Lemma merged_x x y c nd :
  x ≠ y → x ≠ c →
  merged x y c x nd = with_right_sibling c (with_parent y nd).
Proof.
  intros. unfold merged, written. by repeat case_decide.
Qed.

Lemma merged_y x y c nd :
  x ≠ y → y ≠ c → merged x y c y nd = with_child x nd.
Proof.
  intros. unfold merged, written. by repeat case_decide.
Qed.

Lemma merged_c x y c nd :
  x ≠ c → y ≠ c → c ≠ NONE → merged x y c c nd = with_left_sibling x nd.
Proof.
  intros. unfold merged, written. by repeat case_decide.
Qed.

(** [merge x y] hangs the tree of [x] in front of the children of [y]. *)
Lemma merge_attach d x y vx cx cy nx ny :
  vsize d ≤ max_size →
  NoDup (x :: y :: idxs cx ++ idxs cy) →
  vec_at d x = Some nx → left_sibling nx = NONE → child nx = root cx →
  rep d cx x NONE →
  vec_at d y = Some ny → child ny = root cy → rep d cy y NONE →
  ∃ d', merge x y d = Some d' ∧ length d' = length d ∧
    vec_at d' y = Some (with_child x ny) ∧
    rep d' (Br x vx cx cy) y NONE ∧
    (∀ j, j ∉ x :: y :: idxs cx ++ idxs cy → vec_at d' j = vec_at d j) ∧
    (∀ j, item_index <$> vec_at d' j = item_index <$> vec_at d j).
Proof.
  intros Hcap Hnd Hx Hlx Hcx Hrx Hy Hcy Hry.
  apply NoDup_cons in Hnd as [Hx' Hnd]. apply NoDup_cons in Hnd as [Hy' Hnd].
  apply NoDup_app in Hnd as (Hndx & Hdisj & Hndy).
  apply not_elem_of_cons in Hx' as [Hxy Hx'].
  apply not_elem_of_app in Hx' as [Hxcx Hxcy].
  apply not_elem_of_app in Hy' as [Hycx Hycy].
  pose proof (rep_not_NONE _ _ _ _ Hcap Hrx) as Hnx.
  pose proof (rep_not_NONE _ _ _ _ Hcap Hry) as Hny.
  assert (root cy = NONE ∨ root cy ∈ idxs cy) as Hroot.
  { destruct cy; [by left|right]. rewrite idxs_Br. apply elem_of_cons. by left. }
  assert (∀ j, j ∈ idxs cx → j ≠ root cy) as Hcxc.
  { intros j Hj ->. destruct Hroot as [Hn|Hin]; [by rewrite Hn in Hj|].
    by apply (Hdisj _ Hj). }
  assert (x ≠ root cy) as Hxc.
  { destruct Hroot as [->|?]; [|by intros ->].
    intros ->. apply vec_at_lt in Hx. pose proof max_size_lt_NONE. lia. }
  assert (y ≠ root cy) as Hyc.
  { destruct Hroot as [->|?]; [|by intros ->].
    intros ->. apply vec_at_lt in Hy. pose proof max_size_lt_NONE. lia. }
  destruct (merge_is_Some x y d ny) as [d' Hm]; [eauto|done|..].
  { rewrite Hcy. by apply (rep_root_in_range d cy y NONE). }
  exists d'. split; [done|].
  apply merge_lookup in Hm as (ny' & Hy'' & Hlen & L).
  assert (ny' = ny) as -> by congruence. rewrite Hcy in L.
  assert (∀ j, j ≠ x → j ≠ y → j ≠ root cy → vec_at d' j = vec_at d j) as Lo.
  { intros j ? ? ?. rewrite L. destruct (vec_at d j); [|done]. simpl.
    by rewrite merged_other. }
  split; [done|]. split; [|split; [|split]].
  - rewrite L, Hy. simpl. by rewrite merged_y.
  - simpl. exists (with_right_sibling (root cy) (with_parent y nx)).
    rewrite L, Hx. simpl. rewrite merged_x by done.
    do 5 (split; [done|]). split.
    + eapply rep_ext; [|done]. intros j Hj.
      apply Lo; [by intros ->|by intros ->|by apply Hcxc].
    + destruct cy as [|r vr cr sr]; [done|]. simpl in Hry, Hxc, Hyc, L |- *.
      destruct Hry as (nr & Hr & Hpr & Hlr & Hcr & Hrr & Hrcr & Hrsr).
      rewrite idxs_Br in Hndy, Hxcy, Hycy.
      apply NoDup_cons in Hndy as [Hr' Hndy].
      apply not_elem_of_cons in Hxcy as [_ Hxcy].
      apply not_elem_of_cons in Hycy as [_ Hycy].
      exists (with_left_sibling x nr). rewrite L, Hr. simpl.
      rewrite merged_c; [|done..|by eapply in_range_not_NONE].
      do 5 (split; [done|]).
      split; (eapply rep_ext; [|done]); intros j Hj;
        (apply Lo; [intros ->|intros ->|intros ->]).
      * apply Hxcy, elem_of_app. by left.
      * apply Hycy, elem_of_app. by left.
      * apply Hr', elem_of_app. by left.
      * apply Hxcy, elem_of_app. by right.
      * apply Hycy, elem_of_app. by right.
      * apply Hr', elem_of_app. by right.
  - intros j Hj. apply not_elem_of_cons in Hj as [? Hj].
    apply not_elem_of_cons in Hj as [? Hj].
    apply not_elem_of_app in Hj as [? Hj].
    rewrite L. destruct (vec_at d j) eqn:E; [|done]. simpl.
    rewrite merged_other; [done..|]. intros ->.
    destruct Hroot as [Hn|Hin]; [|done].
    rewrite Hn in E. apply vec_at_lt in E. pose proof max_size_lt_NONE. lia.
  - intros j. rewrite L. destruct (vec_at d j); [|done]. simpl.
    by rewrite item_index_merged.
Qed.

Lemma vput_vput {A} (v : list A) i x y : vput (vput v i x) i y = vput v i y.
Proof. unfold vput. apply list_insert_insert_eq. Qed.

Lemma set_field_vput_same f i v d x :
  i < vsize d → set_field f i v (vput d i x) = Some (vput d i (f v x)).
Proof.
  intros Hi. rewrite (set_field_vput f i v _ x), vput_vput; [done|].
  by apply vec_at_vput_eq.
Qed.

Lemma obind_Some {A B} (x : A) (f : A → option B) : Some x ≫= f = f x.
Proof. reflexivity. Qed.

Lemma detached_eq nd :
  with_right_sibling NONE (with_left_sibling NONE (with_parent NONE nd))
  = detached nd.
Proof. reflexivity. Qed.

Lemma value_at_slots e d d' i :
  item_index <$> vec_at d' i = item_index <$> vec_at d i →
  value_at e d' i = value_at e d i.
Proof.
  unfold value_at. destruct (vec_at d' i), (vec_at d i); simpl; try done.
  by intros [= ->].
Qed.

Lemma value_at_Some e d i v :
  value_at e d i = Some v ↔
  ∃ nd, vec_at d i = Some nd ∧ vec_at e (item_index nd) = Some v.
Proof. unfold value_at. apply bind_Some. Qed.

Lemma chain_ext d d' ws hd :
  (∀ i, i ∈ (wnodes ws).*1 → vec_at d' i = vec_at d i) →
  chain d ws hd → chain d' ws hd.
Proof.
  revert hd. induction ws as [|[[w v] c] ws IH]; intros hd Hext; [done|].
  unfold wnodes in Hext. rewrite bind_cons, fmap_app in Hext. simpl in Hext.
  simpl. intros (-> & nd & Hw & Hp & Hr & Hc & Hrc & Hch). split; [done|].
  exists nd. rewrite Hext by set_solver. repeat split; try done.
  - eapply rep_ext; [|done]. intros j Hj. apply Hext. set_solver.
  - apply IH; [|done]. intros j Hj. apply Hext. set_solver.
Qed.

Section Melding.
Variable G : Prop.
Hypothesis asym : G → asymmetric.

(** The melding step on two detached roots [a] and [b]. *)
Lemma meld_roots d a b va vb ca cb na nb :
  vsize d ≤ max_size →
  NoDup (a :: b :: idxs ca ++ idxs cb) →
  vec_at d a = Some na → left_sibling na = NONE → child na = root ca →
  rep d ca a NONE →
  vec_at d b = Some nb → left_sibling nb = NONE → child nb = root cb →
  rep d cb b NONE →
  ho G va ca → ho G vb cb →
  ∃ d' w wv wc nw n0,
    (if compare va vb then d ← merge b a d; Some (d, a)
     else d ← merge a b d; Some (d, b)) = Some (d', w) ∧
    length d' = length d ∧
    vec_at d' w = Some nw ∧ vec_at d w = Some n0 ∧
    nw = with_child (root wc) n0 ∧ (w = a ∨ w = b) ∧
    rep d' wc w NONE ∧ ho G wv wc ∧
    (w, wv) :: nodes wc ≡ₚ (a, va) :: nodes ca ++ (b, vb) :: nodes cb ∧
    (∀ j, j ∉ a :: b :: idxs ca ++ idxs cb → vec_at d' j = vec_at d j) ∧
    (∀ j, item_index <$> vec_at d' j = item_index <$> vec_at d j).
Proof.
  intros Hcap Hnd Ha Hla Hca Hra Hb Hlb Hcb Hrb Hoa Hob.
  destruct (compare va vb) eqn:Hcmp.
  - destruct (merge_attach d b a vb cb ca nb na)
      as (d' & Hm & Hlen & Hw & Hr & Hfr & Hsl); try done.
    { eapply NoDup_Permutation_proper; [|exact Hnd].
      rewrite perm_swap. do 2 f_equiv. apply Permutation_app_comm. }
    exists d', a, va, (Br b vb cb ca), (with_child b na), na.
    rewrite Hm. simpl. repeat split; try done; [by left|..].
    + intros HG. by apply asym.
    + rewrite (Permutation_app_comm (nodes cb)). simpl.
      by rewrite Permutation_middle.
    + intros j Hj. apply Hfr. set_solver.
  - destruct (merge_attach d a b va ca cb na nb)
      as (d' & Hm & Hlen & Hw & Hr & Hfr & Hsl); try done.
    exists d', b, vb, (Br a va ca cb), (with_child a nb), nb.
    rewrite Hm. simpl. repeat split; try done; [by right|].
    rewrite <- Permutation_middle. by rewrite perm_swap.
Qed.

(** ** The two passes of [pop] *)

Lemma pairing_body_spec e d i1 v1 c1 i2 v2 c2 rest2 p l pp nt :
  vsize d ≤ max_size →
  rep d (Br i1 v1 c1 (Br i2 v2 c2 rest2)) p l →
  NoDup (idxs (Br i1 v1 c1 (Br i2 v2 c2 rest2))) →
  value_at e d i1 = Some v1 → value_at e d i2 = Some v2 →
  ho G v1 c1 → ho G v2 c2 →
  ∃ d' w wv wc nw,
    pairing_body e (mk_pairing d i1 pp nt)
      = Some (mk_pairing d' (root rest2) w w) ∧
    length d' = length d ∧
    vec_at d' w = Some nw ∧ parent nw = NONE ∧ right_sibling nw = NONE ∧
    left_sibling nw = pp ∧ child nw = root wc ∧
    rep d' wc w NONE ∧ ho G wv wc ∧
    (w, wv) :: nodes wc ≡ₚ (i1, v1) :: nodes c1 ++ (i2, v2) :: nodes c2 ∧
    (∀ j, j ∉ i1 :: i2 :: idxs c1 ++ idxs c2 → vec_at d' j = vec_at d j) ∧
    (∀ j, item_index <$> vec_at d' j = item_index <$> vec_at d j).
Proof.
  intros Hcap Hrep Hnd Hv1 Hv2 Ho1 Ho2.
  destruct Hrep as (n1 & H1 & Hp1 & Hl1 & Hc1 & Hr1 & Hrc1 & Hrep).
  destruct Hrep as (n2 & H2 & Hp2 & Hl2 & Hc2 & Hr2 & Hrc2 & Hrest).
  simpl in Hr1. rewrite !idxs_Br in Hnd.
  assert (NoDup (i1 :: i2 :: idxs c1 ++ idxs c2)) as Hnd' by nodup Hnd.
  assert (i1 ≠ i2) as Hne.
  { intros ->. apply NoDup_cons in Hnd' as [Hn _]. apply Hn. left. }
  assert (∀ j, j ∈ idxs c1 ++ idxs c2 → j ≠ i1 ∧ j ≠ i2) as Hcs.
  { intros j Hj. split; intros ->.
    - apply NoDup_cons in Hnd' as [Hn _]. apply Hn. by right.
    - apply NoDup_cons in Hnd' as [_ Hn]. by apply NoDup_cons in Hn as [Hn _]. }
  pose proof (vec_at_lt _ _ _ H1) as Hlt1.
  pose proof (vec_at_lt _ _ _ H2) as Hlt2.
  set (d6 := vput (vput d i1 (detached n1)) i2 (detached n2)).
  assert (vsize d6 = vsize d) as Hsz6 by (unfold d6; by rewrite !vsize_vput).
  assert (vec_at d6 i1 = Some (detached n1)) as H61.
  { unfold d6. rewrite vec_at_vput_ne by done. by apply vec_at_vput_eq. }
  assert (vec_at d6 i2 = Some (detached n2)) as H62.
  { unfold d6. apply vec_at_vput_eq. by rewrite vsize_vput. }
  assert (∀ j, j ≠ i1 → j ≠ i2 → vec_at d6 j = vec_at d j) as H6o.
  { intros j ? ?. unfold d6. by rewrite !vec_at_vput_ne. }
  assert (∀ j, item_index <$> vec_at d6 j = item_index <$> vec_at d j) as Hs6.
  { intros j. destruct (decide (j = i1)) as [->|?]; [by rewrite H61, H1|].
    destruct (decide (j = i2)) as [->|?]; [by rewrite H62, H2|].
    by rewrite H6o. }
  destruct (meld_roots d6 i1 i2 v1 v2 c1 c2 (detached n1) (detached n2))
    as (d7 & w & wv & wc & nw & n0 & Hm & Hlen7 & Hw7 & Hw6 & Hnw & Hw & Hrw
        & How & Hperm & Hfr7 & Hs7); try done.
  { by rewrite Hsz6. }
  { eapply rep_ext; [|exact Hrc1]. intros j Hj.
    apply H6o; apply Hcs, elem_of_app; by left. }
  { eapply rep_ext; [|exact Hrc2]. intros j Hj.
    apply H6o; apply Hcs, elem_of_app; by right. }
  assert (parent n0 = NONE ∧ right_sibling n0 = NONE) as [Hp0 Hr0].
  { destruct Hw as [->| ->]; [rewrite H61 in Hw6|rewrite H62 in Hw6];
      by injection Hw6 as <-. }
  exists (vput d7 w (with_left_sibling pp nw)), w, wv, wc,
    (with_left_sibling pp nw).
  pose proof (vec_at_lt _ _ _ Hw7) as Hltw.
  assert (NoDup ((w, wv) :: nodes wc).*1) as Hndw.
  { rewrite Hperm. simpl. rewrite fmap_app. simpl. nodup Hnd'. }
  simpl in Hndw. apply NoDup_cons in Hndw as [Hwc _].
  assert (∀ j, j ∉ i1 :: i2 :: idxs c1 ++ idxs c2 → j ≠ w) as Hjw.
  { intros j Hj ->. apply Hj. destruct Hw as [->| ->].
    - left.
    - right. left. }
  split; [|split; [|split; [|repeat split]]].
  - unfold pairing_body. simpl. rewrite H1. simpl. rewrite Hr1, H2. simpl.
    unfold set_parent, set_left_sibling, set_right_sibling.
    rewrite (set_field_vput _ _ _ _ _ H1). simpl.
    do 2 (rewrite set_field_vput_same by done; simpl).
    rewrite (set_field_vput _ i2 _ _ n2) by (by rewrite vec_at_vput_ne).
    simpl. do 2 (rewrite set_field_vput_same by (by rewrite vsize_vput); simpl).
    rewrite !detached_eq. fold d6.
    rewrite (value_at_slots e d d6 i1), Hv1 by done. simpl.
    rewrite (value_at_slots e d d6 i2), Hv2 by done. simpl.
    rewrite Hm. simpl. rewrite (set_field_vput _ _ _ _ _ Hw7). simpl.
    by rewrite Hr2.
  - rewrite length_vput. rewrite Hlen7. unfold d6. by rewrite !length_vput.
  - by apply vec_at_vput_eq.
  - by rewrite Hnw.
  - by rewrite Hnw.
  - by rewrite Hnw.
  - eapply rep_ext; [|exact Hrw]. intros j Hj.
    apply vec_at_vput_ne. by intros ->.
  - done.
  - done.
  - intros j Hj. rewrite vec_at_vput_ne by by apply Hjw.
    rewrite Hfr7 by done.
    apply H6o; intros ->; apply Hj; [left|right; left].
  - intros j. rewrite <- Hs6, <- Hs7.
    destruct (decide (j = w)) as [->|?].
    + rewrite vec_at_vput_eq, Hw7 by done. done.
    + by rewrite vec_at_vput_ne.
Qed.

Lemma wnodes_cons w v c ws :
  wnodes ((w, v, c) :: ws) = (w, v) :: nodes c ++ wnodes ws.
Proof. done. Qed.

Lemma pairing_pass_spec e p pv fuel : ∀ rest ws d pp l,
  (length (nodes rest) < fuel)%nat →
  vsize d ≤ max_size →
  chain d ws pp → rep d rest p l →
  NoDup ((wnodes ws).*1 ++ idxs rest) →
  (∀ i v, (i, v) ∈ nodes rest → value_at e d i = Some v) →
  Forall (λ '(w, v, c), ho G v c) ws → ho G pv rest →
  ∃ s d' nt ws',
    pairing_loop fuel e (mk_pairing d (root rest) pp pp) = Some s ∧
    pairing_odd s = Some (d', nt) ∧
    length d' = length d ∧ chain d' ws' nt ∧
    wnodes ws' ≡ₚ wnodes ws ++ nodes rest ∧
    Forall (λ '(w, v, c), ho G v c) ws' ∧
    (∀ j, j ∉ idxs rest → vec_at d' j = vec_at d j) ∧
    (∀ j, item_index <$> vec_at d' j = item_index <$> vec_at d j).
Proof.
  induction fuel as [|fuel IH]; intros rest ws d pp l Hfuel Hcap Hch Hrep Hnd
    Hval Hows Ho; [lia|].
  destruct rest as [|i1 v1 c1 [|i2 v2 c2 rest2]].
  - (* no child left *)
    exists (mk_pairing d NONE pp pp), d, pp, ws. simpl.
    unfold pairing_cond, pairing_odd. simpl.
    rewrite app_nil_r. repeat split; done.
  - (* one child left *)
    destruct Hrep as (n1 & H1 & Hp1 & Hl1 & Hc1 & Hr1 & Hrc1 & _).
    simpl in Hr1, Ho. destruct Ho as (_ & Ho1 & _).
    rewrite idxs_Br in Hnd. simpl in Hnd. rewrite app_nil_r in Hnd.
    pose proof (in_range_not_NONE _ _ _ Hcap H1) as Hn1.
    pose proof (vec_at_lt _ _ _ H1) as Hlt1.
    apply N.eqb_neq in Hn1.
    exists (mk_pairing d i1 pp pp),
      (vput d i1 (with_left_sibling pp
         (with_right_sibling NONE (with_parent NONE n1)))),
      i1, ((i1, v1, c1) :: ws).
    simpl. unfold pairing_cond, pairing_odd. simpl.
    rewrite Hn1, H1. simpl. rewrite Hr1. simpl.
    unfold set_parent, set_left_sibling, set_right_sibling.
    rewrite (set_field_vput _ _ _ _ _ H1). simpl.
    do 2 (rewrite set_field_vput_same by done; simpl).
    split; [done|]. split; [done|]. split; [apply length_vput|].
    split; [|split; [|split; [|split]]].
    + split; [done|]. eexists. rewrite vec_at_vput_eq by done.
      do 4 (split; [done|]). simpl. split.
      * eapply rep_ext; [|exact Hrc1]. intros j Hj.
        apply vec_at_vput_ne. intros ->.
        assert (i1 ∉ idxs c1) as Hni by apart Hnd [i1]. done.
      * eapply chain_ext; [|exact Hch]. intros j Hj.
        apply vec_at_vput_ne. intros ->.
        assert (i1 ∉ (wnodes ws).*1) as Hni by apart Hnd [i1]. done.
    + unfold wnodes. simpl. rewrite ?app_nil_r. solve_Permutation.
    + by constructor.
    + intros j Hj. apply vec_at_vput_ne. intros ->. apply Hj.
      apply list_elem_of_here.
    + intros j. destruct (decide (j = i1)) as [->|?].
      * by rewrite vec_at_vput_eq, H1.
      * by rewrite vec_at_vput_ne.
  - (* a pair *)
    assert (NoDup (idxs (Br i1 v1 c1 (Br i2 v2 c2 rest2)))) as Hndr
      by (apply NoDup_app in Hnd as (_ & _ & ?); done).
    destruct (pairing_body_spec e d i1 v1 c1 i2 v2 c2 rest2 p l pp pp)
      as (d' & w & wv & wc & nw & Hb & Hlen & Hw & Hpw & Hrw & Hlw & Hcw
          & Hrepw & How & Hperm & Hfr & Hsl); try done.
    { apply Hval. left. }
    { apply Hval. simpl. right. apply elem_of_app. right. left. }
    { simpl in Ho. tauto. }
    { simpl in Ho. tauto. }
    pose proof Hrep as (n1 & H1 & Hp1 & Hl1 & Hc1 & Hr1 & Hrc1 & Hrep2).
    pose proof Hrep2 as (n2 & H2 & Hp2 & Hl2 & Hc2 & Hr2 & Hrc2 & Hrest).
    simpl in Hr1.
    pose proof (in_range_not_NONE _ _ _ Hcap H1) as Hn1.
    pose proof (in_range_not_NONE _ _ _ Hcap H2) as Hn2.
    apply N.eqb_neq in Hn1. apply N.eqb_neq in Hn2.
    rewrite !idxs_Br in Hnd, Hndr.
    assert (NoDup ((w, wv) :: nodes wc).*1) as Hndw.
    { rewrite Hperm. simpl. rewrite fmap_app. simpl. nodup Hndr. }
    destruct (IH rest2 ((w, wv, wc) :: ws) d' w i2)
      as (s & d'' & nt & ws' & Hloop & Hodd & Hlen' & Hch' & Hperm' & Hows'
          & Hfr' & Hsl').
    + simpl in Hfuel. rewrite !length_app in Hfuel. simpl in Hfuel.
      rewrite length_app in Hfuel. lia.
    + unfold vsize in *. by rewrite Hlen.
    + split; [done|]. exists nw. do 4 (split; [done|]). split; [done|].
      rewrite Hlw. eapply chain_ext; [|exact Hch]. intros j Hj.
      apply Hfr. intros Hin.
      assert (j ∉ i1 :: i2 :: idxs c1 ++ idxs c2) as Hni
        by apart Hnd (wnodes ws).*1.
      done.
    + eapply rep_ext; [|exact Hrest]. intros j Hj. apply Hfr.
      intros Hin.
      assert (j ∉ i1 :: i2 :: idxs c1 ++ idxs c2) as Hni
        by apart Hndr (idxs rest2).
      done.
    + rewrite wnodes_cons, app_comm_cons, fmap_app, Hperm.
      simpl. rewrite fmap_app. simpl. nodup Hnd.
    + intros i v Hi. rewrite (value_at_slots e d d') by done.
      apply Hval. simpl. right. apply elem_of_app. right. right.
      apply elem_of_app. by right.
    + constructor; done.
    + simpl in Ho. tauto.
    + exists s, d'', nt, ws'. split.
      { simpl. unfold pairing_cond at 1. simpl. rewrite Hn1, H1. simpl.
        rewrite Hr1, Hn2. simpl. rewrite Hb. simpl. exact Hloop. }
      split; [done|]. split; [congruence|]. split; [done|].
      split; [|split; [done|split]].
      * rewrite Hperm', wnodes_cons, app_comm_cons, Hperm. simpl.
        solve_Permutation.
      * intros j Hj. rewrite idxs_Br in Hj. rewrite idxs_Br in Hj.
        rewrite Hfr'.
        -- apply Hfr. intros Hin. apply Hj.
           apply elem_of_cons in Hin as [->|Hin]; [left|].
           right. apply elem_of_app.
           apply elem_of_cons in Hin as [->|Hin]; [right; left|].
           apply elem_of_app in Hin as [Hin|Hin]; [by left|].
           right. right. apply elem_of_app. by left.
        -- intros Hin. apply Hj. right. apply elem_of_app. right. right.
           apply elem_of_app. by right.
      * intros j. by rewrite Hsl', Hsl.
Qed.

Lemma accum_body_spec e d w1 v1 c1 w2 v2 c2 ws :
  vsize d ≤ max_size →
  chain d ((w1, v1, c1) :: (w2, v2, c2) :: ws) w1 →
  NoDup (wnodes ((w1, v1, c1) :: (w2, v2, c2) :: ws)).*1 →
  value_at e d w1 = Some v1 → value_at e d w2 = Some v2 →
  ho G v1 c1 → ho G v2 c2 →
  ∃ d' w wv wc,
    accum_body e d w1 = Some (d', w) ∧
    length d' = length d ∧
    chain d' ((w, wv, wc) :: ws) w ∧ ho G wv wc ∧
    (w, wv) :: nodes wc ≡ₚ (w1, v1) :: nodes c1 ++ (w2, v2) :: nodes c2 ∧
    (∀ j, j ∉ w1 :: w2 :: idxs c1 ++ idxs c2 → vec_at d' j = vec_at d j) ∧
    (∀ j, item_index <$> vec_at d' j = item_index <$> vec_at d j).
Proof.
  intros Hcap Hch Hnd Hv1 Hv2 Ho1 Ho2.
  destruct Hch as (_ & n1 & H1 & Hp1 & Hr1 & Hc1 & Hrc1 & Hch).
  destruct Hch as (Hl1 & n2 & H2 & Hp2 & Hr2 & Hc2 & Hrc2 & Hch).
  rewrite !wnodes_cons in Hnd. simpl in Hnd. rewrite !fmap_app in Hnd.
  simpl in Hnd. rewrite fmap_app in Hnd.
  assert (NoDup (w2 :: w1 :: idxs c2 ++ idxs c1)) as Hnd' by nodup Hnd.
  assert (w1 ≠ w2) as Hne.
  { intros ->. apply NoDup_cons in Hnd' as [Hn _]. apply Hn. left. }
  assert (∀ j, j ∈ idxs c2 ++ idxs c1 → j ≠ w1 ∧ j ≠ w2) as Hcs.
  { intros j Hj. split; intros ->.
    - apply NoDup_cons in Hnd' as [_ Hn]. by apply NoDup_cons in Hn as [Hn _].
    - apply NoDup_cons in Hnd' as [Hn _]. apply Hn. by right. }
  pose proof (vec_at_lt _ _ _ H1) as Hlt1.
  pose proof (vec_at_lt _ _ _ H2) as Hlt2.
  set (d2 := vput (vput d w1 (with_left_sibling NONE n1)) w2
               (with_left_sibling NONE n2)).
  assert (vsize d2 = vsize d) as Hsz2 by (unfold d2; by rewrite !vsize_vput).
  assert (vec_at d2 w1 = Some (with_left_sibling NONE n1)) as H21.
  { unfold d2. rewrite vec_at_vput_ne by done. by apply vec_at_vput_eq. }
  assert (vec_at d2 w2 = Some (with_left_sibling NONE n2)) as H22.
  { unfold d2. apply vec_at_vput_eq. by rewrite vsize_vput. }
  assert (∀ j, j ≠ w1 → j ≠ w2 → vec_at d2 j = vec_at d j) as H2o.
  { intros j ? ?. unfold d2. by rewrite !vec_at_vput_ne. }
  assert (∀ j, item_index <$> vec_at d2 j = item_index <$> vec_at d j) as Hs2.
  { intros j. destruct (decide (j = w1)) as [->|?]; [by rewrite H21, H1|].
    destruct (decide (j = w2)) as [->|?]; [by rewrite H22, H2|].
    by rewrite H2o. }
  destruct (meld_roots d2 w2 w1 v2 v1 c2 c1 (with_left_sibling NONE n2)
              (with_left_sibling NONE n1))
    as (d3 & w & wv & wc & nw & n0 & Hm & Hlen3 & Hw3 & Hw2 & Hnw & Hw & Hrw
        & How & Hperm & Hfr3 & Hs3); try done.
  { by rewrite Hsz2. }
  { eapply rep_ext; [|exact Hrc2]. intros j Hj.
    apply H2o; apply Hcs, elem_of_app; by left. }
  { eapply rep_ext; [|exact Hrc1]. intros j Hj.
    apply H2o; apply Hcs, elem_of_app; by right. }
  assert (parent n0 = NONE ∧ right_sibling n0 = NONE) as [Hp0 Hr0].
  { destruct Hw as [->| ->]; [rewrite H22 in Hw2|rewrite H21 in Hw2];
      by injection Hw2 as <-. }
  pose proof (vec_at_lt _ _ _ Hw3) as Hltw.
  assert (NoDup ((w, wv) :: nodes wc).*1) as Hndw.
  { rewrite Hperm. simpl. rewrite fmap_app. simpl. nodup Hnd'. }
  simpl in Hndw. apply NoDup_cons in Hndw as [Hwc _].
  assert (∀ j, j ∉ w1 :: w2 :: idxs c1 ++ idxs c2 → j ≠ w) as Hjw.
  { intros j Hj ->. apply Hj. destruct Hw as [->| ->].
    - right. left.
    - left. }
  exists (vput d3 w (with_left_sibling (left_sibling n2) nw)), w, wv, wc.
  split; [|split; [|split; [|split; [|split; [|split]]]]].
  - unfold accum_body. rewrite H1. simpl. rewrite Hl1, H2. simpl.
    unfold set_left_sibling.
    rewrite (set_field_vput _ _ _ _ _ H1). simpl.
    rewrite (set_field_vput _ w2 _ _ n2) by (by rewrite vec_at_vput_ne).
    simpl. fold d2.
    rewrite (value_at_slots e d d2 w2), Hv2 by done. simpl.
    rewrite (value_at_slots e d d2 w1), Hv1 by done. simpl.
    rewrite Hm. simpl. by rewrite (set_field_vput _ _ _ _ _ Hw3).
  - rewrite length_vput, Hlen3. unfold d2. by rewrite !length_vput.
  - split; [done|]. eexists. rewrite vec_at_vput_eq by done.
    split; [done|]. rewrite Hnw. simpl. do 3 (split; [done|]). split.
    + eapply rep_ext; [|exact Hrw]. intros j Hj.
      apply vec_at_vput_ne. by intros ->.
    + eapply chain_ext; [|exact Hch]. intros j Hj.
      assert (j ∉ w1 :: w2 :: idxs c1 ++ idxs c2) as Hni
        by apart Hnd (wnodes ws).*1.
      rewrite vec_at_vput_ne by by apply Hjw.
      rewrite Hfr3.
      * apply H2o; intros ->; apply Hni; [left|right; left].
      * intros Hin. apply Hni.
        eapply elem_of_Permutation_proper; [|exact Hin]. solve_Permutation.
  - done.
  - rewrite Hperm. solve_Permutation.
  - intros j Hj. rewrite vec_at_vput_ne by by apply Hjw.
    rewrite Hfr3.
    + apply H2o; intros ->; apply Hj; [left|right; left].
    + intros Hin. apply Hj.
      eapply elem_of_Permutation_proper; [|exact Hin]. solve_Permutation.
  - intros j. rewrite <- Hs2, <- Hs3.
    destruct (decide (j = w)) as [->|?].
    + rewrite vec_at_vput_eq, Hw3 by done. done.
    + by rewrite vec_at_vput_ne.
Qed.

Lemma accum_loop_spec e fuel : ∀ ws d nt,
  (length ws < fuel)%nat →
  vsize d ≤ max_size →
  chain d ws nt →
  NoDup (wnodes ws).*1 →
  (∀ i v, (i, v) ∈ wnodes ws → value_at e d i = Some v) →
  Forall (λ '(w, v, c), ho G v c) ws →
  ∃ d' t',
    accum_loop fuel e d nt = Some (d', root t') ∧
    length d' = length d ∧ sib t' = Lf ∧ rep d' t' NONE NONE ∧
    nodes t' ≡ₚ wnodes ws ∧ hot G t' ∧
    (∀ j, j ∉ (wnodes ws).*1 → vec_at d' j = vec_at d j) ∧
    (∀ j, item_index <$> vec_at d' j = item_index <$> vec_at d j).
Proof.
  induction fuel as [|fuel IH]; intros ws d nt Hfuel Hcap Hch Hnd Hval Hows;
    [lia|].
  destruct ws as [|[[w1 v1] c1] [|[[w2 v2] c2] ws]].
  - (* no root *)
    simpl in Hch. subst nt. exists d, Lf. simpl.
    unfold accum_cond. simpl. repeat split; done.
  - (* a single root *)
    destruct Hch as (-> & n1 & H1 & Hp1 & Hr1 & Hc1 & Hrc1 & Hl1).
    simpl in Hl1.
    pose proof (in_range_not_NONE _ _ _ Hcap H1) as Hn1.
    apply N.eqb_neq in Hn1.
    apply Forall_cons in Hows as [Ho1 _].
    exists d, (Br w1 v1 c1 Lf). simpl. unfold accum_cond.
    rewrite Hn1, H1. simpl. rewrite Hl1. simpl.
    do 3 (split; [done|]). split; [|split; [|split; [done|split; done]]].
    + exists n1. repeat split; done.
    + unfold wnodes. simpl. rewrite ?app_nil_r. solve_Permutation.
  - (* two roots or more *)
    pose proof Hch as (-> & n1 & H1 & Hp1 & Hr1 & Hc1 & Hrc1 & Hch2).
    pose proof Hch2 as (Hl1 & n2 & H2 & Hp2 & Hr2 & Hc2 & Hrc2 & Hch3).
    pose proof (in_range_not_NONE _ _ _ Hcap H1) as Hn1.
    pose proof (in_range_not_NONE _ _ _ Hcap H2) as Hn2.
    apply N.eqb_neq in Hn1. apply N.eqb_neq in Hn2.
    apply Forall_cons in Hows as [Ho1 Hows].
    apply Forall_cons in Hows as [Ho2 Hows].
    destruct (accum_body_spec e d w1 v1 c1 w2 v2 c2 ws)
      as (d' & w & wv & wc & Hb & Hlen & Hch' & How & Hperm & Hfr & Hsl);
      try done.
    { apply Hval. rewrite wnodes_cons. left. }
    { apply Hval. rewrite !wnodes_cons. right. apply elem_of_app. right.
      left. }
    assert (wnodes ((w, wv, wc) :: ws)
            ≡ₚ wnodes ((w1, v1, c1) :: (w2, v2, c2) :: ws)) as Hperm2.
    { rewrite !wnodes_cons, app_comm_cons, Hperm. solve_Permutation. }
    destruct (IH ((w, wv, wc) :: ws) d' w)
      as (d'' & t' & Hloop & Hlen' & Hsib & Hrep & Hperm' & Hot & Hfr' & Hsl').
    + simpl in *. lia.
    + unfold vsize in *. by rewrite Hlen.
    + done.
    + by rewrite Hperm2.
    + intros i v Hi. rewrite (value_at_slots e d d') by done.
      apply Hval. by rewrite <- Hperm2.
    + by constructor.
    + exists d'', t'. split.
      { simpl. unfold accum_cond at 1. rewrite Hn1, H1. simpl.
        rewrite Hl1, Hn2. simpl. rewrite Hb. simpl. exact Hloop. }
      split; [congruence|]. split; [done|]. split; [done|].
      split; [by rewrite Hperm', Hperm2|]. split; [done|]. split.
      * intros j Hj. rewrite Hfr' by by rewrite Hperm2.
        apply Hfr. intros Hin. apply Hj. rewrite !wnodes_cons.
        simpl. rewrite !fmap_app. simpl. rewrite fmap_app.
        eapply elem_of_submseteq; [exact Hin|]. solve_submseteq.
      * intros j. by rewrite Hsl', Hsl.
Qed.

Lemma length_wnodes ws : (length ws ≤ length (wnodes ws))%nat.
Proof.
  induction ws as [|[[w v] c] ws IH]; [done|].
  rewrite wnodes_cons. simpl. rewrite length_app. lia.
Qed.

Lemma pop_children_spec e d top vt c nt0 :
  vsize d ≤ max_size →
  vec_at d top = Some nt0 → child nt0 = root c → rep d c top NONE →
  NoDup (idxs c) →
  (∀ i v, (i, v) ∈ nodes c → value_at e d i = Some v) →
  ho G vt c →
  ∃ d' t',
    pop_children e d top = Some (d', root t') ∧
    length d' = length d ∧ sib t' = Lf ∧ rep d' t' NONE NONE ∧
    nodes t' ≡ₚ nodes c ∧ hot G t' ∧
    (∀ j, j ∉ idxs c → vec_at d' j = vec_at d j) ∧
    (∀ j, item_index <$> vec_at d' j = item_index <$> vec_at d j).
Proof.
  intros Hcap Ht Hc Hrep Hnd Hval Ho.
  assert (length (nodes c) ≤ length d)%nat as Hlen.
  { rewrite <- (length_fmap fst). apply NoDup_lt_length; [done|].
    intros i Hi. by eapply rep_lt. }
  destruct (pairing_pass_spec e top vt (S (length d)) c [] d NONE NONE)
    as (s & d1 & nt & ws & Hloop & Hodd & Hlen1 & Hch & Hperm & Hows & Hfr
        & Hsl); try done.
  { lia. }
  simpl in Hperm.
  destruct (accum_loop_spec e (S (length d)) ws d1 nt)
    as (d2 & t' & Hacc & Hlen2 & Hsib & Hrep' & Hperm' & Hot & Hfr' & Hsl');
    try done.
  { pose proof (length_wnodes ws) as Hw. rewrite Hperm in Hw. lia. }
  { unfold vsize in *. by rewrite Hlen1. }
  { by rewrite Hperm. }
  { intros i v Hi. rewrite (value_at_slots e d d1) by done.
    apply Hval. by rewrite <- Hperm. }
  exists d2, t'. split.
  { unfold pop_children. rewrite Ht, obind_Some. cbv beta zeta.
    rewrite Hc, Hloop, obind_Some, Hodd, obind_Some. exact Hacc. }
  split; [congruence|]. split; [done|]. split; [done|].
  split; [by rewrite Hperm', Hperm|]. split; [done|]. split.
  - intros j Hj. rewrite Hfr' by by rewrite Hperm. by apply Hfr.
  - intros j. by rewrite Hsl', Hsl.
Qed.

End Melding.

(** ** The value array *)

Lemma vec_at_removelast {A} (v : list A) i :
  i + 1 < vsize v → vec_at (removelast v) i = vec_at v i.
Proof.
  intros Hi. destruct (decide (v = [])) as [->|Hne]; [done|].
  destruct (exists_last Hne) as (w & a & ->).
  rewrite removelast_last. rewrite vsize_app in Hi.
  rewrite vec_at_app_l; [done|lia].
Qed.

Lemma vsize_removelast {A} (v : list A) :
  v ≠ [] → vsize (removelast v) + 1 = vsize v.
Proof.
  intros Hne. apply length_removelast in Hne. unfold vsize. lia.
Qed.

Lemma size_minus_1_pred n :
  0 < n → n ≤ max_size → size_minus_1 n + 1 = n.
Proof.
  intros H0 Hn. replace n with ((n - 1) + 1) at 1 by lia.
  rewrite size_minus_1_succ; [lia|].
  pose proof max_size_lt_NONE. unfold NONE in *. lia.
Qed.

Lemma rep_links_ext d d' t p l :
  (∀ i nd, i ∈ idxs t → vec_at d i = Some nd →
     ∃ nd', vec_at d' i = Some nd' ∧ same_links nd nd') →
  rep d t p l → rep d' t p l.
Proof.
  revert p l. induction t as [|i v c IHc s IHs]; intros p l Hext; [done|].
  rewrite idxs_Br in Hext. simpl.
  intros (nd & Hi & Hp & Hl & Hc & Hr & Hrc & Hrs).
  destruct (Hext i nd) as (nd' & Hi' & Hp' & Hc' & Hl' & Hr'); [left|done|].
  exists nd'. split; [done|]. do 4 (split; [congruence|]). split.
  - apply IHc; [|done]. intros j nj Hj. apply Hext. right.
    apply elem_of_app. by left.
  - apply IHs; [|done]. intros j nj Hj. apply Hext. right.
    apply elem_of_app. by right.
Qed.



(** ** The invariant *)

Lemma dead_eq nd :
  with_item_index NONE (with_left_sibling NONE (with_right_sibling NONE
    (with_child NONE (with_parent NONE nd)))) = dead_node.
Proof. reflexivity. Qed.

Lemma idxs_elem_of (l : list (N * T)) i : i ∈ l.*1 ↔ ∃ v, (i, v) ∈ l.
Proof.
  rewrite list_elem_of_fmap. split.
  - intros ([j v] & -> & Hin). eauto.
  - intros (v & Hin). by exists (i, v).
Qed.

Section Invariant.
Variable G : Prop.
Hypothesis asym : G → asymmetric.

Lemma Inv_node h t i :
  Inv G h t → i ∈ idxs t →
  ∃ nd v, vec_at (data_ h) i = Some nd ∧ (i, v) ∈ nodes t ∧
          vec_at (elements_ h) (item_index nd) = Some v ∧
          map_ h !! key v = Some i.
Proof.
  intros HI (v & Hin)%idxs_elem_of.
  destruct (inv_vals _ _ _ HI i v Hin) as [(nd & Hnd & Hv)%value_at_Some Hm].
  eauto 10.
Qed.

Lemma Inv_nodes_functional h t i v v' :
  Inv G h t → (i, v) ∈ nodes t → (i, v') ∈ nodes t → v = v'.
Proof.
  intros HI H1 H2.
  destruct (inv_vals _ _ _ HI i v H1) as [Hv _].
  destruct (inv_vals _ _ _ HI i v' H2) as [Hv' _]. congruence.
Qed.

Lemma Inv_keys h t i j v v' :
  Inv G h t → (i, v) ∈ nodes t → (j, v') ∈ nodes t → key v = key v' → i = j.
Proof.
  intros HI H1 H2 Hk.
  destruct (inv_vals _ _ _ HI i v H1) as [_ Hm].
  destruct (inv_vals _ _ _ HI j v' H2) as [_ Hm']. congruence.
Qed.

(** The stored values are the values of the tree. *)
Lemma Inv_elements h t v :
  Inv G h t → v ∈ elements_ h ↔ v ∈ (nodes t).*2.
Proof.
  intros HI. split.
  - intros [s Hs]%elem_of_vec_at.
    destruct (inv_surj _ _ _ HI s) as (i & ni & Hi & Hni & Hsl);
      [by eapply vec_at_lt|].
    destruct (Inv_node h t i HI Hi) as (nd & v' & Hnd & Hin & Hv' & _).
    assert (nd = ni) as -> by congruence. rewrite Hsl, Hs in Hv'.
    injection Hv' as ->. apply list_elem_of_fmap. by exists (i, v').
  - intros ([i v'] & -> & Hin)%list_elem_of_fmap. simpl.
    destruct (inv_vals _ _ _ HI i v' Hin) as [(nd & _ & Hv)%value_at_Some _].
    by eapply vec_at_elem_of.
Qed.

(** The locator table may be any table that files the live items. *)
Lemma Inv_map h t m :
  Inv G h t → (∀ i v, (i, v) ∈ nodes t → m !! key v = Some i) →
  Inv G (mk_heap (elements_ h) (data_ h) m (top_ h)) t.
Proof.
  intros [] Hm. split; simpl; try done.
  intros i v Hin. split; [by apply inv_vals0|by apply Hm].
Qed.

Lemma Inv_root h top vt c s :
  Inv G h (Br top vt c s) →
  s = Lf ∧ top_ h = top ∧ NoDup (idxs c) ∧ (top ∉ idxs c) ∧
  ∃ nt, vec_at (data_ h) top = Some nt ∧ child nt = root c ∧
        parent nt = NONE ∧ left_sibling nt = NONE ∧
        right_sibling nt = NONE ∧
        rep (data_ h) c top NONE ∧
        vec_at (elements_ h) (item_index nt) = Some vt.
Proof.
  intros HI. pose proof (inv_sib _ _ _ HI) as Hs. simpl in Hs. subst s.
  split; [done|]. split; [apply (inv_top _ _ _ HI)|].
  pose proof (inv_nodup _ _ _ HI) as Hnd. rewrite idxs_Br in Hnd.
  simpl in Hnd. rewrite app_nil_r in Hnd.
  apply NoDup_cons in Hnd as [Htc Hndc]. do 2 (split; [done|]).
  destruct (inv_rep _ _ _ HI) as (nt & Ht & Hp & Hl & Hc & Hr & Hrc & _).
  exists nt. do 6 (split; [done|]).
  destruct (inv_vals _ _ _ HI top vt) as [(n & Hn & Hv)%value_at_Some _];
    [left|]. congruence.
Qed.

Lemma pop_compact_spec h top vt c d1 t1 :
  Inv G h (Br top vt c Lf) →
  length d1 = length (data_ h) → sib t1 = Lf → rep d1 t1 NONE NONE →
  nodes t1 ≡ₚ nodes c → hot G t1 →
  (∀ j, j ∉ idxs c → vec_at d1 j = vec_at (data_ h) j) →
  (∀ j, item_index <$> vec_at d1 j = item_index <$> vec_at (data_ h) j) →
  ∃ h', pop_compact h d1 (root t1) = Some h' ∧ Inv G h' t1 ∧
        map_ h' = map_ h.
Proof.
  intros HI Hlen1 Hsib1 Hrep1 Hperm Hot Hfr Hsl.
  destruct (Inv_root _ _ _ _ _ HI)
    as (_ & Htop & Hndc & Htc & nt0 & Ht0 & Hc0 & _ & _ & _ & Hrc & Hvt).
  pose proof (inv_cap _ _ _ HI) as Hcap.
  pose proof (inv_size _ _ _ HI) as Hsize.
  set (e := elements_ h) in *. set (d := data_ h) in *.
  set (stop := item_index nt0) in *.
  pose proof (vec_at_lt _ _ _ Hvt) as Hst.
  pose proof (vec_at_lt _ _ _ Ht0) as Hlt0.
  assert (size_minus_1 (vsize e) + 1 = vsize e) as HL
    by (apply size_minus_1_pred; lia).
  set (L := size_minus_1 (vsize e)) in *.
  destruct (vec_at_is_Some e L) as [last Hlast]; [lia|].
  destruct (inv_surj _ _ _ HI L) as (iL & nL & HiL & HnL & HsL);
    [fold e; lia|].
  fold d in HnL.
  destruct (Inv_node h _ iL HI HiL) as (nd & vL & Hnd & HinL & HvL & HmL).
  fold d in Hnd. fold e in HvL.
  assert (nd = nL) as -> by congruence.
  assert (vL = last) as -> by congruence.
  assert (vec_at d1 top = Some nt0) as Ht1 by (by rewrite Hfr).
  assert (∃ nL1, vec_at d1 iL = Some nL1 ∧ item_index nL1 = L)
    as (nL1 & HnL1 & HsL1).
  { pose proof (Hsl iL) as Hs. rewrite HnL in Hs.
    destruct (vec_at d1 iL) as [n|]; [|done]. injection Hs as Hs.
    exists n. split; [done|congruence]. }
  assert (vsize d1 = vsize d) as Hsz1 by (unfold vsize; by rewrite Hlen1).
  set (d2 := vput d1 iL (with_item_index stop nL1)).
  set (d3 := vput d2 top dead_node).
  set (e1 := vput e stop last).
  assert (vsize d2 = vsize d) as Hsz2 by (unfold d2; by rewrite vsize_vput).
  assert (vsize e1 = vsize e) as Hse1 by apply vsize_vput.
  assert (e1 ≠ []) as Hne1.
  { intros He. rewrite He in Hse1. unfold vsize in Hse1 at 1.
    simpl in Hse1. lia. }
  pose proof (vsize_removelast e1 Hne1) as Hse2.
  (* the nodes of the new tree *)
  assert (∀ j, j ∈ idxs t1 → j ∈ idxs c ∧ j ≠ top) as Hin1.
  { intros j Hj. rewrite Hperm in Hj. split; [done|by intros ->]. }
  assert (∀ j, j ≠ top → vec_at d3 j =
            if decide (j = iL) then Some (with_item_index stop nL1)
            else vec_at d1 j) as Hd3.
  { intros j Hj. unfold d3, d2. rewrite vec_at_vput_ne by done.
    rewrite vec_at_vput. case_decide; [|done].
    rewrite decide_True; [done|]. rewrite Hsz1. by eapply vec_at_lt. }
  assert (∀ j v, (j, v) ∈ nodes t1 →
            ∃ nj n1j, vec_at d j = Some nj ∧ vec_at d1 j = Some n1j ∧
              item_index n1j = item_index nj ∧
              vec_at e (item_index nj) = Some v ∧ j ≠ top ∧
              (j, v) ∈ nodes (Br top vt c Lf) ∧ map_ h !! key v = Some j)
    as Hnode.
  { intros j v Hj. rewrite Hperm in Hj.
    assert ((j, v) ∈ nodes (Br top vt c Lf)) as Hj'.
    { simpl. right. apply elem_of_app. by left. }
    destruct (inv_vals _ _ _ HI j v Hj')
      as [(nj & Hnj & Hv)%value_at_Some Hm].
    pose proof (Hsl j) as Hs. fold d in Hnj. rewrite Hnj in Hs.
    destruct (vec_at d1 j) as [n1j|]; [|done]. injection Hs as Hs.
    exists nj, n1j. do 4 (split; [done|]). split; [|done].
    intros ->. apply Htc. apply idxs_elem_of. eauto. }
  exists (mk_heap (removelast e1) d3 (map_ h) (root t1)).
  split; [|split; [|done]].
  - unfold pop_compact. fold e. cbv zeta. fold L. rewrite Hlast, obind_Some.
    rewrite (id_read_Some _ _ _ HmL). rewrite Htop, Ht1, obind_Some.
    fold stop. rewrite (vec_set_vput e stop last) by done.
    rewrite obind_Some. fold e1.
    unfold set_item_index, set_parent, set_child, set_right_sibling,
      set_left_sibling.
    rewrite (set_field_vput _ _ _ _ _ HnL1), obind_Some. fold d2.
    destruct (vec_at_is_Some d2 top) as [x Hx]; [lia|].
    rewrite (set_field_vput _ _ _ _ _ Hx), obind_Some.
    do 4 (rewrite set_field_vput_same, obind_Some by lia).
    rewrite dead_eq. fold d3.
    destruct e1; [done|]. reflexivity.
  - split; simpl.
    + unfold d3, d2. rewrite !vsize_vput. by rewrite Hsz1.
    + unfold d3, d2. rewrite !vsize_vput, Hsz1. fold e d in Hsize. lia.
    + done.
    + done.
    + eapply rep_links_ext; [|exact Hrep1]. intros j nj Hj Hnj.
      destruct (Hin1 j Hj) as [_ Hjt]. rewrite Hd3 by done.
      case_decide as Hji.
      * subst j. assert (nj = nL1) as -> by congruence.
        eexists. split; [done|]. by repeat split.
      * exists nj. split; [done|]. by repeat split.
    + rewrite Hperm. done.
    + intros j v Hj.
      destruct (Hnode j v Hj)
        as (nj & n1j & Hnj & Hn1j & Hs & Hv & Hjt & Hjin & Hm).
      split; [|done]. apply value_at_Some. rewrite Hd3 by done.
      case_decide as Hji.
      * subst j. eexists. split; [done|]. simpl.
        assert (nj = nL) as -> by congruence.
        assert (v = last) as -> by congruence.
        assert (stop ≠ L) as Hne.
        { intros Heq. apply Hjt.
          eapply (inv_inj _ _ _ HI); [done| |done|done|].
          - rewrite idxs_Br. left.
          - fold stop. congruence. }
        rewrite vec_at_removelast by lia.
        unfold e1. by rewrite vec_at_vput_eq.
      * exists n1j. split; [done|]. rewrite Hs.
        assert (item_index nj ≠ L) as Hne1'.
        { intros Heq. apply Hji.
          eapply (inv_inj _ _ _ HI); [|done|done|done|congruence].
          apply idxs_elem_of. eauto. }
        assert (item_index nj ≠ stop) as Hne2.
        { intros Heq. apply Hjt.
          eapply (inv_inj _ _ _ HI); [| |done|done|done].
          - apply idxs_elem_of. eauto.
          - rewrite idxs_Br. left. }
        pose proof (vec_at_lt _ _ _ Hv).
        rewrite vec_at_removelast by lia.
        unfold e1. by rewrite vec_at_vput_ne.
    + intros i j ni nj Hi Hj Hni Hnj Heq.
      apply idxs_elem_of in Hi as [vi Hi]. apply idxs_elem_of in Hj as [vj Hj].
      destruct (Hnode i vi Hi)
        as (mi & m1i & Hmi & Hm1i & Hsi & Hvi & Hit & Hiin & _).
      destruct (Hnode j vj Hj)
        as (mj & m1j & Hmj & Hm1j & Hsj & Hvj & Hjt & Hjin & _).
      rewrite Hd3 in Hni, Hnj by done.
      assert (∀ k mk vk, (k, vk) ∈ nodes (Br top vt c Lf) →
                vec_at d k = Some mk → item_index mk = stop → k = top)
        as Hstop.
      { intros k mk vk Hk Hmk Hsk.
        eapply (inv_inj _ _ _ HI); [| |done|done|done].
        - apply idxs_elem_of. eauto.
        - rewrite idxs_Br. left. }
      destruct (decide (i = iL)) as [->|Hi'];
        destruct (decide (j = iL)) as [->|Hj']; [done|..].
      * injection Hni as <-. simpl in Heq.
        assert (nj = m1j) as -> by congruence.
        exfalso. apply Hjt. eapply Hstop; [done..|congruence].
      * injection Hnj as <-. simpl in Heq.
        assert (ni = m1i) as -> by congruence.
        exfalso. apply Hit. eapply Hstop; [done..|congruence].
      * assert (ni = m1i) as -> by congruence.
        assert (nj = m1j) as -> by congruence.
        eapply (inv_inj _ _ _ HI); [| |done|done|congruence];
          apply idxs_elem_of; eauto.
    + intros s Hs.
      destruct (inv_surj _ _ _ HI s) as (i & ni & Hi & Hni & Hsi);
        [fold e; lia|]. fold d in Hni.
      assert (i ≠ iL) as HiL'.
      { intros ->. assert (ni = nL) as -> by congruence. lia. }
      destruct (decide (i = top)) as [->|Hit].
      * assert (ni = nt0) as -> by congruence.
        assert (iL ≠ top) as HLt by done.
        assert (iL ∈ idxs t1) as HLin.
        { rewrite Hperm. rewrite idxs_Br in HiL.
          apply elem_of_cons in HiL as [?|HiL]; [done|].
          by rewrite app_nil_r in HiL. }
        exists iL. eexists. split; [done|].
        rewrite Hd3 by done. rewrite decide_True by done. done.
      * assert (i ∈ idxs t1) as Hiin.
        { rewrite Hperm. rewrite idxs_Br in Hi.
          apply elem_of_cons in Hi as [?|Hi]; [done|].
          by rewrite app_nil_r in Hi. }
        apply idxs_elem_of in Hiin as Hiv. destruct Hiv as [vi Hiv].
        destruct (Hnode i vi Hiv)
          as (mi & m1i & Hmi & Hm1i & Hsi' & _).
        exists i, m1i. split; [done|].
        rewrite Hd3 by done. rewrite decide_False by done.
        split; [done|]. congruence.
    + intros i ni Hni Hi.
      destruct (decide (i = top)) as [->|Hit].
      * unfold d3 in Hni. rewrite vec_at_vput_eq in Hni by lia.
        by injection Hni as <-.
      * assert (i ∉ idxs c) as Hic by (by rewrite <- Hperm).
        assert (i ≠ iL) as HiL'.
        { intros ->. rewrite idxs_Br in HiL.
          apply elem_of_cons in HiL as [?|HiL]; [done|].
          by rewrite app_nil_r in HiL. }
        rewrite Hd3 in Hni by done. rewrite decide_False in Hni by done.
        rewrite Hfr in Hni by done.
        eapply (inv_dead _ _ _ HI); [done|].
        rewrite idxs_Br. intros Hin.
        apply elem_of_cons in Hin as [?|Hin]; [done|].
        by rewrite app_nil_r in Hin.
    + done.
Qed.

Lemma pop_Inv h rt vt c :
  Inv G h (Br rt vt c Lf) →
  ∃ h' t', pop h = Some h' ∧ top h = Some vt ∧ Inv G h' t' ∧
           nodes t' ≡ₚ nodes c ∧ map_ h' = map_ h.
Proof.
  intros HI.
  destruct (Inv_root _ _ _ _ _ HI)
    as (_ & Htop & Hndc & Htc & nt0 & Ht0 & Hc0 & _ & _ & _ & Hrc & Hvt).
  pose proof (inv_cap _ _ _ HI) as Hcap.
  destruct (pop_children_spec G asym (elements_ h) (data_ h) rt vt c nt0)
    as (d1 & t1 & Hpc & Hlen & Hsib & Hrep & Hperm & Hot & Hfr & Hsl);
    try done.
  { intros i v Hi. apply (inv_vals _ _ _ HI). simpl. right.
    apply elem_of_app. by left. }
  { apply (inv_ho _ _ _ HI). }
  destruct (pop_compact_spec h rt vt c d1 t1) as (h' & Hc & HI' & Hm);
    try done.
  exists h', t1. split; [|split; [|done]].
  - unfold pop. rewrite Htop.
    pose proof (in_range_not_NONE _ _ _ Hcap Ht0) as Hn.
    apply N.eqb_neq in Hn. by rewrite Hn, Hpc, obind_Some.
  - unfold top. rewrite Htop. apply value_at_Some. eauto.
Qed.

Lemma pop_of_Inv pol h rt vt c :
  Inv G h (Br rt vt c Lf) →
  ∃ h' t', pop_of pol h = Some h' ∧ top h = Some vt ∧ Inv G h' t' ∧
           nodes t' ≡ₚ nodes c.
Proof.
  intros HI.
  destruct (pop_Inv h rt vt c HI) as (h' & t' & Hp & Ht & HI' & Hperm & Hm).
  destruct pol.
  - exists h', t'. done.
  - exists (mk_heap (elements_ h') (data_ h')
              (delete (key vt) (map_ h')) (top_ h')), t'.
    split; [|split; [done|split; [|done]]].
    + simpl. unfold pop_internal. by rewrite Ht, obind_Some, Hp.
    + apply Inv_map; [done|]. intros i v Hi.
      destruct (inv_vals _ _ _ HI' i v Hi) as [_ Hmi].
      rewrite lookup_delete_ne; [done|]. intros Hk.
      assert (rt = i) as <-.
      { eapply (Inv_keys h _ _ _ vt v HI); [left| |done].
        simpl. right. apply elem_of_app. left. by rewrite <- Hperm. }
      destruct (Inv_root _ _ _ _ _ HI) as (_ & _ & _ & Htc & _).
      apply Htc. rewrite <- Hperm. apply idxs_elem_of. eauto.
Qed.

Lemma Inv_Lf h : Inv G h Lf → top_ h = NONE ∧ elements_ h = [].
Proof.
  intros HI. split; [apply (inv_top _ _ _ HI)|].
  destruct (elements_ h) as [|x e] eqn:He; [done|].
  destruct (inv_surj _ _ _ HI 0) as (i & _ & Hi & _).
  - rewrite He. unfold vsize. simpl. lia.
  - by apply elem_of_nil in Hi.
Qed.

Lemma Inv_empty : Inv G empty_heap Lf.
Proof.
  split; simpl; try done.
  - constructor.
  - intros i v Hi. by apply elem_of_nil in Hi.
  - intros i j ni nj Hi. by apply elem_of_nil in Hi.
  - intros s Hs. unfold vsize in Hs. simpl in Hs. lia.
  - intros i nd Hi%vec_at_lt. unfold vsize in Hi. simpl in Hi. lia.
Qed.

Lemma Inv_tree_cases h t :
  Inv G h t → t = Lf ∨ ∃ vt c, t = Br (top_ h) vt c Lf.
Proof.
  intros HI. destruct t as [|i v c s]; [by left|right].
  destruct (Inv_root _ _ _ _ _ HI) as (-> & <- & _). eauto.
Qed.

(** *** [push] *)

Lemma push_Inv_build h t x d2 t2 :
  let obj := mk_node (vsize (elements_ h)) NONE NONE NONE NONE in
  let n := vsize (data_ h) in
  Inv G h t →
  (∀ i v, (i, v) ∈ nodes t → key v ≠ key x) →
  vsize (data_ h) < max_size →
  length d2 = length (data_ h ++ [obj]) →
  (∀ j, item_index <$> vec_at d2 j
        = item_index <$> vec_at (data_ h ++ [obj]) j) →
  (∀ j, j ∉ idxs t2 → vec_at d2 j = vec_at (data_ h ++ [obj]) j) →
  rep d2 t2 NONE NONE → sib t2 = Lf → hot G t2 →
  nodes t2 ≡ₚ (n, x) :: nodes t →
  Inv G (mk_heap (elements_ h ++ [x]) d2 (<[key x := n]> (map_ h)) (root t2))
    t2.
Proof.
  intros obj n HI Hfresh Hcap Hlen Hsl Hfr Hrep Hsib Hot Hperm.
  pose proof (inv_size _ _ _ HI) as Hsize.
  set (e := elements_ h) in *. set (d := data_ h) in *.
  assert (vsize d2 = vsize d + 1) as Hsz2.
  { unfold vsize. rewrite Hlen, length_app. simpl. lia. }
  assert (∀ j, j ≠ n → j ∈ idxs t2 → j ∈ idxs t) as Hold.
  { intros j Hjn Hj. rewrite Hperm in Hj. simpl in Hj.
    by apply elem_of_cons in Hj as [?|?]. }
  assert (n ∉ idxs t) as Hnt.
  { intros Hn. eapply rep_lt in Hn; [|apply (inv_rep _ _ _ HI)].
    fold d in Hn. unfold n in Hn. lia. }
  (* the record of each node of the new tree *)
  assert (∀ j, j ∈ idxs t2 →
            ∃ nj, vec_at d2 j = Some nj ∧
              (j = n ∧ item_index nj = vsize e ∨
               j ≠ n ∧ j ∈ idxs t ∧ ∃ nj0, vec_at d j = Some nj0 ∧
                 item_index nj = item_index nj0)) as Hrec.
  { intros j Hj. pose proof (Hsl j) as Hs.
    destruct (decide (j = n)) as [->|Hjn].
    - assert (vec_at (d ++ [obj]) n = Some obj) as Hn by apply vec_at_app_r.
      rewrite Hn in Hs.
      destruct (vec_at d2 n) as [nj|]; [|done].
      injection Hs as Hs. exists nj. split; [done|]. by left.
    - pose proof (Hold j Hjn Hj) as Hjt.
      destruct (Inv_node h t j HI Hjt) as (nj0 & _ & Hnj0 & _).
      rewrite vec_at_app_l in Hs by (by eapply vec_at_lt).
      fold d in Hnj0. rewrite Hnj0 in Hs.
      destruct (vec_at d2 j) as [nj|]; [|done]. injection Hs as Hs.
      exists nj. split; [done|]. right. eauto 10. }
  split; simpl.
  - lia.
  - rewrite vsize_app. fold e d. lia.
  - done.
  - done.
  - done.
  - rewrite Hperm. simpl. apply NoDup_cons.
    split; [done|apply (inv_nodup _ _ _ HI)].
  - intros j v Hj. rewrite Hperm in Hj.
    assert (j ∈ idxs t2) as Hj2.
    { rewrite Hperm. apply idxs_elem_of. eauto. }
    destruct (Hrec j Hj2) as (nj & Hnj & Hcase).
    apply elem_of_cons in Hj as [[= -> ->]|Hj].
    + split; [|apply lookup_insert_eq].
      apply value_at_Some. exists nj. split; [done|].
      destruct Hcase as [[_ ->]|[? _]]; [|done]. apply vec_at_app_r.
    + destruct Hcase as [[-> _]|(Hjn & _ & nj0 & Hnj0 & Hs)].
      { exfalso. apply Hnt. apply idxs_elem_of. eauto. }
      destruct (inv_vals _ _ _ HI j v Hj)
        as [(nd & Hnd & Hv)%value_at_Some Hm].
      fold d in Hnd. assert (nd = nj0) as -> by congruence.
      split.
      * apply value_at_Some. exists nj. split; [done|]. rewrite Hs.
        rewrite vec_at_app_l; [done|by eapply vec_at_lt].
      * rewrite lookup_insert_ne; [done|]. intros Hk.
        by apply (Hfresh j v).
  - intros i j ni nj Hi Hj Hni Hnj Heq.
    destruct (Hrec i Hi) as (ni' & Hni' & Hci).
    destruct (Hrec j Hj) as (nj' & Hnj' & Hcj).
    assert (ni' = ni) as -> by congruence.
    assert (nj' = nj) as -> by congruence.
    assert (∀ k nk0, k ∈ idxs t → vec_at d k = Some nk0 →
              item_index nk0 < vsize e) as Hlt.
    { intros k nk0 Hk Hnk0.
      destruct (Inv_node h t k HI Hk) as (nk & vk & Hnk & _ & Hvk & _).
      fold d in Hnk. assert (nk = nk0) as -> by congruence.
      by eapply vec_at_lt. }
    destruct Hci as [[-> Hsi]|(Hin & Hit & ni0 & Hni0 & Hsi)];
      destruct Hcj as [[-> Hsj]|(Hjn & Hjt & nj0 & Hnj0 & Hsj)]; [done|..].
    + pose proof (Hlt j nj0 Hjt Hnj0). lia.
    + pose proof (Hlt i ni0 Hit Hni0). lia.
    + eapply (inv_inj _ _ _ HI); [done|done|done|done|congruence].
  - intros s Hs. rewrite vsize_app in Hs.
    destruct (decide (s = vsize e)) as [->|Hse].
    + assert (n ∈ idxs t2) as Hn2 by (rewrite Hperm; left).
      destruct (Hrec n Hn2) as (nn & Hnn & Hc).
      exists n, nn. do 2 (split; [done|]).
      by destruct Hc as [[_ ?]|[? _]].
    + destruct (inv_surj _ _ _ HI s) as (i & ni & Hi & Hni & Hsi);
        [fold e; lia|].
      assert (i ∈ idxs t2) as Hi2 by (rewrite Hperm; by right).
      destruct (Hrec i Hi2) as (ni2 & Hni2 & Hc).
      exists i, ni2. do 2 (split; [done|]).
      destruct Hc as [[-> _]|(_ & _ & ni0 & Hni0 & Hsi0)]; [done|].
      fold d in Hni. congruence.
  - intros i nd Hnd Hi. rewrite Hfr in Hnd by done.
    apply vec_at_app_Some in Hnd as [[Hlt Hnd]|[-> ->]]; [|done].
    eapply (inv_dead _ _ _ HI); [done|].
    intros Hit. apply Hi. rewrite Hperm. by right.
  - done.
Qed.

Lemma push_Inv h t x :
  Inv G h t →
  (∀ i v, (i, v) ∈ nodes t → key v ≠ key x) →
  vsize (data_ h) < max_size →
  ∃ h' t', push x h = Some h' ∧ Inv G h' t' ∧
           nodes t' ≡ₚ (vsize (data_ h), x) :: nodes t.
Proof.
  intros HI Hfresh Hcap.
  pose proof (inv_size _ _ _ HI) as Hsize.
  pose proof max_size_lt_NONE as Hmax. unfold NONE in Hmax.
  assert (size_minus_1 (vsize (elements_ h ++ [x])) = vsize (elements_ h))
    as Hse by (rewrite vsize_app; apply size_minus_1_succ; lia).
  assert (∀ o, size_minus_1 (vsize (data_ h ++ [o])) = vsize (data_ h))
    as Hsd by (intros o; rewrite vsize_app; apply size_minus_1_succ; lia).
  unfold push. cbv zeta. rewrite decide_False by lia.
  rewrite Hse, Hsd. unfold id_write.
  set (obj := mk_node (vsize (elements_ h)) NONE NONE NONE NONE).
  set (n := vsize (data_ h)).
  assert (vec_at (data_ h ++ [obj]) n = Some obj) as Hn by apply vec_at_app_r.
  destruct (Inv_tree_cases h t HI) as [->|(vt & c & ->)].
  - destruct (Inv_Lf h HI) as [Ht He]. rewrite Ht, N.eqb_refl.
    eexists. exists (Br n x Lf Lf). split; [done|]. split; [|done].
    apply (push_Inv_build h Lf x (data_ h ++ [obj]) (Br n x Lf Lf));
      try done.
    exists obj. by repeat split.
  - destruct (Inv_root _ _ _ _ _ HI)
      as (_ & Htop & Hndc & Htc & nt0 & Ht0 & Hc0 & Hp0 & Hl0 & Hr0 & Hrc
          & Hvt).
    pose proof (vec_at_lt _ _ _ Ht0) as Hlt0.
    assert (top_ h ≠ NONE) as Hne by (unfold NONE; lia).
    apply N.eqb_neq in Hne. rewrite Hne.
    assert (vec_at (data_ h ++ [obj]) (top_ h) = Some nt0) as Ht0'
      by (by rewrite vec_at_app_l).
    assert (n ≠ top_ h) as Hnt by (unfold n; lia).
    assert (n ∉ idxs c) as Hnc.
    { intros Hin. eapply rep_lt in Hin; [|exact Hrc]. unfold n in Hin. lia. }
    destruct (meld_roots G asym (data_ h ++ [obj]) n (top_ h) x vt Lf c
                obj nt0)
      as (d2 & w & wv & wc & nw & n0 & Hm & Hlen & Hw2 & Hw' & Hnw & Hw
          & Hrw & How & Hperm & Hfr & Hsl); try done.
    { rewrite vsize_app. lia. }
    { simpl. apply NoDup_cons. split.
      - intros Hin. apply elem_of_cons in Hin as [?|?]; done.
      - apply NoDup_cons. split; done. }
    { eapply rep_ext; [|exact Hrc]. intros j Hj.
      apply vec_at_app_l. by eapply rep_lt. }
    { apply (inv_ho _ _ _ HI). }
    simpl in Hperm.
    exists (mk_heap (elements_ h ++ [x]) d2
              (<[key x := n]> (map_ h)) w), (Br w wv wc Lf).
    assert (nodes (Br w wv wc Lf) ≡ₚ (n, x) :: nodes (Br (top_ h) vt c Lf))
      as Hperm'.
    { simpl. rewrite !app_nil_r. by rewrite Hperm. }
    split; [|split; [|done]].
    + unfold meld.
      assert (value_at (elements_ h ++ [x]) (data_ h ++ [obj]) n = Some x)
        as ->.
      { apply value_at_Some. exists obj. split; [done|]. apply vec_at_app_r. }
      assert (value_at (elements_ h ++ [x]) (data_ h ++ [obj]) (top_ h)
              = Some vt) as ->.
      { apply value_at_Some. exists nt0. split; [done|].
        rewrite vec_at_app_l; [done|by eapply vec_at_lt]. }
      rewrite !obind_Some. by rewrite Hm.
    + apply (push_Inv_build h (Br (top_ h) vt c Lf) x d2 (Br w wv wc Lf));
        try done.
      * intros j Hj. apply Hfr. intros Hin. apply Hj.
        rewrite Hperm'. simpl. rewrite app_nil_r.
        apply elem_of_cons in Hin as [->|Hin]; [left|].
        by right.
      * exists nw. split; [done|]. rewrite Hnw. simpl.
        destruct Hw as [->| ->].
        -- rewrite Hn in Hw'. injection Hw' as <-. by repeat split.
        -- rewrite Ht0' in Hw'. injection Hw' as <-. by repeat split.
Qed.

(** *** Taking a node out of the tree *)

Lemma splits_exists t i vi :
  (i, vi) ∈ nodes t → ∃ ci t2, splits t i vi ci t2.
Proof.
  induction t as [|j v c IHc s IHs]; simpl.
  - by intros ?%elem_of_nil.
  - intros Hin. apply elem_of_cons in Hin as [[= -> ->]|Hin].
    + eexists _, _. constructor.
    + apply elem_of_app in Hin as [Hin|Hin].
      * destruct (IHc Hin) as (ci & c2 & Hs). eexists _, _.
        by apply splits_child.
      * destruct (IHs Hin) as (ci & s2 & Hs). eexists _, _.
        by apply splits_sib.
Qed.

Lemma splits_nodes t i vi ci t2 :
  splits t i vi ci t2 → nodes t ≡ₚ (i, vi) :: nodes ci ++ nodes t2.
Proof.
  induction 1 as [i v c s|j v c s i vi ci c2 _ IH|j v c s i vi ci s2 _ IH];
    simpl.
  - done.
  - rewrite IH. solve_Permutation.
  - rewrite IH. solve_Permutation.
Qed.

Lemma splits_idxs t i vi ci t2 :
  splits t i vi ci t2 → idxs t ≡ₚ i :: idxs ci ++ idxs t2.
Proof.
  intros Hs. rewrite (splits_nodes _ _ _ _ _ Hs). simpl.
  by rewrite fmap_app.
Qed.

Lemma splits_at_root i v c s vi ci t2 :
  splits (Br i v c s) i vi ci t2 → NoDup (idxs (Br i v c s)) →
  vi = v ∧ ci = c ∧ t2 = s.
Proof.
  intros Hs Hnd. rewrite idxs_Br in Hnd. apply NoDup_cons in Hnd as [Hi _].
  inversion Hs as [| ? ? ? ? ? ? ? ? Hs'|? ? ? ? ? ? ? ? Hs']; subst; [done|..];
    exfalso; apply Hi, elem_of_app; [left|right];
    rewrite (splits_idxs _ _ _ _ _ Hs'); left.
Qed.

Lemma splits_root t i vi ci t2 :
  splits t i vi ci t2 → i ≠ root t → root t2 = root t.
Proof. by destruct 1. Qed.

Lemma splits_sib_Lf t i vi ci t2 :
  splits t i vi ci t2 → i ≠ root t → sib t = Lf → sib t2 = Lf.
Proof.
  destruct 1 as [| |j v c s i vi ci s2 Hs]; simpl; [done..|].
  intros _ ->. inversion Hs.
Qed.

Lemma splits_ho t i vi ci t2 pv :
  splits t i vi ci t2 → ho G pv t → ho G pv t2 ∧ ho G vi ci.
Proof.
  intros Hs. revert pv.
  induction Hs as [i v c s|j v c s i vi ci c2 _ IH|j v c s i vi ci s2 _ IH];
    intros pv; simpl.
  - tauto.
  - intros (? & Hc & ?). destruct (IH _ Hc). tauto.
  - intros (? & ? & Hsb). destruct (IH _ Hsb). tauto.
Qed.

Lemma splits_rep_children d t i vi ci t2 p l :
  splits t i vi ci t2 → rep d t p l →
  ∃ ni, vec_at d i = Some ni ∧ child ni = root ci ∧ rep d ci i NONE.
Proof.
  intros Hs. revert p l.
  induction Hs as [i v c s|j v c s i vi ci c2 _ IH|j v c s i vi ci s2 _ IH];
    intros p l; simpl.
  - intros (ni & Hi & _ & _ & Hc & _ & Hrc & _). eauto.
  - intros (_ & _ & _ & _ & _ & _ & Hrc & _). eauto.
  - intros (_ & _ & _ & _ & _ & _ & _ & Hrs). eauto.
Qed.

Lemma unlinked_other ni j nj :
  j ≠ before ni → (right_sibling ni = NONE ∨ j ≠ right_sibling ni) →
  unlinked ni j nj = nj.
Proof.
  unfold unlinked, before, written.
  destruct (N.eqb_spec (left_sibling ni) NONE),
    (N.eqb_spec (right_sibling ni) NONE); intros; repeat case_decide;
    try done; naive_solver.
Qed.

Lemma unlinked_first_child ni j nj :
  left_sibling ni = NONE → parent ni = j → j ≠ right_sibling ni →
  unlinked ni j nj = with_child (right_sibling ni) nj.
Proof.
  intros Hl Hp Hr. unfold unlinked, written. rewrite Hl, N.eqb_refl, Hp.
  destruct (N.eqb_spec (right_sibling ni) NONE); repeat case_decide; done.
Qed.

Lemma unlinked_left ni j nj :
  left_sibling ni = j → j ≠ NONE → j ≠ right_sibling ni →
  unlinked ni j nj = with_right_sibling (right_sibling ni) nj.
Proof.
  intros Hl Hn Hr. unfold unlinked, written. rewrite Hl.
  apply N.eqb_neq in Hn. rewrite Hn.
  destruct (N.eqb_spec (right_sibling ni) NONE); repeat case_decide; done.
Qed.

Lemma unlinked_right ni r nr :
  right_sibling ni = r → r ≠ NONE → r ≠ before ni →
  unlinked ni r nr = with_left_sibling (left_sibling ni) nr.
Proof.
  intros Hr Hn Hb. unfold unlinked, written, before in *. rewrite Hr.
  apply N.eqb_neq in Hn. rewrite Hn.
  destruct (N.eqb_spec (left_sibling ni) NONE); repeat case_decide; done.
Qed.

Lemma rep_unlinked_ext d d2 ni t p l :
  (∀ j, vec_at d2 j = unlinked ni j <$> vec_at d j) →
  before ni ∉ idxs t →
  (right_sibling ni = NONE ∨ right_sibling ni ∉ idxs t) →
  rep d t p l → rep d2 t p l.
Proof.
  intros L Hb Hr. apply rep_ext. intros k Hk. rewrite L.
  destruct (vec_at d k); [|done]. simpl. rewrite unlinked_other; [done|..].
  - by intros ->.
  - destruct Hr as [?|Hr]; [by left|right]. by intros ->.
Qed.

Lemma root_NONE_or_in t : root t = NONE ∨ root t ∈ idxs t.
Proof. destruct t; [by left|right]. rewrite idxs_Br. left. Qed.

Lemma splits_unlink d d2 ni t i vi ci t2 :
  splits t i vi ci t2 → ∀ p l,
  rep d t p l → NoDup (idxs t) → vsize d ≤ max_size → i ≠ root t →
  vec_at d i = Some ni →
  (∀ j, vec_at d2 j = unlinked ni j <$> vec_at d j) →
  rep d2 t2 p l ∧ before ni ∈ idxs t2 ∧
  (right_sibling ni = NONE ∨ right_sibling ni ∈ idxs t2).
Proof.
  induction 1 as [i v c s|j v c s i vi ci c2 Hs IH|j v c s i vi ci s2 Hs IH];
    intros p l Hrep Hnd Hcap Hir Hni L; [done|..].
  - (* below the children of [j] *)
    destruct Hrep as (nj & Hj & Hpj & Hlj & Hcj & Hrj & Hrc & Hrs).
    rewrite idxs_Br in Hnd. apply NoDup_cons in Hnd as [Hjn Hnd].
    apply NoDup_app in Hnd as (Hndc & Hdisj & Hnds).
    apply not_elem_of_app in Hjn as [Hjc Hjs].
    pose proof (in_range_not_NONE _ _ _ Hcap Hj) as HjN.
    pose proof (splits_idxs _ _ _ _ _ Hs) as Hperm.
    assert (∀ k, k ∈ idxs c2 → k ∈ idxs c) as Hsub.
    { intros k Hk. rewrite Hperm. right. apply elem_of_app. by right. }
    destruct (decide (i = root c)) as [Heq|Hne].
    + (* [i] is the first child of [j] *)
      destruct c as [|i' v' c' s']; [inversion Hs|]. simpl in Heq. subst i'.
      destruct (splits_at_root _ _ _ _ _ _ _ Hs Hndc) as (Ev & Ec & E2).
      subst v' c' s'.
      destruct Hrc as (ni' & Hi' & Hpi & Hli & Hci & Hri & Hrci & Hrs').
      assert (ni' = ni) as -> by congruence.
      assert (before ni = j) as Hb by (unfold before; by rewrite Hli, Hpi).
      assert (j ≠ right_sibling ni) as Hjr.
      { rewrite Hri. destruct (root_NONE_or_in c2) as [->|Hin]; [done|].
        intros ->. apply Hjc. by apply Hsub. }
      split; [|split].
      * exists (with_child (root c2) nj). rewrite L, Hj. simpl.
        rewrite unlinked_first_child, Hri by done.
        do 5 (split; [done|]). split.
        -- destruct c2 as [|r vr cr sr]; [done|].
           destruct Hrs' as (nr & Hr & Hpr & Hlr & Hcr & Hrr & Hrcr & Hrsr).
           pose proof (in_range_not_NONE _ _ _ Hcap Hr) as HrN.
           assert (NoDup (idxs (Br r vr cr sr))) as Hnd2.
           { eapply NoDup_sub; [|exact Hndc]. rewrite Hperm.
             apply submseteq_cons, submseteq_inserts_l. done. }
           rewrite idxs_Br in Hnd2. apply NoDup_cons in Hnd2 as [Hrn _].
           apply not_elem_of_app in Hrn as [Hrcr' Hrsr'].
           simpl in Hjr, Hri.
           assert (r ≠ j) as Hrj'.
           { intros ->. apply Hjc, Hsub. rewrite idxs_Br. left. }
           exists (with_left_sibling NONE nr). rewrite L, Hr. simpl.
           rewrite (unlinked_right ni r nr), Hli; [|done|done|by rewrite Hb].
           do 5 (split; [done|]).
           split; (eapply rep_unlinked_ext; [exact L| | |done]);
             rewrite ?Hb, ?Hri; try (by right).
           ++ intros Hin. apply Hjc, Hsub. rewrite idxs_Br. right.
              apply elem_of_app. by left.
           ++ intros Hin. apply Hjc, Hsub. rewrite idxs_Br. right.
              apply elem_of_app. by right.
        -- eapply rep_unlinked_ext; [exact L| | |done].
           ++ by rewrite Hb.
           ++ rewrite Hri. destruct (root_NONE_or_in c2) as [->|Hin];
                [by left|right]. intros Hin'. eapply Hdisj; [|exact Hin'].
              by apply Hsub.
      * rewrite Hb, idxs_Br. left.
      * rewrite Hri. destruct (root_NONE_or_in c2) as [->|Hin];
          [by left|right]. rewrite idxs_Br. right. apply elem_of_app. by left.
    + (* deeper *)
      destruct (IH j NONE Hrc Hndc Hcap Hne Hni L) as (Hrep2 & Hq & Hr).
      split; [|split].
      * exists nj. rewrite L, Hj. simpl. rewrite unlinked_other.
        -- do 3 (split; [done|]).
           split; [by rewrite (splits_root _ _ _ _ _ Hs Hne)|].
           do 2 (split; [done|]).
           eapply rep_unlinked_ext; [exact L| | |done].
           ++ intros Hin. eapply Hdisj; [|exact Hin]. by apply Hsub.
           ++ destruct Hr as [?|Hr]; [by left|right].
              intros Hin. eapply Hdisj; [|exact Hin]. by apply Hsub.
        -- intros ->. by apply Hjc, Hsub.
        -- destruct Hr as [?|Hr]; [by left|right]. intros ->.
           by apply Hjc, Hsub.
      * rewrite idxs_Br. right. apply elem_of_app. by left.
      * destruct Hr as [?|Hr]; [by left|right].
        rewrite idxs_Br. right. apply elem_of_app. by left.
  - (* among the right siblings of [j] *)
    destruct Hrep as (nj & Hj & Hpj & Hlj & Hcj & Hrj & Hrc & Hrs).
    rewrite idxs_Br in Hnd. apply NoDup_cons in Hnd as [Hjn Hnd].
    apply NoDup_app in Hnd as (Hndc & Hdisj & Hnds).
    apply not_elem_of_app in Hjn as [Hjc Hjs].
    pose proof (in_range_not_NONE _ _ _ Hcap Hj) as HjN.
    pose proof (splits_idxs _ _ _ _ _ Hs) as Hperm.
    assert (∀ k, k ∈ idxs s2 → k ∈ idxs s) as Hsub.
    { intros k Hk. rewrite Hperm. right. apply elem_of_app. by right. }
    destruct (decide (i = root s)) as [Heq|Hne].
    + (* [i] is the right sibling of [j] *)
      destruct s as [|i' v' c' s']; [inversion Hs|]. simpl in Heq. subst i'.
      destruct (splits_at_root _ _ _ _ _ _ _ Hs Hnds) as (Ev & Ec & E2).
      subst v' c' s'.
      destruct Hrs as (ni' & Hi' & Hpi & Hli & Hci & Hri & Hrci & Hrs').
      assert (ni' = ni) as -> by congruence.
      assert (before ni = j) as Hb.
      { unfold before. rewrite Hli. apply N.eqb_neq in HjN. by rewrite HjN. }
      assert (j ≠ right_sibling ni) as Hjr.
      { rewrite Hri. destruct (root_NONE_or_in s2) as [->|Hin]; [done|].
        intros ->. apply Hjs. by apply Hsub. }
      split; [|split].
      * exists (with_right_sibling (root s2) nj). rewrite L, Hj. simpl.
        rewrite unlinked_left, Hri by done.
        do 5 (split; [done|]). split.
        -- eapply rep_unlinked_ext; [exact L| | |done].
           ++ by rewrite Hb.
           ++ rewrite Hri. destruct (root_NONE_or_in s2) as [->|Hin];
                [by left|right]. intros Hin'. eapply Hdisj; [exact Hin'|].
              by apply Hsub.
        -- destruct s2 as [|r vr cr sr]; [done|].
           destruct Hrs' as (nr & Hr & Hpr & Hlr & Hcr & Hrr & Hrcr & Hrsr).
           pose proof (in_range_not_NONE _ _ _ Hcap Hr) as HrN.
           assert (NoDup (idxs (Br r vr cr sr))) as Hnd2.
           { eapply NoDup_sub; [|exact Hnds]. rewrite Hperm.
             apply submseteq_cons, submseteq_inserts_l. done. }
           rewrite idxs_Br in Hnd2. apply NoDup_cons in Hnd2 as [Hrn _].
           apply not_elem_of_app in Hrn as [Hrcr' Hrsr'].
           simpl in Hjr, Hri.
           assert (r ≠ j) as Hrj'.
           { intros ->. apply Hjs, Hsub. rewrite idxs_Br. left. }
           exists (with_left_sibling j nr). rewrite L, Hr. simpl.
           rewrite (unlinked_right ni r nr), Hli; [|done|done|by rewrite Hb].
           do 5 (split; [done|]).
           split; (eapply rep_unlinked_ext; [exact L| | |done]);
             rewrite ?Hb, ?Hri; try (by right).
           ++ intros Hin. apply Hjs, Hsub. rewrite idxs_Br. right.
              apply elem_of_app. by left.
           ++ intros Hin. apply Hjs, Hsub. rewrite idxs_Br. right.
              apply elem_of_app. by right.
      * rewrite Hb, idxs_Br. left.
      * rewrite Hri. destruct (root_NONE_or_in s2) as [->|Hin];
          [by left|right]. rewrite idxs_Br. right. apply elem_of_app.
        by right.
    + (* deeper *)
      destruct (IH p j Hrs Hnds Hcap Hne Hni L) as (Hrep2 & Hq & Hr).
      split; [|split].
      * exists nj. rewrite L, Hj. simpl. rewrite unlinked_other.
        -- do 4 (split; [done|]).
           split; [by rewrite (splits_root _ _ _ _ _ Hs Hne)|].
           split; [|done].
           eapply rep_unlinked_ext; [exact L| | |done].
           ++ intros Hin. eapply Hdisj; [exact Hin|]. by apply Hsub.
           ++ destruct Hr as [?|Hr]; [by left|right].
              intros Hin. eapply Hdisj; [exact Hin|]. by apply Hsub.
        -- intros ->. by apply Hjs, Hsub.
        -- destruct Hr as [?|Hr]; [by left|right]. intros ->.
           by apply Hjs, Hsub.
      * rewrite idxs_Br. right. apply elem_of_app. by right.
      * destruct Hr as [?|Hr]; [by left|right].
        rewrite idxs_Br. right. apply elem_of_app. by right.
Qed.

(** *** [update] *)

Lemma update_Inv_build h t x i vi ni rest d2 t2 :
  Inv G h t →
  vec_at (data_ h) i = Some ni → key vi = key x →
  nodes t ≡ₚ (i, vi) :: rest → nodes t2 ≡ₚ (i, x) :: rest →
  length d2 = length (data_ h) →
  (∀ j, item_index <$> vec_at d2 j = item_index <$> vec_at (data_ h) j) →
  (∀ j, j ∉ idxs t → vec_at d2 j = vec_at (data_ h) j) →
  rep d2 t2 NONE NONE → sib t2 = Lf → hot G t2 →
  Inv G (mk_heap (vput (elements_ h) (item_index ni) x) d2 (map_ h)
           (root t2)) t2.
Proof.
  intros HI Hni Hk Hp Hp2 Hlen Hsl Hfr Hrep Hsib Hot.
  set (e := elements_ h) in *. set (d := data_ h) in *.
  assert (idxs t2 ≡ₚ idxs t) as Hpi by (by rewrite Hp, Hp2).
  assert ((i, vi) ∈ nodes t) as Hin by (rewrite Hp; left).
  pose proof (inv_nodup _ _ _ HI) as Hnd.
  assert (i ∉ rest.*1) as Hir.
  { rewrite Hp in Hnd. simpl in Hnd. by apply NoDup_cons in Hnd as [? _]. }
  destruct (inv_vals _ _ _ HI i vi Hin) as [(ni' & Hni' & Hvi)%value_at_Some Hm].
  fold d in Hni'. fold e in Hvi. assert (ni' = ni) as -> by congruence.
  pose proof (vec_at_lt _ _ _ Hvi) as Hlt.
  assert (∀ j, j ∈ idxs t →
            ∃ nj nj2, vec_at d j = Some nj ∧ vec_at d2 j = Some nj2 ∧
                      item_index nj2 = item_index nj) as Hrec.
  { intros j Hj. destruct (Inv_node h t j HI Hj) as (nj & _ & Hnj & _).
    fold d in Hnj. pose proof (Hsl j) as Hs. rewrite Hnj in Hs.
    destruct (vec_at d2 j) as [nj2|]; [|done]. injection Hs as Hs. eauto. }
  split; simpl.
  - unfold vsize. rewrite Hlen. apply (inv_cap _ _ _ HI).
  - rewrite vsize_vput. unfold vsize at 2. rewrite Hlen.
    apply (inv_size _ _ _ HI).
  - done.
  - done.
  - done.
  - by rewrite Hpi.
  - intros j v Hj. rewrite Hp2 in Hj.
    apply elem_of_cons in Hj as [[= -> ->]|Hj].
    + destruct (Hrec i) as (nj & nj2 & Hnj & Hnj2 & Hs);
        [apply idxs_elem_of; eauto|].
      assert (nj = ni) as -> by congruence.
      split; [|by rewrite <- Hk]. apply value_at_Some. exists nj2.
      split; [done|]. rewrite Hs. by apply vec_at_vput_eq.
    + assert ((j, v) ∈ nodes t) as Hjt by (rewrite Hp; by right).
      assert (j ≠ i) as Hji.
      { intros ->. apply Hir. apply idxs_elem_of. eauto. }
      destruct (inv_vals _ _ _ HI j v Hjt)
        as [(nj & Hnj & Hv)%value_at_Some Hmj].
      split; [|done].
      destruct (Hrec j) as (nj' & nj2 & Hnj' & Hnj2 & Hs);
        [apply idxs_elem_of; eauto|].
      fold d in Hnj. assert (nj' = nj) as -> by congruence.
      apply value_at_Some. exists nj2. split; [done|]. rewrite Hs.
      rewrite vec_at_vput_ne; [done|]. intros Heq. apply Hji.
      eapply (inv_inj _ _ _ HI); [| |done|done|done];
        apply idxs_elem_of; eauto.
  - intros a b na nb Ha Hb Hna Hnb Heq.
    rewrite Hpi in Ha, Hb.
    destruct (Hrec a Ha) as (na0 & na2 & Hna0 & Hna2 & Hsa).
    destruct (Hrec b Hb) as (nb0 & nb2 & Hnb0 & Hnb2 & Hsb).
    eapply (inv_inj _ _ _ HI); [done|done|done|done|congruence].
  - intros s Hs. rewrite vsize_vput in Hs.
    destruct (inv_surj _ _ _ HI s Hs) as (a & na & Ha & Hna & Hsa).
    destruct (Hrec a Ha) as (na0 & na2 & Hna0 & Hna2 & Hsa2).
    exists a, na2. split; [by rewrite Hpi|]. split; [done|].
    fold d in Hna. congruence.
  - intros j nd Hnd' Hj. rewrite Hpi in Hj. rewrite Hfr in Hnd' by done.
    by eapply (inv_dead _ _ _ HI j).
  - done.
Qed.

Lemma ho_relax pv x t :
  (∀ j vj, (j, vj) ∈ level t → G → compare vj x = false) →
  ho G pv t → ho G x t.
Proof.
  induction t as [|j v c _ s IHs]; simpl; [done|].
  intros Hl (_ & Hc & Hs). split; [|split; [done|]].
  - apply (Hl j v). left.
  - apply IHs; [|done]. intros k vk Hk. apply (Hl k vk). by right.
Qed.

Lemma decrease_key_children h t x i ci :
  Inv G h t → (id_read (map_ h) x).1 = i → decrease_key x h = true →
  rep (data_ h) ci i NONE →
  (∀ j vj, (j, vj) ∈ nodes ci → (j, vj) ∈ nodes t) →
  ∀ j vj, (j, vj) ∈ level ci → compare vj x = false.
Proof.
  intros HI Hid Hdec Hrep Hsub j vj Hj.
  destruct (rep_level_parent _ _ _ _ _ _ Hrep Hj) as (nj & Hnj & Hp).
  unfold decrease_key in Hdec. rewrite Hid in Hdec.
  rewrite forallb_forall in Hdec.
  specialize (Hdec nj). rewrite Hp, N.eqb_refl in Hdec.
  destruct (inv_vals _ _ _ HI j vj) as [(nj' & Hnj' & Hv)%value_at_Some _].
  { apply Hsub. by apply level_subseteq. }
  assert (nj' = nj) as -> by congruence. rewrite Hv in Hdec.
  apply negb_true_iff, Hdec. apply list_elem_of_In.
  by eapply vec_at_elem_of.
Qed.

Lemma unlink_writes d ni :
  is_Some (vec_at d (before ni)) →
  (right_sibling ni ≠ NONE → is_Some (vec_at d (right_sibling ni))) →
  ∃ d1 d2,
    (if left_sibling ni =? NONE
     then set_child (parent ni) (right_sibling ni) d
     else set_right_sibling (left_sibling ni) (right_sibling ni) d)
      = Some d1 ∧
    (if right_sibling ni =? NONE then Some d1
     else set_left_sibling (right_sibling ni) (left_sibling ni) d1)
      = Some d2 ∧
    length d2 = length d ∧
    ∀ j, vec_at d2 j = unlinked ni j <$> vec_at d j.
Proof.
  unfold before, unlinked, set_child, set_right_sibling, set_left_sibling.
  intros Hb Hr.
  assert (∃ d1 f, (if left_sibling ni =? NONE
            then set_field with_child (parent ni) (right_sibling ni) d
            else set_field with_right_sibling (left_sibling ni)
                   (right_sibling ni) d) = Some d1 ∧
            length d1 = length d ∧
            (∀ j, vec_at d1 j = f j <$> vec_at d j) ∧
            f = (λ j nj, if left_sibling ni =? NONE
                   then written with_child (parent ni) (right_sibling ni) j nj
                   else written with_right_sibling (left_sibling ni)
                          (right_sibling ni) j nj))
    as (d1 & f & H1 & Hl1 & L1 & Hf).
  { destruct (left_sibling ni =? NONE).
    - destruct (set_field_is_Some with_child (parent ni) (right_sibling ni) d)
        as [d1 H1]; [done|].
      exists d1. eexists. split; [done|].
      split; [by eapply set_field_length|].
      split; [|done]. by apply set_field_lookup.
    - destruct (set_field_is_Some with_right_sibling (left_sibling ni)
                  (right_sibling ni) d) as [d1 H1]; [done|].
      exists d1. eexists. split; [done|].
      split; [by eapply set_field_length|].
      split; [|done]. by apply set_field_lookup. }
  exists d1. rewrite H1.
  destruct (N.eqb_spec (right_sibling ni) NONE) as [Hn|Hn].
  - exists d1. do 2 (split; [done|]). split; [done|].
    intros j. rewrite L1, Hf. by destruct (vec_at d j).
  - destruct (set_field_is_Some with_left_sibling (right_sibling ni)
                (left_sibling ni) d1) as [d2 H2].
    { rewrite L1. destruct (Hr Hn) as [nr ->]. simpl. eauto. }
    exists d2. do 2 (split; [done|]).
    split; [apply set_field_length in H2; congruence|].
    intros j. rewrite (set_field_lookup _ _ _ _ _ H2), L1, Hf.
    by destruct (vec_at d j).
Qed.

Lemma item_index_unlinked ni j nj :
  item_index (unlinked ni j nj) = item_index nj.
Proof.
  unfold unlinked.
  destruct (_ =? _), (_ =? _); by rewrite ?item_index_written.
Qed.

Lemma vec_at_imap {A B} (f : N → A → B) (v : list A) j :
  vec_at (imap (λ k, f (N.of_nat k)) v) j = f j <$> vec_at v j.
Proof.
  rewrite !vec_at_lookup, list_lookup_imap. by rewrite N2Nat.id.
Qed.

Lemma update_Inv h t x i vi :
  Inv G h t → (i, vi) ∈ nodes t → key vi = key x →
  (G → decrease_key x h = true) →
  ∃ h' t' rest,
    update x h = Some h' ∧ Inv G h' t' ∧
    nodes t ≡ₚ (i, vi) :: rest ∧ nodes t' ≡ₚ (i, x) :: rest ∧
    (id_read (map_ h) x).1 = i.
Proof.
  intros HI Hin Hk Hdec.
  destruct (inv_vals _ _ _ HI i vi Hin) as [(ni & Hni & Hvi)%value_at_Some Hm].
  assert (id_read (map_ h) x = (i, map_ h)) as Hid
    by (apply id_read_Some; by rewrite <- Hk).
  pose proof (inv_cap _ _ _ HI) as Hcap.
  pose proof (vec_at_lt _ _ _ Hvi) as Hlt.
  pose proof (vec_at_lt _ _ _ Hni) as Hlti.
  unfold update. rewrite Hid, Hni, obind_Some.
  rewrite (vec_set_vput _ _ _ Hlt), obind_Some. cbv zeta.
  destruct (Inv_tree_cases h t HI) as [->|(vt & c & ->)];
    [by apply elem_of_nil in Hin|].
  destruct (Inv_root _ _ _ _ _ HI)
    as (_ & _ & Hndc & Htc & nt0 & Ht0 & Hc0 & Hp0 & Hl0 & Hr0 & Hrc & Hvt).
  destruct (decide (i = top_ h)) as [->|Hit].
  - (* the root *)
    rewrite N.eqb_refl.
    assert (vi = vt) as ->
      by (eapply (Inv_nodes_functional h); [done|done|left]).
    assert (ni = nt0) as -> by congruence.
    eexists. exists (Br (top_ h) x c Lf), (nodes c ++ []).
    split; [done|]. split; [|split; [done|split; [done|done]]].
    apply (update_Inv_build h (Br (top_ h) vt c Lf) x (top_ h) vt nt0
             (nodes c ++ []) (data_ h) (Br (top_ h) x c Lf)); try done.
    + exact (inv_rep _ _ _ HI).
    + simpl. eapply ho_relax; [|apply (inv_ho _ _ _ HI)].
      intros j vj Hj HG.
      eapply (decrease_key_children h); [exact HI|by rewrite Hid|by apply Hdec
        |exact Hrc| |exact Hj].
      intros k vk Hk'. simpl. right. apply elem_of_app. by left.
  - (* below the root *)
    apply N.eqb_neq in Hit as Hit'. rewrite Hit'.
    assert ((i, vi) ∈ nodes c) as Hinc.
    { simpl in Hin. apply elem_of_cons in Hin as [[= ? ?]|Hin]; [done|].
      by rewrite app_nil_r in Hin. }
    destruct (splits_exists c i vi Hinc) as (ci & c2 & Hs).
    pose proof (splits_child (top_ h) vt c Lf i vi ci c2 Hs) as Hst.
    pose proof (splits_nodes _ _ _ _ _ Hs) as Hpc.
    pose proof (splits_idxs _ _ _ _ _ Hs) as Hpci.
    pose proof (inv_nodup _ _ _ HI) as Hnd. rewrite idxs_Br in Hnd.
    simpl in Hnd. rewrite app_nil_r, Hpci in Hnd.
    assert (NoDup (i :: top_ h :: idxs ci ++ idxs c2)) as Hnd' by nodup Hnd.
    set (dm := imap (λ k, unlinked ni (N.of_nat k)) (data_ h)).
    assert (∀ j, vec_at dm j = unlinked ni j <$> vec_at (data_ h) j) as Lm
      by (intros j; apply vec_at_imap).
    destruct (splits_unlink (data_ h) dm ni _ _ _ _ _ Hst NONE NONE)
      as (Hrepm & Hb & Hr); try done.
    { exact (inv_rep _ _ _ HI). }
    { exact (inv_nodup _ _ _ HI). }
    assert (∀ k, k ∈ idxs (Br (top_ h) vt c2 Lf) →
              is_Some (vec_at (data_ h) k) ∧ k ≠ i ∧ k ∉ idxs ci) as Hk2.
    { intros k Hkin. rewrite idxs_Br in Hkin. simpl in Hkin.
      rewrite app_nil_r in Hkin. split; [|split].
      - apply elem_of_cons in Hkin as [->|Hkin]; [eauto|].
        apply vec_at_is_Some. eapply rep_lt; [exact Hrc|].
        rewrite Hpci. right. apply elem_of_app. by right.
      - intros ->. apply NoDup_cons in Hnd' as [Hn _]. apply Hn.
        apply elem_of_cons in Hkin as [->|Hkin]; [left|].
        right. apply elem_of_app. by right.
      - intros Hci.
        assert (k ∉ idxs ci) as Hn; [|done].
        apply elem_of_cons in Hkin as [->|Hkin].
        + apart Hnd' [top_ h].
        + apart Hnd' (idxs c2). }
    destruct (unlink_writes (data_ h) ni) as (d1 & d2 & HA & HB & Hlen2 & L2).
    { by apply Hk2. }
    { intros Hn. destruct Hr as [?|Hr]; [done|]. by apply Hk2. }
    rewrite HA, obind_Some, HB, obind_Some.
    assert (∀ k, k ∉ idxs (Br (top_ h) vt c2 Lf) →
              vec_at d2 k = vec_at (data_ h) k) as L2o.
    { intros k Hkn. rewrite L2. destruct (vec_at (data_ h) k); [|done].
      simpl. rewrite unlinked_other; [done|by intros ->|].
      destruct Hr as [?|Hr]; [by left|right]. by intros ->. }
    assert (i ∉ idxs (Br (top_ h) vt c2 Lf)) as Hi2.
    { intros Hi2. by destruct (Hk2 i Hi2) as (_ & ? & _). }
    assert (vec_at d2 i = Some ni) as Hni2 by (by rewrite L2o).
    assert (vsize d2 = vsize (data_ h)) as Hsz2
      by (unfold vsize; by rewrite Hlen2).
    unfold set_parent, set_left_sibling, set_right_sibling.
    rewrite (set_field_vput _ _ _ _ _ Hni2), obind_Some.
    do 2 (rewrite set_field_vput_same, obind_Some by lia).
    rewrite detached_eq.
    set (d5 := vput d2 i (detached ni)).
    set (e' := vput (elements_ h) (item_index ni) x).
    assert (vec_at d5 i = Some (detached ni)) as Hi5
      by (unfold d5; apply vec_at_vput_eq; lia).
    assert (∀ k, k ≠ i → vec_at d5 k = vec_at d2 k) as L5
      by (intros k Hki; unfold d5; by rewrite vec_at_vput_ne).
    assert (∀ j, item_index <$> vec_at d5 j
                 = item_index <$> vec_at (data_ h) j) as Hs5.
    { intros j. destruct (decide (j = i)) as [->|Hji].
      - by rewrite Hi5, Hni.
      - rewrite L5, L2 by done. destruct (vec_at (data_ h) j); [|done].
        simpl. by rewrite item_index_unlinked. }
    assert (rep d5 (Br (top_ h) vt c2 Lf) NONE NONE) as Hrep5.
    { eapply rep_ext; [|exact Hrepm]. intros k Hkin.
      rewrite L5, L2, Lm; [done|]. by apply Hk2. }
    destruct Hrep5 as (nt5 & Ht5 & Hp5 & Hl5 & Hc5 & Hr5 & Hrc5 & _).
    destruct (splits_rep_children _ _ _ _ _ _ _ _ Hs Hrc)
      as (ni' & Hni' & Hci & Hrci).
    assert (ni' = ni) as -> by congruence.
    destruct (splits_ho _ _ _ _ _ vt Hs (inv_ho _ _ _ HI)) as [Ho2 Hoi].
    destruct (meld_roots G asym d5 i (top_ h) x vt ci c2 (detached ni) nt5)
      as (d6 & w & wv & wc & nw & n0 & Hmeld & Hlen6 & Hw6 & Hw5 & Hnw & Hw
          & Hrw & How & Hperm & Hfr6 & Hs6); try done.
    { unfold d5. by rewrite vsize_vput, Hsz2. }
    { eapply rep_ext; [|exact Hrci]. intros k Hkin.
      assert (k ≠ i) as Hki.
      { intros ->. apply NoDup_cons in Hnd' as [Hn _]. apply Hn. right.
        apply elem_of_app. by left. }
      rewrite L5 by done. apply L2o. intros Hk'.
      by destruct (Hk2 k Hk') as (_ & _ & ?). }
    { eapply ho_relax; [|exact Hoi]. intros j vj Hj HG.
      eapply (decrease_key_children h); [exact HI|by rewrite Hid|by apply Hdec
        |exact Hrci| |exact Hj].
      intros k vk Hk'. simpl. right. apply elem_of_app. left.
      rewrite Hpc. right. apply elem_of_app. by left. }
    set (rest := nodes ci ++ (top_ h, vt) :: nodes c2).
    assert (nodes (Br (top_ h) vt c Lf) ≡ₚ (i, vi) :: rest) as Hp1.
    { simpl. rewrite app_nil_r, Hpc. unfold rest. solve_Permutation. }
    assert (nodes (Br w wv wc Lf) ≡ₚ (i, x) :: rest) as Hp2.
    { simpl. rewrite app_nil_r. by rewrite Hperm. }
    exists (mk_heap e' d6 (map_ h) w), (Br w wv wc Lf), rest.
    split; [|split; [|split; [done|split; [done|done]]]].
    + unfold meld.
      assert (value_at e' d5 i = Some x) as ->.
      { apply value_at_Some. exists (detached ni). split; [done|].
        unfold e'. by apply vec_at_vput_eq. }
      assert (value_at e' d5 (top_ h) = Some vt) as ->.
      { apply value_at_Some. exists nt5. split; [done|].
        pose proof (Hs5 (top_ h)) as Hst5. rewrite Ht5, Ht0 in Hst5.
        injection Hst5 as ->. unfold e'. rewrite vec_at_vput_ne; [done|].
        intros Heq. apply Hit. symmetry.
        eapply (inv_inj _ _ _ HI); [| |done|done|done].
        - rewrite idxs_Br. left.
        - apply idxs_elem_of. eauto. }
      rewrite !obind_Some, Hmeld. done.
    + apply (update_Inv_build h (Br (top_ h) vt c Lf) x i vi ni rest d6
               (Br w wv wc Lf)); try done.
      * rewrite Hlen6. unfold d5. by rewrite length_vput.
      * intros j. by rewrite Hs6, Hs5.
      * intros j Hj. rewrite idxs_Br in Hj. simpl in Hj.
        rewrite app_nil_r, Hpci in Hj.
        rewrite Hfr6, L5, L2o.
        -- done.
        -- intros Hin'. apply Hj. rewrite idxs_Br in Hin'. simpl in Hin'.
           rewrite app_nil_r in Hin'.
           eapply elem_of_submseteq; [exact Hin'|]. solve_submseteq.
        -- intros ->. apply Hj. right. left.
        -- intros Hin'. apply Hj.
           eapply elem_of_submseteq; [exact Hin'|]. solve_submseteq.
      * exists nw. split; [done|]. rewrite Hnw. simpl.
        destruct Hw as [->| ->].
        -- rewrite Hi5 in Hw5. injection Hw5 as <-. by repeat split.
        -- rewrite Ht5 in Hw5. injection Hw5 as <-. by repeat split.
Qed.

(** *** Runs *)

Lemma fresh_nodes h t x :
  Inv G h t → fresh x h = true → ∀ i v, (i, v) ∈ nodes t → key v ≠ key x.
Proof.
  intros HI Hf i v Hin Hk. unfold fresh in Hf.
  apply bool_decide_eq_true in Hf. apply Hf. rewrite <- Hk.
  apply list_elem_of_fmap_2. apply (Inv_elements h t v HI).
  apply list_elem_of_fmap. by exists (i, v).
Qed.

Lemma tracked_nodes h t x :
  Inv G h t → tracked x h = true → ∃ i v, (i, v) ∈ nodes t ∧ key v = key x.
Proof.
  intros HI Ht. unfold tracked in Ht. apply bool_decide_eq_true in Ht.
  apply list_elem_of_fmap in Ht as (v & Hk & Hv).
  apply (Inv_elements h t v HI) in Hv.
  apply list_elem_of_fmap in Hv as ([i v'] & -> & Hin). eauto.
Qed.

Lemma step_Inv strict pol o h h' t g :
  (G → strict = true) →
  Inv G h t → tracks g t → pre strict o h = true →
  step pol o h = Some h' →
  ∃ t', Inv G h' t' ∧ tracks (items_step o h g) t'.
Proof.
  intros HG HI Hg Hpre Hstep.
  pose proof (inv_nodup _ _ _ HI) as Hnd.
  destruct o as [x| |x]; simpl in *.
  - (* push *)
    pose proof (push_length _ _ _ Hstep) as (Hl & _ & Hc).
    destruct (push_Inv h t x HI) as (h2 & t' & Hp & HI' & Hperm).
    { by apply (fresh_nodes h). }
    { unfold vsize in *. lia. }
    assert (h2 = h') as -> by congruence.
    exists t'. split; [done|]. intros n v. rewrite Hperm.
    rewrite elem_of_cons, <- (Hg n v).
    destruct (decide (n = vsize (data_ h))) as [->|Hn].
    + rewrite lookup_insert_eq. split.
      * intros [= ->]. by left.
      * intros [[= ->]|Hv]; [done|]. exfalso.
        apply Hg in Hv.
        assert (vsize (data_ h) ∈ idxs t) as Hin
          by (apply idxs_elem_of; eauto).
        eapply rep_lt in Hin; [|apply (inv_rep _ _ _ HI)]. lia.
    + rewrite lookup_insert_ne by done. split; [by right|].
      intros [[= ? ?]|?]; done.
  - (* pop *)
    destruct (Inv_tree_cases h t HI) as [->|(vt & c & ->)].
    + destruct (Inv_Lf h HI) as [Ht He].
      destruct pol; simpl in Hstep.
      * rewrite pop_guard in Hstep by done. injection Hstep as <-.
        exists Lf. split; [done|]. intros n v. rewrite <- (Hg n v).
        destruct (decide (n = top_ h)) as [->|Hn];
          [|by rewrite lookup_delete_ne].
        rewrite lookup_delete_eq. split; [done|].
        intros Hv. apply Hg in Hv. by apply elem_of_nil in Hv.
      * unfold pop_internal, top, value_at in Hstep.
        rewrite Ht in Hstep.
        destruct (vec_at (data_ h) NONE) eqn:E; [|done].
        eapply in_range_not_NONE in E; [done|apply (inv_cap _ _ _ HI)].
    + destruct (pop_of_Inv pol h (top_ h) vt c HI)
        as (h2 & t' & Hp & _ & HI' & Hperm).
      assert (h2 = h') as -> by congruence.
      exists t'. split; [done|]. intros n v. rewrite Hperm.
      destruct (Inv_root _ _ _ _ _ HI) as (_ & _ & _ & Htc & _).
      destruct (decide (n = top_ h)) as [->|Hn].
      * rewrite lookup_delete_eq. split; [done|]. intros Hv.
        exfalso. apply Htc. apply idxs_elem_of. eauto.
      * rewrite lookup_delete_ne by done. rewrite (Hg n v). simpl.
        rewrite app_nil_r, elem_of_cons. split; [|by right].
        intros [[= ? ?]|?]; done.
  - (* update *)
    apply andb_true_iff in Hpre as [Htr Hdec].
    destruct (tracked_nodes h t x HI Htr) as (i & vi & Hin & Hk).
    destruct (update_Inv h t x i vi HI Hin Hk)
      as (h2 & t' & rest & Hu & HI' & Hp1 & Hp2 & Hid).
    { intros HG'. rewrite (HG HG') in Hdec. done. }
    assert (h2 = h') as -> by congruence.
    exists t'. split; [done|]. rewrite Hid. intros n v. rewrite Hp2.
    rewrite Hp1 in Hnd. simpl in Hnd. apply NoDup_cons in Hnd as [Hir _].
    destruct (decide (n = i)) as [->|Hn].
    + rewrite lookup_insert_eq, elem_of_cons. split.
      * intros [= ->]. by left.
      * intros [[= ->]|Hv]; [done|]. exfalso. apply Hir.
        apply idxs_elem_of. eauto.
    + rewrite lookup_insert_ne by done.
      rewrite (Hg n v), Hp1, !elem_of_cons.
      split; (intros [[= ? ?]|?]; [done|by right]).
Qed.

Lemma run_Inv strict pol ops : ∀ h h' t g,
  (G → strict = true) →
  Inv G h t → tracks g t → run_pre strict pol ops h = true →
  run pol ops h = Some h' →
  ∃ t', Inv G h' t' ∧ tracks (items pol ops h g) t'.
Proof.
  induction ops as [|o ops IH]; intros h h' t g HG HI Hg Hpre Hrun; simpl in *.
  - injection Hrun as <-. eauto.
  - apply andb_true_iff in Hpre as [Hpo Hpre].
    destruct (step pol o h) as [h1|] eqn:Hstep; [|done]. simpl in Hrun.
    destruct (step_Inv strict pol o h h1 t g HG HI Hg Hpo Hstep)
      as (t1 & HI1 & Hg1).
    by eapply IH.
Qed.

Lemma tracks_empty : tracks ∅ Lf.
Proof. intros n v. rewrite lookup_empty. simpl. by rewrite elem_of_nil. Qed.

(** Heap order of the tree is heap order of the arena. *)
Lemma ho_heap_order e d t : ∀ p l pv,
  G → rep d t p l → ho G pv t →
  (∀ i v, (i, v) ∈ nodes t → value_at e d i = Some v) →
  (p ≠ NONE → value_at e d p = Some pv) →
  ∀ c nc, c ∈ idxs t → vec_at d c = Some nc → parent nc ≠ NONE →
    ∃ np vc vp, vec_at d (parent nc) = Some np ∧
      vec_at e (item_index nc) = Some vc ∧
      vec_at e (item_index np) = Some vp ∧ compare vc vp = false.
Proof.
  induction t as [|i v c IHc s IHs]; intros p l pv HG Hrep Ho Hval Hp;
    [intros c nc Hc; by apply elem_of_nil in Hc|].
  destruct Hrep as (ni & Hi & Hpi & Hli & Hci & Hri & Hrc & Hrs).
  destruct Ho as (Hcmp & Hoc & Hos).
  assert (value_at e d i = Some v) as Hvi by (apply Hval; left).
  intros c0 nc Hin Hnc Hpn. rewrite idxs_Br in Hin.
  apply elem_of_cons in Hin as [->|Hin].
  - assert (nc = ni) as -> by congruence. rewrite Hpi in Hpn |- *.
    apply value_at_Some in Hvi as (ni' & Hi' & Hv).
    assert (ni' = ni) as -> by congruence.
    pose proof (Hp Hpn) as Hvp.
    apply value_at_Some in Hvp as (np & Hnp & Hvp).
    exists np, v, pv. auto.
  - apply elem_of_app in Hin as [Hin|Hin].
    + eapply (IHc i NONE v); try done.
      intros j vj Hj. apply Hval. simpl. right. apply elem_of_app. by left.
    + eapply (IHs p i pv); try done.
      intros j vj Hj. apply Hval. simpl. right. apply elem_of_app. by right.
Qed.

Lemma Inv_heap_order h t : G → Inv G h t → heap_order h.
Proof.
  intros HG HI c nc Hnc Hpn.
  destruct (decide (c ∈ idxs t)) as [Hin|Hin];
    [|by apply (inv_dead _ _ _ HI c nc Hnc) in Hin].
  destruct (Inv_tree_cases h t HI) as [->|(vt & ch & ->)];
    [by apply elem_of_nil in Hin|].
  destruct (Inv_root _ _ _ _ _ HI)
    as (_ & _ & _ & _ & nt0 & Ht0 & _ & Hp0 & _ & _ & Hrc & Hvt).
  rewrite idxs_Br in Hin. simpl in Hin. rewrite app_nil_r in Hin.
  apply elem_of_cons in Hin as [->|Hin]; [congruence|].
  eapply (ho_heap_order _ _ ch (top_ h) NONE vt); try done.
  - apply (inv_ho _ _ _ HI).
  - intros i v Hi. apply (inv_vals _ _ _ HI). simpl. right.
    apply elem_of_app. by left.
  - intros _. apply value_at_Some. eauto.
Qed.

(** *** Filling and draining *)

Lemma ho_min pv t :
  negatively_transitive → G → ho G pv t →
  ∀ j y, (j, y) ∈ nodes t → compare y pv = false.
Proof.
  intros Hnt HG. revert pv.
  induction t as [|i v c IHc s IHs]; intros pv Ho j y Hin; simpl in *.
  - by apply elem_of_nil in Hin.
  - destruct Ho as (Hv & Hc & Hs).
    apply elem_of_cons in Hin as [[= -> ->]|Hin]; [by apply Hv|].
    apply elem_of_app in Hin as [Hin|Hin].
    + eapply Hnt; [by eapply IHc|by apply Hv].
    + by eapply IHs.
Qed.

Lemma run_pushes pol vs : ∀ h t,
  Inv G h t → NoDup (key <$> vs) →
  (∀ v i w, v ∈ vs → (i, w) ∈ nodes t → key w ≠ key v) →
  vsize (data_ h) + vsize vs ≤ max_size →
  ∃ h' t', run pol (Push <$> vs) h = Some h' ∧ Inv G h' t' ∧
           (nodes t').*2 ≡ₚ vs ++ (nodes t).*2.
Proof.
  induction vs as [|v vs IH]; intros h t HI Hnd Hfr Hcap.
  - exists h, t. done.
  - rewrite fmap_cons in Hnd. apply NoDup_cons in Hnd as [Hv Hnd].
    unfold vsize in Hcap. simpl in Hcap.
    destruct (push_Inv h t v HI) as (h1 & t1 & Hp & HI1 & Hperm).
    { intros i w Hin. apply (Hfr v i w); [left|done]. }
    { unfold vsize. lia. }
    destruct (push_map _ _ _ Hp) as [_ Hsz].
    destruct (IH h1 t1 HI1 Hnd) as (h' & t' & Hr & HI' & Hperm').
    + intros v' i w Hv' Hin. rewrite Hperm in Hin.
      apply elem_of_cons in Hin as [[= -> ->]|Hin].
      * intros Hk. apply Hv. rewrite Hk. by apply list_elem_of_fmap_2.
      * apply (Hfr v' i w); [by right|done].
    + rewrite Hsz. unfold vsize. lia.
    + exists h', t'. split; [|split; [done|]].
      * simpl. rewrite Hp. done.
      * rewrite Hperm', Hperm. simpl. by rewrite Permutation_middle.
Qed.

Lemma drain_spec pol n : ∀ h t,
  negatively_transitive → G → Inv G h t → length (nodes t) = n →
  ∃ out h', drain pol n h = Some (out, h') ∧ out ≡ₚ (nodes t).*2 ∧
    StronglySorted (λ a b, compare b a = false) out ∧ Inv G h' Lf.
Proof.
  induction n as [|n IH]; intros h t Hnt HG HI Hlen.
  - destruct t; [|done]. exists [], h.
  split; [done|]. split; [done|]. split; [constructor|done].
  - destruct (Inv_tree_cases h t HI) as [->|(vt & c & ->)]; [done|].
    destruct (pop_of_Inv pol h (top_ h) vt c HI)
      as (h1 & t1 & Hp & Ht & HI1 & Hperm).
    simpl in Hlen. rewrite app_nil_r in Hlen.
    destruct (IH h1 t1 Hnt HG HI1) as (out & h' & Hd & Hpo & Hso & HI').
    { rewrite Hperm. lia. }
    exists (vt :: out), h'. split; [|split; [|split; [|done]]].
    + simpl. rewrite Ht, obind_Some, Hp, obind_Some, Hd. done.
    + simpl. rewrite app_nil_r, Hpo, Hperm. done.
    + constructor; [done|]. rewrite Hpo, Hperm.
      apply Forall_forall. intros y ([j y'] & -> & Hin)%list_elem_of_fmap.
      eapply (ho_min vt c); [done|done|apply (inv_ho _ _ _ HI)|done].
Qed.

(** *** The value array as a multiset *)

Lemma Inv_keys_NoDup h t : Inv G h t → NoDup (key <$> (nodes t).*2).
Proof.
  intros HI. apply (NoDup_fmap_1 (λ k, default 0 (map_ h !! k))).
  assert ((λ k, default 0 (map_ h !! k)) <$> (key <$> (nodes t).*2)
          = (nodes t).*1) as ->; [|apply (inv_nodup _ _ _ HI)].
  rewrite <- !list_fmap_compose. apply list_fmap_ext.
  intros n [i v] Hn. simpl.
  destruct (inv_vals _ _ _ HI i v) as [_ ->];
    [by eapply list_elem_of_lookup_2|done].
Qed.

Lemma Inv_slot h t s v :
  Inv G h t → elements_ h !! s = Some v →
  ∃ i nd, (i, v) ∈ nodes t ∧ vec_at (data_ h) i = Some nd ∧
          item_index nd = N.of_nat s.
Proof.
  intros HI Hs.
  assert (vec_at (elements_ h) (N.of_nat s) = Some v) as Hv
    by (by rewrite vec_at_lookup, Nat2N.id).
  destruct (inv_surj _ _ _ HI (N.of_nat s)) as (i & ni & Hi & Hni & Hsl);
    [by eapply vec_at_lt|].
  destruct (Inv_node h t i HI Hi) as (nd & v' & Hnd & Hin & Hv' & _).
  assert (nd = ni) as -> by congruence. rewrite Hsl, Hv in Hv'.
  injection Hv' as <-. eauto.
Qed.

Lemma Inv_elements_NoDup h t : Inv G h t → NoDup (key <$> elements_ h).
Proof.
  intros HI. apply NoDup_alt. intros s1 s2 k H1 H2.
  rewrite list_lookup_fmap in H1, H2.
  destruct (elements_ h !! s1) as [v1|] eqn:E1; [|done].
  destruct (elements_ h !! s2) as [v2|] eqn:E2; [|done].
  simpl in H1, H2.
  destruct (Inv_slot h t s1 v1 HI E1) as (i1 & n1 & Hin1 & Hn1 & Hs1).
  destruct (Inv_slot h t s2 v2 HI E2) as (i2 & n2 & Hin2 & Hn2 & Hs2).
  assert (i1 = i2) as -> by (eapply (Inv_keys h t); [done..|congruence]).
  assert (n1 = n2) as -> by congruence. lia.
Qed.

(** The stored values are the values of the tree, each once. *)
Lemma Inv_elements_perm h t : Inv G h t → elements_ h ≡ₚ (nodes t).*2.
Proof.
  intros HI. apply NoDup_Permutation.
  - eapply NoDup_fmap_1, Inv_elements_NoDup, HI.
  - eapply NoDup_fmap_1, Inv_keys_NoDup, HI.
  - intros v. by apply Inv_elements.
Qed.

(** A heap that holds a value has a root, and [top] reads its value. *)
Lemma Inv_top h t :
  Inv G h t → size h ≠ 0 →
  ∃ vt c, t = Br (top_ h) vt c Lf ∧ top h = Some vt.
Proof.
  intros HI Hs. destruct (Inv_tree_cases h t HI) as [->|(vt & c & ->)].
  - destruct (Inv_Lf h HI) as [_ He]. unfold size in Hs.
    by rewrite He in Hs.
  - exists vt, c. split; [done|].
    destruct (Inv_root _ _ _ _ _ HI)
      as (_ & _ & _ & _ & nt & Hnt & _ & _ & _ & _ & _ & Hvt).
    apply value_at_Some. eauto.
Qed.

Lemma Inv_top_NONE h t : Inv G h t → top_ h = NONE ↔ size h = 0.
Proof.
  intros HI. split.
  - intros Ht. destruct (Inv_tree_cases h t HI) as [->|(vt & c & ->)].
    + destruct (Inv_Lf h HI) as [_ He]. unfold size. by rewrite He.
    + destruct (Inv_root _ _ _ _ _ HI)
        as (_ & _ & _ & _ & nt & Hnt%vec_at_lt & _).
      pose proof (inv_cap _ _ _ HI). pose proof max_size_lt_NONE. lia.
  - intros Hs. destruct (Inv_tree_cases h t HI) as [->|(vt & c & ->)];
      [by destruct (Inv_Lf h HI)|].
    destruct (inv_vals _ _ _ HI (top_ h) vt) as [Hv _]; [left|].
    apply value_at_Some in Hv as (nd & _ & Hv).
    apply vec_at_lt in Hv. unfold size in Hs. lia.
Qed.

Lemma Inv_least h rt vt c :
  G → negatively_transitive → Inv G h (Br rt vt c Lf) →
  ∀ v, v ∈ elements_ h → compare v vt = false.
Proof.
  intros HG Hnt HI v Hv. apply (Inv_elements _ _ _ HI) in Hv.
  apply list_elem_of_fmap in Hv as ([i v'] & -> & Hin). simpl in *.
  rewrite app_nil_r in Hin. apply elem_of_cons in Hin as [[= -> ->]|Hin].
  - destruct (compare vt vt) eqn:E; [|done].
    pose proof (asym HG _ _ E). congruence.
  - eapply (ho_min vt c); [done|done|apply (inv_ho _ _ _ HI)|done].
Qed.

(** The root after [push]: the new node when its value is preferred to
    the old top, the old root otherwise. *)
Lemma push_top_index h t x h' :
  Inv G h t → push x h = Some h' →
  top_ h' = match top h with
            | Some vt => if compare x vt then vsize (data_ h) else top_ h
            | None => vsize (data_ h)
            end.
Proof.
  intros HI. pose proof (inv_size _ _ _ HI) as Hsize.
  pose proof (inv_cap _ _ _ HI) as Hcap0.
  pose proof max_size_lt_NONE as Hmax. unfold NONE in Hmax.
  unfold push. cbv zeta. case_decide as Hcap; [done|].
  assert (size_minus_1 (vsize (elements_ h ++ [x])) = vsize (elements_ h))
    as Hse by (rewrite vsize_app; apply size_minus_1_succ; lia).
  assert (∀ o, size_minus_1 (vsize (data_ h ++ [o])) = vsize (data_ h))
    as Hsd by (intros o; rewrite vsize_app; apply size_minus_1_succ; lia).
  rewrite Hse, Hsd.
  set (obj := mk_node (vsize (elements_ h)) NONE NONE NONE NONE).
  destruct (decide (size h = 0)) as [Hz|Hz].
  - apply (Inv_top_NONE h t HI) in Hz as Ht. rewrite Ht, N.eqb_refl.
    intros [= <-]. simpl.
    destruct (top h) as [v|] eqn:E; [|done].
    by apply top_Some_guard in E.
  - destruct (Inv_top h t HI Hz) as (vt & c & -> & Ht). rewrite Ht.
    assert (top_ h ≠ NONE) as Hne by (by eapply top_Some_guard).
    apply N.eqb_neq in Hne. rewrite Hne. unfold meld.
    apply value_at_Some in Ht as (nt & Hnt & Hvt).
    assert (value_at (elements_ h ++ [x]) (data_ h ++ [obj])
              (vsize (data_ h)) = Some x) as ->.
    { apply value_at_Some. exists obj. split; apply vec_at_app_r. }
    assert (value_at (elements_ h ++ [x]) (data_ h ++ [obj]) (top_ h)
            = Some vt) as ->.
    { apply value_at_Some. exists nt.
      rewrite !vec_at_app_l by (by eapply vec_at_lt). done. }
    rewrite !obind_Some.
    destruct (compare x vt); intros Hp; inv_bind Hp; destruct x0 as [d2 w];
      injection Hp as <-; inv_bind Hx; by injection Hx as _ <-.
Qed.

Lemma push_elements x h h' :
  push x h = Some h' → elements_ h' = elements_ h ++ [x].
Proof.
  unfold push. cbv zeta. case_decide; [done|].
  destruct (_ =? _); [by intros [= <-]|].
  intros Hp. inv_bind Hp. destruct x0. by injection Hp as <-.
Qed.

Lemma push_top h t x :
  Inv G h t → (∀ i v, (i, v) ∈ nodes t → key v ≠ key x) →
  vsize (data_ h) < max_size →
  ∃ h', push x h = Some h' ∧
    top h' = Some (match top h with
                   | Some vt => if compare x vt then x else vt
                   | None => x
                   end).
Proof.
  intros HI Hfresh Hcap.
  destruct (push_Inv h t x HI Hfresh Hcap) as (h' & t' & Hp & HI' & Hperm).
  exists h'. split; [done|].
  pose proof (push_top_index h t x h' HI Hp) as Hti.
  pose proof (push_elements _ _ _ Hp) as He.
  assert (size h' ≠ 0) as Hz.
  { unfold size. rewrite He, vsize_app. lia. }
  destruct (Inv_top h' t' HI' Hz) as (vt' & c' & -> & ->). f_equal.
  assert ((top_ h', vt') ∈ (vsize (data_ h), x) :: nodes t) as Hin
    by (rewrite <- Hperm; left).
  assert (vsize (data_ h) ∉ idxs t) as Hnt.
  { intros Hn. eapply rep_lt in Hn; [|apply (inv_rep _ _ _ HI)]. lia. }
  assert (top_ h' = vsize (data_ h) → vt' = x) as Hnew.
  { intros E. rewrite E in Hin.
    apply elem_of_cons in Hin as [[= ->]|Hin]; [done|].
    exfalso. apply Hnt. apply idxs_elem_of. eauto. }
  destruct (top h) as [vt|] eqn:Et; [|by apply Hnew].
  destruct (compare x vt); [by apply Hnew|].
  assert (size h ≠ 0) as Hz0.
  { intros Hz0. apply (Inv_top_NONE h t HI) in Hz0.
    by apply top_Some_guard in Et; [|apply (inv_cap _ _ _ HI)]. }
  destruct (Inv_top h t HI Hz0) as (vt0 & c & -> & Et').
  assert (vt0 = vt) as -> by congruence.
  rewrite Hti in Hin.
  apply elem_of_cons in Hin as [[= E _]|Hin].
  - exfalso. apply Hnt. rewrite <- E. rewrite idxs_Br. left.
  - eapply (Inv_nodes_functional h); [done|done|left].
Qed.

(** *** Runs are defined *)

Lemma tracks_exists h t : Inv G h t → ∃ g, tracks g t.
Proof.
  intros HI. exists (list_to_map (nodes t)). intros n v. symmetry.
  apply elem_of_list_to_map. apply (inv_nodup _ _ _ HI).
Qed.

Lemma step_defined strict pol o h t :
  (G → strict = true) → Inv G h t →
  pre strict o h = true → pop_ready pol o h = true →
  (is_push o = true → vsize (data_ h) < max_size) →
  ∃ h', step pol o h = Some h'.
Proof.
  intros HG HI Hpre Hrd Hcap. destruct o as [x| |x]; simpl in *.
  - destruct (push_Inv h t x HI) as (h' & _ & Hp & _); eauto.
    by apply (fresh_nodes h).
  - destruct (decide (size h = 0)) as [Hz|Hz].
    + destruct pol; simpl in *.
      * exists h. apply pop_guard. by apply (Inv_top_NONE h t HI).
      * unfold empty in Hrd. unfold size in Hz. rewrite Hz in Hrd. done.
    + destruct (Inv_top h t HI Hz) as (vt & c & -> & _).
      destruct (pop_of_Inv pol h (top_ h) vt c HI) as (h' & _ & Hp & _).
      eauto.
  - apply andb_true_iff in Hpre as [Htr Hdec].
    destruct (tracked_nodes h t x HI Htr) as (i & vi & Hin & Hk).
    destruct (update_Inv h t x i vi HI Hin Hk) as (h' & _ & _ & Hu & _);
      [|eauto].
    intros HG'. rewrite (HG HG') in Hdec. done.
Qed.

Lemma run_defined strict pol ops : ∀ h t,
  (G → strict = true) → Inv G h t →
  run_pre strict pol ops h = true → run_ready pol ops h = true →
  vsize (data_ h) + N.of_nat (count_pushes ops) ≤ max_size →
  ∃ h', run pol ops h = Some h'.
Proof.
  induction ops as [|o ops IH]; intros h t HG HI Hpre Hrd Hcap;
    [by exists h|].
  simpl in Hpre, Hrd. apply andb_true_iff in Hpre as [Hp Hpre].
  apply andb_true_iff in Hrd as [Hr Hrd].
  rewrite count_pushes_cons in Hcap.
  destruct (step_defined strict pol o h t HG HI Hp Hr) as [h1 Hs].
  { intros Ho. rewrite Ho in Hcap. lia. }
  rewrite Hs in Hpre, Hrd.
  destruct (tracks_exists h t HI) as [g Hg].
  destruct (step_Inv strict pol o h h1 t g) as (t1 & HI1 & _); try done.
  destruct (step_lengths _ _ _ _ Hs) as [Hl _].
  destruct (IH h1 t1 HG HI1 Hpre Hrd) as [h' Hrun].
  { unfold vsize in *. destruct (is_push o); lia. }
  exists h'. simpl. by rewrite Hs.
Qed.

(** *** The entries of the internal map *)

Lemma update_map x h h' i :
  map_ h !! key x = Some i → update x h = Some h' → map_ h' = map_ h.
Proof.
  intros Hm. unfold update. rewrite (id_read_Some _ _ _ Hm).
  intros Hu. inv_bind Hu.
  destruct (i =? top_ h); [by injection Hu as <-|].
  inv_bind Hu. destruct x7. by injection Hu as <-.
Qed.

Lemma step_no_stale strict o h h' t :
  (G → strict = true) → Inv G h t → pre strict o h = true →
  step Internal o h = Some h' →
  (∀ k, is_Some (map_ h !! k) → k ∈ key <$> elements_ h) →
  ∀ k, is_Some (map_ h' !! k) → k ∈ key <$> elements_ h'.
Proof.
  intros HG HI Hpre Hstep Hst k Hk. destruct o as [x| |x]; simpl in *.
  - destruct (push_map _ _ _ Hstep) as [Hm _].
    rewrite (push_elements _ _ _ Hstep), fmap_app, elem_of_app.
    rewrite Hm in Hk. apply lookup_insert_is_Some in Hk as [<-|[_ Hk]].
    + right. simpl. left.
    + left. by apply Hst.
  - apply pop_internal_Some in Hstep as (v & h1 & Hv & Hp & ->).
    simpl in *.
    assert (size h ≠ 0) as Hz.
    { intros Hz. apply (Inv_top_NONE h t HI) in Hz.
      by apply top_Some_guard in Hv; [|apply (inv_cap _ _ _ HI)]. }
    destruct (Inv_top h t HI Hz) as (vt & c & -> & Hvt).
    assert (vt = v) as -> by congruence.
    destruct (pop_Inv h (top_ h) v c HI)
      as (h2 & t1 & Hp2 & _ & HI1 & Hperm & Hm).
    assert (h2 = h1) as -> by congruence.
    rewrite Hm in Hk.
    destruct (decide (k = key v)) as [->|Hne];
      [by rewrite lookup_delete_eq in Hk; destruct Hk|].
    rewrite lookup_delete_ne in Hk by done. apply Hst in Hk.
    rewrite (Inv_elements_perm _ _ HI) in Hk. simpl in Hk.
    rewrite app_nil_r in Hk. apply elem_of_cons in Hk as [?|Hk]; [done|].
    by rewrite (Inv_elements_perm _ _ HI1), Hperm.
  - apply andb_true_iff in Hpre as [Htr Hdec].
    destruct (tracked_nodes h t x HI Htr) as (i & vi & Hin & Hkx).
    destruct (update_Inv h t x i vi HI Hin Hkx)
      as (h2 & t' & rest & Hu & HI' & Hp1 & Hp2 & _).
    { intros HG'. rewrite (HG HG') in Hdec. done. }
    assert (h2 = h') as -> by congruence.
    destruct (inv_vals _ _ _ HI i vi Hin) as [_ Hmi]. rewrite Hkx in Hmi.
    rewrite (update_map _ _ _ _ Hmi Hu) in Hk. apply Hst in Hk.
    rewrite (Inv_elements_perm _ _ HI), Hp1 in Hk.
    rewrite (Inv_elements_perm _ _ HI'), Hp2. simpl in *. by rewrite <- Hkx.
Qed.

Lemma run_no_stale strict ops : ∀ h t,
  (G → strict = true) → Inv G h t →
  run_pre strict Internal ops h = true →
  (∀ k, is_Some (map_ h !! k) → k ∈ key <$> elements_ h) →
  ∀ h', run Internal ops h = Some h' →
  ∀ k, is_Some (map_ h' !! k) → k ∈ key <$> elements_ h'.
Proof.
  induction ops as [|o ops IH]; intros h t HG HI Hpre Hst h' Hrun;
    [by injection Hrun as <-|].
  simpl in Hpre, Hrun. apply andb_true_iff in Hpre as [Hp Hpre].
  destruct (step Internal o h) as [h1|] eqn:Hs; [|done]. simpl in Hrun.
  destruct (tracks_exists h t HI) as [g Hg].
  destruct (step_Inv strict Internal o h h1 t g) as (t1 & HI1 & _);
    try done.
  eapply (IH h1 t1); try done.
  by apply (step_no_stale strict o h h1 t).
Qed.

Lemma Inv_map_entries h t k :
  Inv G h t → k ∈ key <$> elements_ h → is_Some (map_ h !! k).
Proof.
  intros HI (v & -> & Hv)%list_elem_of_fmap.
  apply (Inv_elements _ _ _ HI) in Hv.
  apply list_elem_of_fmap in Hv as ([i v'] & -> & Hin).
  destruct (inv_vals _ _ _ HI i v' Hin) as [_ Hm]. eauto.
Qed.

End Invariant.

(** ** The heap-order invariant, the locator, and extraction order *)

(** C1 (amended): after any run from the empty heap in which no item is
    pushed while an item with the same locator key is stored, every
    [update] addresses a stored item and respects the decrease-key
    precondition, the arena is heap ordered, for an asymmetric
    [compare]. *)
Theorem heap_order_of_valid_runs pol ops h :
  asymmetric →
  run_pre true pol ops empty_heap = true →
  run pol ops empty_heap = Some h →
  heap_order h.
Proof.
  intros Hasym Hpre Hrun.
  destruct (run_Inv True (λ _, Hasym) true pol ops empty_heap h Lf ∅)
    as (t & HI & _); try done; try apply Inv_empty; try apply tracks_empty.
  by apply (Inv_heap_order True h t).
Qed.

(** C4 (amended): after any run from the empty heap in which no item is
    pushed while an item with the same locator key is stored and every
    [update] addresses a stored item, the locator applied to the latest
    value of an item that was pushed and not extracted yields the arena
    index of that item, whose [item_index] addresses that value. *)
Theorem locator_finds_stored_items pol ops h n v :
  run_pre false pol ops empty_heap = true →
  run pol ops empty_heap = Some h →
  items pol ops empty_heap ∅ !! n = Some v →
  id_read (map_ h) v = (n, map_ h) ∧ locates h v.
Proof.
  intros Hpre Hrun Hit.
  assert (False → asymmetric) as Hasym by done.
  destruct (run_Inv False Hasym false pol ops empty_heap h Lf ∅)
    as (t & HI & Hg); try done; try apply Inv_empty; try apply tracks_empty.
  apply Hg in Hit.
  destruct (inv_vals _ _ _ HI n v Hit) as [(nd & Hnd & Hv)%value_at_Some Hm].
  pose proof (id_read_Some _ _ _ Hm) as Hid. split; [done|].
  exists nd. by rewrite Hid.
Qed.

(** C2: pushing pairwise-distinct values, as many as the arena can hold,
    which a locator that tells distinct values apart files under distinct
    keys, and then reading [top()] and calling [pop()] as many times as
    values were pushed, is defined and yields those values in the order of
    [compare], a strict weak order; the heap is empty afterwards. *)
Theorem extraction_is_sorted pol vs :
  asymmetric → negatively_transitive →
  (∀ x y, key x = key y → x = y) →
  NoDup vs → vsize vs ≤ max_size →
  ∃ out h h',
    run pol (Push <$> vs) empty_heap = Some h ∧
    drain pol (length vs) h = Some (out, h') ∧
    out ≡ₚ vs ∧ StronglySorted (λ a b, compare b a = false) out ∧
    elements_ h' = [].
Proof.
  intros Hasym Hnt Hinj Hnd Hcap.
  destruct (run_pushes True (λ _, Hasym) pol vs empty_heap Lf)
    as (h & t & Hr & HI & Hperm).
  - apply Inv_empty.
  - apply NoDup_fmap_2; [|done]. intros x y. apply Hinj.
  - intros v i w _ Hin. by apply elem_of_nil in Hin.
  - simpl. unfold vsize at 1. simpl. lia.
  - simpl in Hperm. rewrite app_nil_r in Hperm.
    destruct (drain_spec True (λ _, Hasym) pol (length vs) h t)
      as (out & h' & Hd & Hpo & Hso & HI'); try done.
    { by rewrite <- Hperm, length_fmap. }
    exists out, h, h'. do 2 (split; [done|]).
    split; [by rewrite Hpo|]. split; [done|].
    by destruct (Inv_Lf True h' HI').
Qed.




(** ** [pop] on any empty heap *)

Lemma pop_at_guard h :
  top_ h = NONE → vsize (data_ h) ≤ max_size →
  pop_of External h = Some h ∧ pop_of Internal h = None.
Proof.
  intros Ht Hcap. split; [by apply pop_guard|].
  simpl. unfold pop_internal.
  destruct (top h) as [v|] eqn:E; [|done].
  by apply top_Some_guard in E.
Qed.

Lemma Inv_size_zero G h t : Inv G h t → size h = 0 → top_ h = NONE.
Proof.
  intros HI Hs.
  destruct (Inv_tree_cases G h t HI) as [->|(vt & c & ->)];
    [by destruct (Inv_Lf G h HI)|].
  destruct (inv_vals _ _ _ HI (top_ h) vt) as [Hv _]; [left|].
  apply value_at_Some in Hv as (nd & _ & Hv).
  apply vec_at_lt in Hv. unfold size in Hs. lia.
Qed.

(** After a run in which no item is pushed while an item with the same
    locator key is stored and every [update] addresses a stored item, a
    heap of size zero is at the guard of [pop]. *)
Lemma pop_on_heap_of_size_zero pol ops h :
  run_pre false pol ops empty_heap = true →
  run pol ops empty_heap = Some h → size h = 0 →
  pop_of External h = Some h ∧ pop_of Internal h = None.
Proof.
  intros Hpre Hrun Hs.
  assert (False → asymmetric) as Hasym by done.
  destruct (run_Inv False Hasym false pol ops empty_heap h Lf ∅)
    as (t & HI & _); try done; try apply Inv_empty; try apply tracks_empty.
  apply pop_at_guard; [by eapply Inv_size_zero|apply (inv_cap _ _ _ HI)].
Qed.


(** ** Heaps reached by valid runs *)

Lemma valid_run_Inv pol ops h :
  run_pre false pol ops empty_heap = true →
  run pol ops empty_heap = Some h → ∃ t, Inv False h t.
Proof.
  intros Hpre Hrun.
  assert (False → asymmetric) as Hasym by done.
  destruct (run_Inv False Hasym false pol ops empty_heap h Lf ∅)
    as (t & HI & _); try done; try apply Inv_empty; try apply tracks_empty.
  eauto.
Qed.

Lemma strict_run_Inv pol ops h :
  asymmetric → run_pre true pol ops empty_heap = true →
  run pol ops empty_heap = Some h → ∃ t, Inv True h t.
Proof.
  intros Hasym Hpre Hrun.
  destruct (run_Inv True (λ _, Hasym) true pol ops empty_heap h Lf ∅)
    as (t & HI & _); try done; try apply Inv_empty; try apply tracks_empty.
  eauto.
Qed.

(** X1: after a run in which no item is pushed while an item with the
    same locator key is stored and every [update] addresses a stored item
    and respects the decrease-key precondition, [top()] of a heap that is
    not empty returns a stored value to which no stored value is
    preferred, for a strict weak order [compare]. *)
Theorem top_is_least pol ops h :
  asymmetric → negatively_transitive →
  run_pre true pol ops empty_heap = true →
  run pol ops empty_heap = Some h → size h ≠ 0 →
  ∃ vt, top h = Some vt ∧ vt ∈ elements_ h ∧
        ∀ v, v ∈ elements_ h → compare v vt = false.
Proof.
  intros Hasym Hnt Hpre Hrun Hz.
  destruct (strict_run_Inv pol ops h Hasym Hpre Hrun) as [t HI].
  destruct (Inv_top True h t HI Hz) as (vt & c & -> & Ht).
  exists vt. split; [done|]. split.
  - apply (Inv_elements True h _ vt HI). simpl. left.
  - by apply (Inv_least True (λ _, Hasym) h (top_ h) vt c).
Qed.

(** X2: after a run in which no item is pushed while an item with the
    same locator key is stored and every [update] addresses a stored
    item, [pop()] on a heap that is not empty is defined and removes from
    the stored values exactly one occurrence of the value [top()]
    returns. *)
Theorem pop_removes_the_top pol ops h :
  run_pre false pol ops empty_heap = true →
  run pol ops empty_heap = Some h → size h ≠ 0 →
  ∃ vt h', top h = Some vt ∧ pop_of pol h = Some h' ∧
           elements_ h ≡ₚ vt :: elements_ h' ∧
           size h = size h' + 1.
Proof.
  intros Hpre Hrun Hz.
  destruct (valid_run_Inv pol ops h Hpre Hrun) as [t HI].
  assert (False → asymmetric) as Hasym by done.
  destruct (Inv_top False h t HI Hz) as (vt & c & -> & Ht).
  destruct (pop_of_Inv False Hasym pol h (top_ h) vt c HI)
    as (h' & t' & Hp & _ & HI' & Hperm).
  assert (elements_ h ≡ₚ vt :: elements_ h') as He.
  { rewrite (Inv_elements_perm False h _ HI).
    rewrite (Inv_elements_perm False h' _ HI'), Hperm.
    simpl. by rewrite app_nil_r. }
  exists vt, h'. do 3 (split; [done|]).
  unfold size, vsize. rewrite He. simpl. lia.
Qed.

(** X3: on a heap reached by such a run, [push(x)] of an item whose
    locator key no stored item has, below the capacity of the arena, is
    defined, appends [x] to the stored values, and makes [x] the top if
    and only if the heap was empty or [compare(x, top())] holds; the old
    top stays otherwise. *)
Theorem push_sets_the_top pol ops h x :
  run_pre false pol ops empty_heap = true →
  run pol ops empty_heap = Some h →
  fresh x h = true → vsize (data_ h) < max_size →
  ∃ h', push x h = Some h' ∧
    elements_ h' = elements_ h ++ [x] ∧
    top h' = Some (match top h with
                   | Some vt => if compare x vt then x else vt
                   | None => x
                   end).
Proof.
  intros Hpre Hrun Hf Hcap.
  destruct (valid_run_Inv pol ops h Hpre Hrun) as [t HI].
  assert (False → asymmetric) as Hasym by done.
  destruct (push_top False Hasym h t x HI) as (h' & Hp & Ht); try done.
  { by apply (fresh_nodes False h). }
  exists h'. split; [done|]. split; [|done]. by eapply push_elements.
Qed.

(** X4: on a heap reached by such a run, [update(x)] for an [x] whose
    locator key a stored item has is defined and replaces the stored
    value with that key by [x]; every other stored value, and the size,
    stay. *)
Theorem update_replaces_the_value pol ops h x :
  run_pre false pol ops empty_heap = true →
  run pol ops empty_heap = Some h →
  tracked x h = true →
  ∃ h' old rest, update x h = Some h' ∧ key old = key x ∧
    elements_ h ≡ₚ old :: rest ∧ elements_ h' ≡ₚ x :: rest ∧
    size h' = size h ∧ map_ h' = map_ h.
Proof.
  intros Hpre Hrun Htr.
  destruct (valid_run_Inv pol ops h Hpre Hrun) as [t HI].
  assert (False → asymmetric) as Hasym by done.
  destruct (tracked_nodes False h t x HI Htr) as (i & vi & Hin & Hk).
  destruct (update_Inv False Hasym h t x i vi HI Hin Hk)
    as (h' & t' & rest & Hu & HI' & Hp1 & Hp2 & _); [done|].
  assert (elements_ h ≡ₚ vi :: rest.*2) as He
    by (by rewrite (Inv_elements_perm False h _ HI), Hp1).
  assert (elements_ h' ≡ₚ x :: rest.*2) as He'
    by (by rewrite (Inv_elements_perm False h' _ HI'), Hp2).
  exists h', vi, (rest.*2). do 4 (split; [done|]). split.
  - unfold size, vsize. by rewrite He, He'.
  - destruct (inv_vals _ _ _ HI i vi Hin) as [_ Hm]. rewrite Hk in Hm.
    by eapply update_map.
Qed.

(** X5: a run from the empty heap in which no item is pushed while an
    item with the same locator key is stored, every [update] addresses a
    stored item, the front end with the internal map is not asked to
    [pop] an empty heap, and the pushes are at most the capacity of the
    arena, is defined: no call reads or writes outside the arena or the
    value array. *)
Theorem valid_runs_are_defined pol ops :
  run_pre false pol ops empty_heap = true →
  run_ready pol ops empty_heap = true →
  N.of_nat (count_pushes ops) ≤ max_size →
  ∃ h, run pol ops empty_heap = Some h.
Proof.
  intros Hpre Hrd Hcap.
  assert (False → asymmetric) as Hasym by done.
  apply (run_defined False Hasym false pol ops empty_heap Lf); try done.
  apply Inv_empty.
Qed.

(** X6: after a run in which no item is pushed while an item with the
    same locator key is stored and every [update] addresses a stored item
    and respects the decrease-key precondition, reading [top()] and
    calling [pop()] [size()] times is defined, yields the stored values
    in the order of [compare], a strict weak order, and leaves the heap
    empty. *)
Theorem drain_after_run_is_sorted pol ops h :
  asymmetric → negatively_transitive →
  run_pre true pol ops empty_heap = true →
  run pol ops empty_heap = Some h →
  ∃ out h', drain pol (N.to_nat (size h)) h = Some (out, h') ∧
    out ≡ₚ elements_ h ∧
    StronglySorted (λ a b, compare b a = false) out ∧
    size h' = 0.
Proof.
  intros Hasym Hnt Hpre Hrun.
  destruct (strict_run_Inv pol ops h Hasym Hpre Hrun) as [t HI].
  pose proof (Inv_elements_perm True h t HI) as He.
  destruct (drain_spec True (λ _, Hasym) pol (N.to_nat (size h)) h t)
    as (out & h' & Hd & Hpo & Hso & HI'); try done.
  { unfold size, vsize. rewrite Nat2N.id, He. by rewrite length_fmap. }
  exists out, h'. split; [done|]. split; [by rewrite Hpo, He|].
  split; [done|]. destruct (Inv_Lf True h' HI') as [_ E].
  unfold size. by rewrite E.
Qed.

(** X7: with the internal map, after a run in which no item is pushed
    while an equal item is stored and every [update] addresses a stored
    item, the map has an entry for a key if and only if a stored value
    has that key: [pop] leaves no entry of an extracted item behind. *)
Theorem internal_map_holds_the_stored_keys ops h :
  run_pre false Internal ops empty_heap = true →
  run Internal ops empty_heap = Some h →
  ∀ k, is_Some (map_ h !! k) ↔ k ∈ key <$> elements_ h.
Proof.
  intros Hpre Hrun k.
  destruct (valid_run_Inv Internal ops h Hpre Hrun) as [t HI].
  assert (False → asymmetric) as Hasym by done.
  split; [|by apply (Inv_map_entries False h t)].
  apply (run_no_stale False Hasym false ops empty_heap Lf); try done.
  - apply Inv_empty.
  - simpl. intros k' Hk'. rewrite lookup_empty in Hk'. by destruct Hk'.
Qed.

(** X8: after such a run the root index is the sentinel exactly when the
    heap is empty, and [top()] reads inside the arena and the value array
    exactly when it is not: the guard of [pop], which tests the root
    index, and [empty()], which tests the number of values, agree. *)
Theorem top_is_defined_iff_not_empty pol ops h :
  run_pre false pol ops empty_heap = true →
  run pol ops empty_heap = Some h →
  (top_ h = NONE ↔ empty h = true) ∧ (is_Some (top h) ↔ empty h = false).
Proof.
  intros Hpre Hrun.
  destruct (valid_run_Inv pol ops h Hpre Hrun) as [t HI].
  pose proof (Inv_top_NONE False h t HI) as Hn.
  unfold empty. fold (size h). rewrite N.eqb_eq, N.eqb_neq.
  split; [done|]. split.
  - intros [v Hv] Hz. apply Hn in Hz.
    by apply top_Some_guard in Hv; [|apply (inv_cap _ _ _ HI)].
  - intros Hz. destruct (Inv_top False h t HI Hz) as (vt & c & _ & Ht).
    eauto.
Qed.


(** ** [print] *)

Lemma print_recur_S fuel e d x :
  print_recur (S fuel) e d x =
    if x =? NONE then Some []
    else
      v ← value_at e d x;
      nd ← vec_at d x;
      if child nd =? NONE then Some [Value v]
      else r ← print_children fuel e d (child nd);
           Some (Value v :: Open :: r ++ [Close]).
Proof. reflexivity. Qed.

Lemma print_children_S fuel e d i :
  print_children (S fuel) e d i =
    r ← print_recur fuel e d i;
    nd ← vec_at d i;
    if right_sibling nd =? NONE then Some (r ++ [Space])
    else rest ← print_children fuel e d (right_sibling nd);
         Some (r ++ Space :: rest).
Proof. reflexivity. Qed.

(** On a sibling chain of a tree of the arena, the loop of [print_recur]
    writes the chain, given fuel for two steps a node. *)
Lemma print_children_spec e d :
  vsize d ≤ max_size →
  ∀ t p l fuel,
    rep d t p l →
    (∀ i v, (i, v) ∈ nodes t → value_at e d i = Some v) →
    t ≠ Lf → (2 * length (nodes t) ≤ fuel)%nat →
    print_children fuel e d (root t) = Some (render t).
Proof.
  intros Hcap. induction t as [|i v c IHc s IHs]; [done|].
  intros p l fuel Hrep Hval _ Hfuel.
  pose proof (root_not_NONE _ _ _ _ _ _ _ Hcap Hrep) as Hi.
  apply N.eqb_neq in Hi.
  destruct Hrep as (nd & Hnd & _ & _ & Hc & Hs & Hrc & Hrs).
  simpl in Hfuel. rewrite length_app in Hfuel.
  destruct fuel as [|[|fuel]]; [lia..|].
  cbn [root]. rewrite print_children_S, print_recur_S, Hi.
  rewrite (Hval i v) by left. rewrite obind_Some, Hnd, obind_Some, Hc.
  assert ((if root c =? NONE then Some [Value v]
           else r ← print_children fuel e d (root c);
                Some (Value v :: Open :: r ++ [Close]))
          = Some (Value v :: match c with
                             | Lf => []
                             | Br _ _ _ _ => Open :: render c ++ [Close]
                             end)) as ->.
  { destruct c as [|ic vc cc sc]; [done|].
    pose proof (root_not_NONE _ _ _ _ _ _ _ Hcap Hrc) as Hic.
    apply N.eqb_neq in Hic.
    change ic with (root (Br ic vc cc sc)) in Hic. rewrite Hic.
    rewrite (IHc i NONE fuel Hrc); [done| |done|lia].
    intros j w Hj. apply Hval. right. apply elem_of_app. by left. }
  rewrite !obind_Some, Hs.
  destruct s as [|js ws cs ss]; [done|].
  pose proof (root_not_NONE _ _ _ _ _ _ _ Hcap Hrs) as His.
  apply N.eqb_neq in His.
  change js with (root (Br js ws cs ss)) in His. rewrite His.
  rewrite (IHs p i (S fuel) Hrs); [done| |done|lia].
  intros j w Hj. apply Hval. right. apply elem_of_app. by right.
Qed.

Lemma printed_values_app out1 out2 :
  printed_values (out1 ++ out2)
  = printed_values out1 ++ printed_values out2.
Proof. apply omap_app. Qed.

Lemma printed_values_render t : printed_values (render t) = (nodes t).*2.
Proof.
  induction t as [|i v c IHc s IHs]; [done|].
  cbn [render nodes]. rewrite printed_values_app, fmap_cons, fmap_app.
  rewrite <- IHc, <- IHs.
  change (printed_values (Space :: render s))
    with (printed_values (render s)).
  destruct c as [|ic vc cc sc]; [done|].
  change (printed_values (Value v :: Open :: render (Br ic vc cc sc)
                          ++ [Close]))
    with (v :: printed_values (render (Br ic vc cc sc) ++ [Close])).
  rewrite printed_values_app. simpl. by rewrite app_nil_r.
Qed.

(** X16: on a heap reached by a run in which no item is pushed while an
    item with the same locator key is stored and every [update]
    addresses a stored item, [print] returns; it writes nothing for the
    empty heap, and otherwise the top value first and the end of line
    last, and every stored value once. *)
Theorem print_writes_every_value pol ops h :
  run_pre false pol ops empty_heap = true →
  run pol ops empty_heap = Some h →
  ∃ out, print h = Some out ∧
    printed_values out ≡ₚ elements_ h ∧
    (empty h = true → out = []) ∧
    (empty h = false →
     ∃ vt rest, top h = Some vt ∧ out = Value vt :: rest ++ [Endl]).
Proof.
  intros Hpre Hrun.
  destruct (valid_run_Inv pol ops h Hpre Hrun) as [t HI].
  pose proof (inv_cap _ _ _ HI) as Hcap.
  assert (empty h = true ↔ size h = 0) as Hem
    by (unfold empty, size; apply N.eqb_eq).
  assert (empty h = false ↔ size h ≠ 0) as Hnem
    by (unfold empty, size; apply N.eqb_neq).
  unfold print.
  destruct (decide (size h = 0)) as [Hz|Hz].
  - apply (Inv_top_NONE False h t HI) in Hz as Ht.
    rewrite Ht, N.eqb_refl. exists []. split; [done|].
    split; [|split; [done|by intros ?%Hnem]].
    unfold size, vsize in Hz.
    destruct (elements_ h); [done|simpl in Hz; lia].
  - destruct (Inv_top False h t HI Hz) as (vt & c & -> & Hvt).
    assert (top_ h ≠ NONE) as Hne by (by eapply top_Some_guard).
    apply N.eqb_neq in Hne as Hne'. rewrite Hne'.
    destruct (inv_rep _ _ _ HI) as (nt & Hnt & _ & _ & Hc & _ & Hrc & _).
    rewrite print_recur_S, Hne'. fold (top h). rewrite Hvt, obind_Some.
    rewrite Hnt, obind_Some, Hc.
    assert (elements_ h ≡ₚ vt :: (nodes c).*2) as He.
    { rewrite (Inv_elements_perm False h _ HI). simpl.
      by rewrite app_nil_r. }
    destruct c as [|ic vc cc sc].
    + exists [Value vt; Endl]. split; [done|]. split; [by rewrite He|].
      split; [by intros ?%Hem|]. intros _. by exists vt, [].
    + pose proof (root_not_NONE (data_ h) ic vc cc sc (top_ h) NONE Hcap Hrc)
        as Hic.
      apply N.eqb_neq in Hic.
      change ic with (root (Br ic vc cc sc)) in Hic. rewrite Hic.
      rewrite (print_children_spec (elements_ h) (data_ h) Hcap
                 (Br ic vc cc sc) (top_ h) NONE); [|done| |done|].
      * eexists. split; [done|]. split; [|split; [by intros ?%Hem|]].
        -- rewrite He. cbn [app].
           change (printed_values (Value vt :: ?l))
             with (vt :: printed_values l).
           change (printed_values (Open :: ?l)) with (printed_values l).
           rewrite !printed_values_app, printed_values_render.
           simpl. by rewrite !app_nil_r.
        -- intros _. eexists vt, _. split; [done|]. reflexivity.
      * intros j w Hj. apply (inv_vals _ _ _ HI). simpl.
        right. rewrite app_nil_r. done.
      * assert (length (nodes (Br ic vc cc sc)) ≤ length (data_ h))%nat.
        { rewrite <- (length_fmap fst). apply NoDup_lt_length.
          - pose proof (inv_nodup _ _ _ HI) as Hnd. rewrite idxs_Br in Hnd.
            simpl in Hnd. rewrite app_nil_r in Hnd.
            by apply NoDup_cons in Hnd as [_ ?].
          - intros j Hj.
            apply (rep_lt (data_ h) (Br ic vc cc sc) (top_ h) NONE j Hrc Hj). }
        lia.
Qed.


(** ** A caller-owned locator after [pop] *)

(** X17: with a caller-owned locator, [pop] writes nothing to the
    locator: the entry of the extracted item stays and resolves to its
    node, which is dead, and an [update] addressed to the extracted item
    then indexes the value array with the sentinel: it is undefined. *)
Theorem update_of_extracted_item_is_undefined ops h x vt :
  run_pre false External ops empty_heap = true →
  run External ops empty_heap = Some h →
  top h = Some vt → key x = key vt →
  ∃ h', pop_of External h = Some h' ∧ map_ h' = map_ h ∧
    map_ h' !! key x = Some (top_ h) ∧
    vec_at (data_ h') (top_ h) = Some dead_node ∧
    update x h' = None.
Proof.
  intros Hpre Hrun Htop Hk.
  destruct (valid_run_Inv External ops h Hpre Hrun) as [t HI].
  assert (False → asymmetric) as Hasym by done.
  assert (top_ h ≠ NONE) as Hne
    by (eapply top_Some_guard; [apply (inv_cap _ _ _ HI)|done]).
  assert (size h ≠ 0) as Hz
    by (intros Hz; by apply (Inv_top_NONE False h t HI) in Hz).
  destruct (Inv_top False h t HI Hz) as (vt0 & c & -> & Htop').
  assert (vt0 = vt) as -> by congruence.
  destruct (pop_Inv False Hasym h (top_ h) vt c HI)
    as (h' & t' & Hp & _ & HI' & _ & Hm).
  destruct (pop_facts _ _ Hne Hp) as (_ & Hdead & _).
  destruct (inv_vals _ _ _ HI (top_ h) vt) as [_ Hmt]; [left|].
  exists h'. split; [done|]. split; [done|].
  assert (map_ h' !! key x = Some (top_ h)) as Hmx by congruence.
  do 2 (split; [done|]).
  unfold update. rewrite (id_read_Some _ _ _ Hmx), Hdead, obind_Some.
  unfold vec_set. simpl. rewrite decide_False; [done|].
  pose proof (inv_size _ _ _ HI'). pose proof (inv_cap _ _ _ HI').
  pose proof max_size_lt_NONE. lia.
Qed.

End Engine.

(** * The heap without [update], through the engine on tagged values *)

(** [pairing_heap] over [T] runs as the engine does over values tagged with
    the arena index of their node, the tag being the locator key: what
    [reversemap_] holds for a slot is the tag of the value in that slot. *)
Section Simple.
Context {T : Type}.
Variable compare : T → T → bool.

Local Abbreviation by_value := (λ a b : N * T, compare a.2 b.2).
Local Abbreviation theap := (@heap N _ _ (N * T)).
Local Abbreviation forget h :=
  (mk_pairing_heap (@snd N T <$> elements_ h) (data_ h)
     (@fst N T <$> elements_ h) (top_ h)).
Local Abbreviation tagged t := (∀ i (v : N * T), (i, v) ∈ nodes t → v.1 = i).


Lemma vec_at_fmap {A B} (f : A → B) (v : list A) i :
  vec_at (f <$> v) i = f <$> vec_at v i.
Proof.
  unfold vec_at, vsize. rewrite length_fmap.
  case_decide; [apply list_lookup_fmap|done].
Qed.

Lemma vsize_fmap {A B} (f : A → B) (v : list A) : vsize (f <$> v) = vsize v.
Proof. unfold vsize. by rewrite length_fmap. Qed.

Lemma vec_set_fmap {A B} (f : A → B) (v : list A) i x :
  vec_set (f <$> v) i (f x) = (λ w : list A, f <$> w) <$> vec_set v i x.
Proof.
  unfold vec_set. rewrite vsize_fmap. case_decide; [|done].
  simpl. by rewrite list_fmap_insert.
Qed.

Lemma pop_back_fmap {A B} (f : A → B) (v : list A) :
  pop_back (f <$> v) = (λ w : list A, f <$> w) <$> pop_back v.
Proof.
  destruct v as [|a v] using rev_ind; [done|].
  rewrite fmap_app. simpl.
  assert (∀ {C} (w : list C) c, pop_back (w ++ [c]) = Some w) as Hpb.
  { intros C w c. apply pop_back_Some.
    split; [by destruct w|by rewrite removelast_last]. }
  by rewrite !Hpb.
Qed.

Lemma value_at_fmap {A B} (f : A → B) (e : list A) d i :
  value_at (f <$> e) d i = f <$> value_at e d i.
Proof.
  unfold value_at. destruct (vec_at d i); simpl; [|done]. apply vec_at_fmap.
Qed.

Section Values.
Context {A : Type} (f : A → T).
Local Abbreviation through := (λ a b : A, compare (f a) (f b)).

(** Both sides run the same binds; a value read through [f] is [f] of the
    value read. *)
Local Ltac bind_eq :=
  repeat first
    [ reflexivity | rewrite !value_at_fmap
    | match goal with
      | |- context [(?g <$> ?m) ≫= _] => destruct m; simpl
      | |- (?x ≫= _) = (?x ≫= _) => destruct x; simpl; [|reflexivity]
      | |- (let '(_, _) := ?p in _) = _ => destruct p
      end ].

Lemma meld_fmap (e : list A) d i top :
  meld compare (f <$> e) d i top = meld through e d i top.
Proof. unfold meld. bind_eq. Qed.

Lemma pairing_body_fmap (e : list A) s :
  pairing_body compare (f <$> e) s = pairing_body through e s.
Proof.
  unfold pairing_body.
  bind_eq.
Qed.

Lemma pairing_loop_fmap fuel (e : list A) : ∀ s,
  pairing_loop compare fuel (f <$> e) s = pairing_loop through fuel e s.
Proof.
  induction fuel as [|fuel IH]; intros s; [done|]. simpl.
  destruct (pairing_cond s) as [[]|]; simpl; [|done|done].
  rewrite pairing_body_fmap.
  destruct (pairing_body through e s); simpl; [apply IH|done].
Qed.

Lemma accum_body_fmap (e : list A) d nt :
  accum_body compare (f <$> e) d nt = accum_body through e d nt.
Proof.
  unfold accum_body.
  bind_eq.
Qed.

Lemma accum_loop_fmap fuel (e : list A) : ∀ d nt,
  accum_loop compare fuel (f <$> e) d nt = accum_loop through fuel e d nt.
Proof.
  induction fuel as [|fuel IH]; intros d nt; [done|]. simpl.
  destruct (accum_cond d nt) as [[]|]; simpl; [|done|done].
  rewrite accum_body_fmap.
  destruct (accum_body through e d nt) as [[d' nt']|]; simpl; [apply IH|done].
Qed.

Lemma pop_children_fmap (e : list A) d top :
  pop_children compare (f <$> e) d top = pop_children through e d top.
Proof.
  unfold pop_children. destruct (vec_at d top) as [nt|]; [|done].
  rewrite !obind_Some. cbv beta zeta. rewrite pairing_loop_fmap.
  destruct (pairing_loop _ _ _ _) as [s|]; [|done].
  rewrite !obind_Some. cbv beta.
  destruct (pairing_odd s) as [[d' nt']|]; [|done].
  rewrite obind_Some. apply accum_loop_fmap.
Qed.

End Values.

(** ** One call of [pairing_heap] as one call of the engine *)

Lemma by_value_asymmetric : asymmetric compare → asymmetric by_value.
Proof. intros Ha [a x] [b y]. apply Ha. Qed.

Lemma by_value_negatively_transitive :
  negatively_transitive compare → negatively_transitive by_value.
Proof. intros Hn [a x] [b y] [c z]. apply Hn. Qed.

Lemma top_sim (h : theap) :
  ph_top (forget h) = @snd N T <$> top h.
Proof. apply value_at_fmap. Qed.

Lemma push_sim x (h : theap) :
  ph_push compare x (forget h)
  = (λ h', forget h') <$> push fst by_value (vsize (data_ h), x) h.
Proof.
  unfold ph_push, push. cbv zeta.
  cbn [ph_top_ ph_elements_ ph_data_ reversemap_].
  case_decide as Hcap; [done|].
  pose proof max_size_lt_NONE as Hmax. unfold NONE in Hmax.
  rewrite !vsize_app, vsize_fmap.
  rewrite (size_minus_1_succ (vsize (data_ h))) by lia.
  destruct (top_ h =? NONE).
  - simpl. by rewrite !fmap_app.
  - replace ((elements_ h).*2 ++ [x])
      with ((elements_ h ++ [(vsize (data_ h), x)]).*2)
      by (by rewrite fmap_app).
    rewrite (meld_fmap snd).
    destruct (meld _ _ _ _ _) as [[d t]|]; simpl; [|done].
    by rewrite !fmap_app.
Qed.

Lemma compact_sim G (h : theap) t d1 nt :
  Inv fst by_value G h t → tagged t →
  ph_compact (forget h) d1 nt
  = (λ h', forget h') <$> pop_compact fst h d1 nt.
Proof.
  intros HI Htag. unfold ph_compact, pop_compact. cbv zeta.
  cbn [ph_top_ ph_elements_ ph_data_ reversemap_].
  rewrite !vsize_fmap, !vec_at_fmap.
  destruct (vec_at (elements_ h) (size_minus_1 (vsize (elements_ h))))
    as [lst|] eqn:El; simpl; [|done].
  assert (id_read fst (map_ h) lst = (lst.1, map_ h)) as ->.
  { apply vec_at_elem_of in El. apply (Inv_elements _ _ _ _ _ _ HI) in El.
    apply list_elem_of_fmap in El as ([i v] & -> & Hin).
    destruct (inv_vals _ _ _ _ _ HI i v Hin) as [_ Hm]. simpl.
    rewrite (Htag i v Hin). by apply id_read_Some. }
  destruct (vec_at d1 (top_ h)) as [n0|]; simpl; [|done].
  rewrite (vec_set_fmap snd), (vec_set_fmap fst).
  destruct (vec_set (elements_ h) (item_index n0) lst) as [e1|]; simpl;
    [|done].
  repeat match goal with
         | |- (?x ≫= _) = _ <$> (?x ≫= _) =>
             destruct x; simpl; [|reflexivity]
         end.
  rewrite (pop_back_fmap snd), (pop_back_fmap fst).
  by destruct (pop_back e1).
Qed.

Lemma pop_sim G (h : theap) t :
  Inv fst by_value G h t → tagged t →
  ph_pop compare (forget h) = (λ h', forget h') <$> pop fst by_value h.
Proof.
  intros HI Htag. unfold ph_pop, pop.
  cbn [ph_top_ ph_elements_ ph_data_ reversemap_].
  destruct (top_ h =? NONE); [done|].
  rewrite (pop_children_fmap snd).
  destruct (pop_children _ _ _ _) as [[d1 nt]|]; [|done].
  rewrite !obind_Some. cbv beta iota. by eapply compact_sim.
Qed.

(** ** Runs of [pairing_heap] as runs of the engine *)

Local Abbreviation TInv := (Inv (@fst N T) by_value).

Lemma push_cap {K} `{Countable K} {A} (key : A → K) cmp x (h h' : heap) :
  push key cmp x h = Some h' → vsize (data_ h) < max_size.
Proof. unfold push. cbv zeta. case_decide; [done|]. lia. Qed.

Lemma tag_is_fresh G (h : theap) t (x : T) :
  TInv G h t → tagged t →
  ∀ i (v : N * T), (i, v) ∈ nodes t → fst v ≠ fst (vsize (data_ h), x).
Proof.
  intros HI Htag i v Hin Hk. simpl in Hk. rewrite (Htag i v Hin) in Hk.
  subst i.
  assert (vsize (data_ h) ∈ (nodes t).*1) as Hi
    by (apply list_elem_of_fmap; by exists (vsize (data_ h), v)).
  eapply rep_lt in Hi; [|eapply inv_rep, HI]. lia.
Qed.

Lemma ph_push_sim G (asym : G → asymmetric by_value) (h : theap) t x :
  TInv G h t → tagged t → vsize (data_ h) < max_size →
  ∃ h' t', ph_push compare x (forget h) = Some (forget h') ∧
    push fst by_value (vsize (data_ h), x) h = Some h' ∧
    TInv G h' t' ∧ tagged t' ∧
    nodes t' ≡ₚ (vsize (data_ h), (vsize (data_ h), x)) :: nodes t.
Proof.
  intros HI Htag Hcap.
  destruct (push_Inv fst by_value G asym h t (vsize (data_ h), x) HI)
    as (h' & t' & Hp & HI' & Hperm); [by eapply tag_is_fresh|done|].
  exists h', t'. rewrite push_sim, Hp. do 3 (split; [done|]).
  split; [|done]. intros i v Hin. rewrite Hperm in Hin.
  apply elem_of_cons in Hin as [[= -> ->]|Hin]; [done|by apply Htag].
Qed.

Lemma ph_pop_sim G (asym : G → asymmetric by_value) (h : theap) t :
  TInv G h t → tagged t →
  ∃ h' t', ph_pop compare (forget h) = Some (forget h') ∧
    pop fst by_value h = Some h' ∧ TInv G h' t' ∧ tagged t' ∧
    (size h = 0 → h' = h) ∧
    (size h ≠ 0 → ∃ vt, top h = Some vt ∧
                        elements_ h ≡ₚ vt :: elements_ h').
Proof.
  intros HI Htag. rewrite (pop_sim G h t HI Htag).
  destruct (decide (size h = 0)) as [Hz|Hz].
  - exists h, t. apply (Inv_top_NONE _ _ _ _ _ HI) in Hz as Ht.
    rewrite (pop_guard fst by_value h Ht). do 5 (split; [done|]). done.
  - destruct (Inv_top _ _ _ _ _ HI Hz) as (vt & c & -> & Hvt).
    destruct (pop_Inv fst by_value G asym h (top_ h) vt c HI)
      as (h' & t' & Hp & _ & HI' & Hperm & _).
    exists h', t'. rewrite Hp. do 3 (split; [done|]). split; [|split].
    + intros i v Hin. apply Htag. rewrite Hperm in Hin. simpl.
      right. rewrite app_nil_r. done.
    + done.
    + intros _. exists vt. split; [done|].
      rewrite (Inv_elements_perm _ _ _ _ _ HI).
      rewrite (Inv_elements_perm _ _ _ _ _ HI'), Hperm.
      simpl. by rewrite app_nil_r.
Qed.

Lemma ph_step_sim G (asym : G → asymmetric by_value) o
    (h : theap) t sh' :
  TInv G h t → tagged t → ph_step compare o (forget h) = Some sh' →
  ∃ h' t', sh' = forget h' ∧ TInv G h' t' ∧ tagged t'.
Proof.
  intros HI Htag. destruct o as [x|]; simpl.
  - intros Hp.
    assert (vsize (data_ h) < max_size) as Hcap.
    { rewrite push_sim in Hp. apply fmap_Some in Hp as (h' & Hp & _).
      by eapply push_cap. }
    destruct (ph_push_sim G asym h t x HI Htag Hcap)
      as (h' & t' & Hp' & _ & HI' & Htag' & _).
    exists h', t'. split; [congruence|done].
  - intros Hp.
    destruct (ph_pop_sim G asym h t HI Htag)
      as (h' & t' & Hp' & _ & HI' & Htag' & _).
    exists h', t'. split; [congruence|done].
Qed.

Lemma ph_run_sim G (asym : G → asymmetric by_value) ops :
  ∀ (h : theap) t sh',
    TInv G h t → tagged t → ph_run compare ops (forget h) = Some sh' →
    ∃ h' t', sh' = forget h' ∧ TInv G h' t' ∧ tagged t'.
Proof.
  induction ops as [|o ops IH]; intros h t sh' HI Htag Hrun.
  - injection Hrun as <-. eauto.
  - simpl in Hrun. apply bind_Some in Hrun as (sh1 & Hs & Hrun).
    destruct (ph_step_sim G asym o h t sh1 HI Htag Hs)
      as (h1 & t1 & -> & HI1 & Htag1).
    by eapply IH.
Qed.

Lemma ph_reach G (asym : G → asymmetric by_value) ops sh :
  ph_run compare ops ph_empty_heap = Some sh →
  ∃ (h : theap) t, sh = forget h ∧ TInv G h t ∧ tagged t.
Proof.
  intros Hrun.
  apply (ph_run_sim G asym ops empty_heap Lf); [apply Inv_empty| |done].
  intros i v Hin. by apply elem_of_nil in Hin.
Qed.

Lemma ph_run_defined G (asym : G → asymmetric by_value) ops :
  ∀ (h : theap) t,
    TInv G h t → tagged t →
    vsize (data_ h) + N.of_nat (length (filter ph_is_push ops)) ≤ max_size →
    ∃ sh, ph_run compare ops (forget h) = Some sh.
Proof.
  induction ops as [|o ops IH]; intros h t HI Htag Hcap; [by eexists|].
  rewrite filter_cons in Hcap. destruct o as [x|]; simpl in *.
  - destruct (ph_push_sim G asym h t x HI Htag)
      as (h' & t' & Hp & Hp' & HI' & Htag' & _); [lia|].
    rewrite Hp. simpl. apply (IH h' t' HI' Htag').
    destruct (push_map _ _ _ _ _ Hp') as [_ ->]. lia.
  - destruct (ph_pop_sim G asym h t HI Htag)
      as (h' & t' & Hp & Hp' & HI' & Htag' & _).
    rewrite Hp. simpl. apply (IH h' t' HI' Htag').
    destruct (decide (top_ h = NONE)) as [Ht|Ht].
    + rewrite (pop_guard fst by_value h Ht) in Hp'. by injection Hp' as <-.
    + destruct (pop_facts _ _ _ _ Ht Hp') as [Hl _].
      unfold vsize. rewrite Hl. done.
Qed.

Lemma ph_push_all_spec G (asym : G → asymmetric by_value) vs :
  ∀ (h : theap) t,
    TInv G h t → tagged t → vsize (data_ h) + vsize vs ≤ max_size →
    ∃ h' t', ph_push_all compare vs (forget h) = Some (forget h') ∧
      TInv G h' t' ∧ tagged t' ∧
      (elements_ h').*2 = (elements_ h).*2 ++ vs.
Proof.
  induction vs as [|x vs IH]; intros h t HI Htag Hcap.
  - exists h, t. by rewrite app_nil_r.
  - unfold vsize in Hcap. simpl in Hcap.
    destruct (ph_push_sim G asym h t x HI Htag)
      as (h1 & t1 & Hp & Hp' & HI1 & Htag1 & _); [unfold vsize; lia|].
    destruct (push_map _ _ _ _ _ Hp') as [_ Hsz].
    destruct (IH h1 t1 HI1 Htag1) as (h' & t' & Hpa & HI' & Htag' & He).
    { rewrite Hsz. unfold vsize. lia. }
    exists h', t'. simpl. rewrite Hp. simpl. do 3 (split; [done|]).
    rewrite He, (push_elements _ _ _ _ _ Hp'), fmap_app. simpl.
    by rewrite <- app_assoc.
Qed.

Lemma ph_drain_spec G (asym : G → asymmetric by_value) n :
  negatively_transitive compare → G →
  ∀ (h : theap) t,
    TInv G h t → tagged t → length (elements_ h) = n →
    ∃ out (h' : theap),
      ph_drain compare n (forget h) = Some (out, forget h') ∧
      out ≡ₚ (elements_ h).*2 ∧
      StronglySorted (λ a b, compare b a = false) out ∧
      elements_ h' = [].
Proof.
  intros Hnt HG. induction n as [|n IH]; intros h t HI Htag Hlen.
  - exists [], h. apply nil_length_inv in Hlen. rewrite Hlen.
    split; [done|]. split; [done|]. split; [constructor|done].
  - assert (size h ≠ 0) as Hz by (unfold size, vsize; lia).
    destruct (Inv_top _ _ _ _ _ HI Hz) as (vt & c & -> & Hvt).
    destruct (ph_pop_sim G asym h _ HI Htag)
      as (h1 & t1 & Hp & _ & HI1 & Htag1 & _ & Hrem).
    destruct (Hrem Hz) as (vt' & Hvt' & Hperm).
    assert (vt' = vt) as -> by congruence.
    destruct (IH h1 t1 HI1 Htag1) as (out & h' & Hd & Hpo & Hso & He).
    { apply Permutation_length in Hperm. simpl in Hperm. lia. }
    exists (vt.2 :: out), h'. split; [|split; [|split; [|done]]].
    + simpl. rewrite top_sim, Hvt. simpl. rewrite Hp. simpl.
      rewrite Hd. done.
    + rewrite Hpo, Hperm. done.
    + constructor; [done|]. rewrite Hpo. apply Forall_forall.
      intros y (v & -> & Hv)%list_elem_of_fmap.
      apply (Inv_least fst by_value G asym h (top_ h) vt c HG); [|done|].
      * by apply by_value_negatively_transitive.
      * rewrite Hperm. by right.
Qed.

(** ** [pairing_heap] after any run *)

Lemma forget_heap_order (h : theap) :
  heap_order by_value h → ph_heap_order compare (forget h).
Proof.
  intros Ho c nc Hnc Hp. simpl in *.
  destruct (Ho c nc Hnc Hp) as (np & vc & vp & Hnp & Hvc & Hvp & Hcmp).
  exists np, vc.2, vp.2. rewrite !vec_at_fmap, Hvc, Hvp. done.
Qed.

(** X9: [pairing_heap] needs no locator discipline: after any sequence of
    [push] and [pop] on a heap built empty, for every node [c] with parent
    [p], [compare(value(c), value(p))] is false, for an asymmetric
    [compare]; equal values may be pushed. *)
Theorem ph_heap_order_after_any_run ops sh :
  asymmetric compare →
  ph_run compare ops ph_empty_heap = Some sh →
  ph_heap_order compare sh.
Proof.
  intros Ha Hrun.
  destruct (ph_reach True (λ _, by_value_asymmetric Ha) ops sh Hrun)
    as (h & t & -> & HI & _).
  apply forget_heap_order. exact (Inv_heap_order _ _ True h t I HI).
Qed.

(** X10: every sequence of [push] and [pop] on a [pairing_heap] built
    empty, with no more pushes than the arena can hold, is defined: no call
    reads or writes outside a vector, and [pop] on the empty heap returns at
    its guard. *)
Theorem ph_runs_are_defined ops :
  N.of_nat (length (filter ph_is_push ops)) ≤ max_size →
  ∃ sh, ph_run compare ops ph_empty_heap = Some sh.
Proof.
  intros Hcap.
  assert (False → asymmetric by_value) as asym by done.
  apply (ph_run_defined False asym ops empty_heap Lf); [apply Inv_empty| |done].
  intros i v Hin. by apply elem_of_nil in Hin.
Qed.

(** X11: after any sequence of [push] and [pop] on a [pairing_heap] built
    empty, [top()] of a heap that is not empty returns a stored value to
    which no stored value is preferred, for a strict weak order
    [compare]. *)
Theorem ph_top_is_least ops sh :
  asymmetric compare → negatively_transitive compare →
  ph_run compare ops ph_empty_heap = Some sh → ph_size sh ≠ 0 →
  ∃ vt, ph_top sh = Some vt ∧ vt ∈ ph_elements_ sh ∧
        ∀ v, v ∈ ph_elements_ sh → compare v vt = false.
Proof.
  intros Ha Hnt Hrun Hz.
  pose proof (λ _ : True, by_value_asymmetric Ha) as asym.
  destruct (ph_reach True asym ops sh Hrun) as (h & t & -> & HI & _).
  assert (size h ≠ 0) as Hz'
    by (unfold ph_size in Hz; simpl in Hz; by rewrite vsize_fmap in Hz).
  destruct (Inv_top _ _ _ _ _ HI Hz') as (vt & c & -> & Hvt).
  exists vt.2. rewrite top_sim, Hvt. split; [done|]. simpl. split.
  - apply list_elem_of_fmap_2. apply (Inv_elements _ _ _ _ _ vt HI).
    simpl. left.
  - intros v (w & -> & Hw)%list_elem_of_fmap.
    apply (Inv_least fst by_value True asym h (top_ h) vt c I); [|done..].
    by apply by_value_negatively_transitive.
Qed.

(** X12: after any sequence of [push] and [pop] on a [pairing_heap] built
    empty, [pop()] is defined; on a heap that is not empty it removes from
    the stored values exactly one occurrence of the value [top()] returns,
    and on the empty heap it changes nothing. *)
Theorem ph_pop_removes_the_top ops sh :
  ph_run compare ops ph_empty_heap = Some sh →
  ∃ sh', ph_pop compare sh = Some sh' ∧
    (ph_size sh = 0 → sh' = sh) ∧
    (ph_size sh ≠ 0 →
     ∃ vt, ph_top sh = Some vt ∧
           ph_elements_ sh ≡ₚ vt :: ph_elements_ sh').
Proof.
  intros Hrun.
  assert (False → asymmetric by_value) as asym by done.
  destruct (ph_reach False asym ops sh Hrun) as (h & t & -> & HI & Htag).
  destruct (ph_pop_sim False asym h t HI Htag)
    as (h' & t' & Hp & _ & _ & _ & Hemp & Hrem).
  exists (forget h'). split; [done|]. unfold ph_size. simpl.
  rewrite vsize_fmap. split.
  - intros Hz. by rewrite (Hemp Hz).
  - intros Hz. destruct (Hrem Hz) as (vt & Hvt & Hperm).
    exists vt.2. rewrite top_sim, Hvt. split; [done|]. by rewrite Hperm.
Qed.

(** X13: the constructor of [pairing_heap] from a list stores the values of
    the list, and reading [top()] and calling [pop()] as many times as the
    list is long then yields the list sorted by [compare], a strict weak
    order; the list may hold equal values. *)
Theorem ph_make_and_drain_sorts vs :
  asymmetric compare → negatively_transitive compare →
  vsize vs ≤ max_size →
  ∃ sh out sh',
    ph_make compare vs = Some sh ∧ ph_elements_ sh = vs ∧
    ph_drain compare (length vs) sh = Some (out, sh') ∧
    out ≡ₚ vs ∧ StronglySorted (λ a b, compare b a = false) out ∧
    ph_empty sh' = true.
Proof.
  intros Ha Hnt Hcap.
  pose proof (λ _ : True, by_value_asymmetric Ha) as asym.
  destruct (ph_push_all_spec True asym vs empty_heap Lf)
    as (h & t & Hpa & HI & Htag & He).
  { apply Inv_empty. }
  { intros i v Hin. by apply elem_of_nil in Hin. }
  { simpl. unfold vsize at 1. simpl. lia. }
  simpl in He.
  destruct (ph_drain_spec True asym (length vs) Hnt I h t HI Htag)
    as (out & h' & Hd & Hpo & Hso & He').
  { by rewrite <- He, length_fmap. }
  exists (forget h), out, (forget h'). split; [|split; [done|]].
  - unfold ph_make, ph_reserve. rewrite decide_False by lia. done.
  - split; [done|]. split; [by rewrite Hpo, He|]. split; [done|].
    unfold ph_empty. simpl. by rewrite He'.
Qed.

(** X14: after any sequence of [push] and [pop] on a [pairing_heap] built
    empty, [reversemap_] is as long as the value array and inverts
    [item_index]: the node at [reversemap_[s]] has [item_index] [s]. *)
Theorem reversemap_inverts_item_index ops sh :
  ph_run compare ops ph_empty_heap = Some sh → reversemap_ok sh.
Proof.
  intros Hrun.
  assert (False → asymmetric by_value) as asym by done.
  destruct (ph_reach False asym ops sh Hrun) as (h & t & -> & HI & Htag).
  split; simpl; [by rewrite !length_fmap|].
  intros s i Hs. rewrite vec_at_fmap in Hs.
  apply fmap_Some in Hs as (v & Hv & ->).
  rewrite vec_at_lookup in Hv.
  destruct (Inv_slot _ _ _ _ _ _ _ HI Hv) as (i & nd & Hin & Hnd & Hsl).
  rewrite (Htag i v Hin). exists nd. split; [done|]. lia.
Qed.

(** X15: after any sequence of [push] and [pop] on a [pairing_heap] built
    empty, reading [top()] and calling [pop()] [size()] times yields the
    stored values in the order of [compare], a strict weak order, and
    leaves the heap empty. *)
Theorem ph_drain_after_any_run_is_sorted ops sh :
  asymmetric compare → negatively_transitive compare →
  ph_run compare ops ph_empty_heap = Some sh →
  ∃ out sh', ph_drain compare (N.to_nat (ph_size sh)) sh = Some (out, sh') ∧
    out ≡ₚ ph_elements_ sh ∧
    StronglySorted (λ a b, compare b a = false) out ∧
    ph_empty sh' = true.
Proof.
  intros Ha Hnt Hrun.
  pose proof (λ _ : True, by_value_asymmetric Ha) as asym.
  destruct (ph_reach True asym ops sh Hrun) as (h & t & -> & HI & Htag).
  destruct (ph_drain_spec True asym (length (elements_ h)) Hnt I h t HI Htag)
    as (out & h' & Hd & Hpo & Hso & He'); [done|].
  exists out, (forget h'). unfold ph_size, ph_empty. simpl.
  rewrite vsize_fmap. unfold vsize at 1. rewrite Nat2N.id.
  do 3 (split; [done|]). by rewrite He'.
Qed.

Lemma ph_run_data_length G (asym : G → asymmetric by_value) ops :
  ∀ (h : theap) t sh,
    TInv G h t → tagged t → ph_run compare ops (forget h) = Some sh →
    length (ph_data_ sh)
    = (length (filter ph_is_push ops) + length (data_ h))%nat.
Proof.
  induction ops as [|o ops IH]; intros h t sh HI Htag Hrun.
  - by injection Hrun as <-.
  - simpl in Hrun. apply bind_Some in Hrun as (sh1 & Hs & Hrun).
    rewrite filter_cons. destruct o as [x|]; simpl in *.
    + assert (vsize (data_ h) < max_size) as Hcap.
      { rewrite push_sim in Hs. apply fmap_Some in Hs as (h' & Hp & _).
        by eapply push_cap. }
      destruct (ph_push_sim G asym h t x HI Htag Hcap)
        as (h1 & t1 & Hp & Hp' & HI1 & Htag1 & _).
      assert (sh1 = forget h1) as -> by congruence.
      rewrite (IH h1 t1 sh HI1 Htag1 Hrun).
      destruct (push_map _ _ _ _ _ Hp') as [_ Hsz]. unfold vsize in Hsz. lia.
    + destruct (ph_pop_sim G asym h t HI Htag)
        as (h1 & t1 & Hp & Hp' & HI1 & Htag1 & _).
      assert (sh1 = forget h1) as -> by congruence.
      rewrite (IH h1 t1 sh HI1 Htag1 Hrun).
      destruct (decide (top_ h = NONE)) as [Ht|Ht].
      * rewrite (pop_guard fst by_value h Ht) in Hp'. by injection Hp' as <-.
      * destruct (pop_facts _ _ _ _ Ht Hp') as [Hl _]. by rewrite Hl.
Qed.

(** X18: the arena of [pairing_heap] never shrinks: after any sequence of
    [push] and [pop] on a heap built empty it holds one node for each
    [push] performed, extracted nodes included, while the value array
    holds no more values than the arena holds nodes. *)
Theorem ph_arena_never_shrinks ops sh :
  ph_run compare ops ph_empty_heap = Some sh →
  length (ph_data_ sh) = length (filter ph_is_push ops) ∧
  (length (ph_elements_ sh) ≤ length (ph_data_ sh))%nat.
Proof.
  intros Hrun.
  assert (False → asymmetric by_value) as asym by done.
  split.
  - rewrite (ph_run_data_length False asym ops empty_heap Lf sh);
      [simpl; lia|apply Inv_empty| |done].
    intros i v Hin. by apply elem_of_nil in Hin.
  - destruct (ph_reach False asym ops sh Hrun) as (h & t & -> & HI & _).
    simpl. rewrite length_fmap.
    pose proof (inv_size _ _ _ _ _ HI) as Hs. unfold vsize in Hs. lia.
Qed.

(** ** The engine under a locator whose entries are shared *)

(** What the engine does to the value array, the arena and the root depends
    on the locator only through the index [pop] resolves for the last
    value.  A heap reached by a valid run is, locator apart, a heap of
    values tagged with their arena index; it stays so after a [push] under
    a key already in use, whose new entry is the one [pop] then reads. *)
Section Locator.
Context {K : Type} `{Countable K}.
Variable key : T → K.

Local Abbreviation same_engine h Hh :=
  (elements_ h = @snd N T <$> elements_ Hh ∧ data_ h = data_ Hh ∧
   top_ h = top_ Hh).
Local Abbreviation untag m Hh :=
  (mk_heap (@snd N T <$> elements_ Hh) (data_ Hh) m (top_ Hh)).

Lemma tag_tree (t : @bt T) :
  ∃ t' : @bt (N * T),
    nodes t' = (λ p : N * T, (p.1, p)) <$> nodes t ∧ root t' = root t ∧
    (t = Lf → t' = Lf) ∧ (sib t = Lf → sib t' = Lf) ∧
    (∀ d p l, rep d t p l → rep d t' p l) ∧
    (∀ G pv i, ho compare G pv t → ho by_value G (i, pv) t') ∧
    (∀ G, hot compare G t → hot by_value G t').
Proof.
  induction t as [|i v c (c' & Hnc & Hrc & _ & _ & Hrepc & Hhoc & _)
                    s (s' & Hns & Hrs & Hlfs & _ & Hreps & Hhos & _)].
  - exists Lf. by repeat split.
  - exists (Br i (i, v) c' s'). split; [|split; [done|split; [done|]]].
    { simpl. by rewrite Hnc, Hns, fmap_app. }
    split; [done|]. split; [|split].
    + intros d p l (nd & Hnd & Hp & Hl & Hc & Hr & Hrc' & Hrs').
      exists nd. rewrite Hrc, Hrs. repeat split; eauto.
    + simpl. intros G pv j (Hv & Hc & Hs). repeat split; eauto.
    + simpl. intros G. apply Hhoc.
Qed.

(** A heap that satisfies the invariant is, locator apart, a heap of tagged
    values that satisfies it, and its locator resolves each stored value to
    the tag. *)
Lemma tagging G (h : heap) t :
  Inv key compare G h t →
  ∃ (Hh : theap) t', TInv G Hh t' ∧ tagged t' ∧ same_engine h Hh ∧
    ∀ V : N * T, V ∈ elements_ Hh → map_ h !! key V.2 = Some V.1.
Proof.
  intros HI.
  destruct (tag_tree t) as (t' & Hn & Hr & _ & Hsib & Hrep & _ & Hhot).
  set (tg := λ v : T, (default 0 (map_ h !! key v), v)).
  set (M := list_to_map ((λ p : N * T, (p.1, p.1)) <$> nodes t) : gmap N N).
  assert ((nodes t').*1 = (nodes t).*1) as Hidx.
  { rewrite Hn, <- list_fmap_compose. by apply list_fmap_ext. }
  assert (∀ i v, (i, v) ∈ nodes t → tg v = (i, v)) as Htg.
  { intros i v Hin. destruct (inv_vals _ _ _ _ _ HI i v Hin) as [_ Hm].
    unfold tg. by rewrite Hm. }
  exists (mk_heap (tg <$> elements_ h) (data_ h) M (top_ h)), t'.
  split; [split; simpl|split; [|split; [split; [|done]|]]].
  - apply (inv_cap _ _ _ _ _ HI).
  - rewrite vsize_fmap. apply (inv_size _ _ _ _ _ HI).
  - rewrite Hr. apply (inv_top _ _ _ _ _ HI).
  - apply Hsib, (inv_sib _ _ _ _ _ HI).
  - apply Hrep, (inv_rep _ _ _ _ _ HI).
  - rewrite Hidx. apply (inv_nodup _ _ _ _ _ HI).
  - intros i W Hin. rewrite Hn in Hin.
    apply list_elem_of_fmap in Hin as ([j v] & [= -> ->] & Hin). simpl.
    destruct (inv_vals _ _ _ _ _ HI j v Hin) as [Hv _]. split.
    + rewrite value_at_fmap, Hv. simpl. f_equal. by apply Htg.
    + apply elem_of_list_to_map.
      * rewrite <- list_fmap_compose. apply (inv_nodup _ _ _ _ _ HI).
      * apply list_elem_of_fmap. by exists (j, v).
  - rewrite Hidx. apply (inv_inj _ _ _ _ _ HI).
  - rewrite vsize_fmap, Hidx. apply (inv_surj _ _ _ _ _ HI).
  - rewrite Hidx. apply (inv_dead _ _ _ _ _ HI).
  - apply Hhot, (inv_ho _ _ _ _ _ HI).
  - intros i V Hin. rewrite Hn in Hin.
    by apply list_elem_of_fmap in Hin as ([j v] & [= -> ->] & _).
  - simpl. rewrite <- list_fmap_compose.
    transitivity (id <$> elements_ h); [by rewrite list_fmap_id|].
    by apply list_fmap_ext.
  - simpl. intros V (v & -> & Hv)%list_elem_of_fmap.
    apply (Inv_elements _ _ _ _ _ _ HI) in Hv.
    apply list_elem_of_fmap in Hv as ([i v'] & -> & Hin). simpl.
    destruct (inv_vals _ _ _ _ _ HI i v' Hin) as [_ ->]. done.
Qed.

Lemma push_tagged x (h : heap) (Hh : theap) :
  same_engine h Hh →
  push key compare x h
  = (λ H', untag (<[key x := vsize (data_ h)]> (map_ h)) H')
    <$> push fst by_value (vsize (data_ Hh), x) Hh.
Proof.
  intros (He & Hd & Ht). unfold push. cbv zeta. unfold id_write.
  rewrite He, Hd, Ht. case_decide as Hcap; [done|].
  pose proof max_size_lt_NONE as Hmax. unfold NONE in Hmax.
  rewrite !vsize_app, vsize_fmap.
  rewrite (size_minus_1_succ (vsize (data_ Hh))) by lia.
  destruct (top_ Hh =? NONE).
  - simpl. by rewrite !fmap_app.
  - replace ((elements_ Hh).*2 ++ [x])
      with ((elements_ Hh ++ [(vsize (data_ Hh), x)]).*2)
      by (by rewrite fmap_app).
    rewrite (meld_fmap snd).
    by destruct (meld _ _ _ _ _) as [[d t]|].
Qed.

Lemma pop_tagged G (h : heap) (Hh : theap) t :
  same_engine h Hh → TInv G Hh t → tagged t →
  (∀ V : N * T,
     vec_at (elements_ Hh) (size_minus_1 (vsize (elements_ Hh))) = Some V →
     map_ h !! key V.2 = Some V.1) →
  pop key compare h = (λ H', untag (map_ h) H') <$> pop fst by_value Hh.
Proof.
  intros (He & Hd & Ht) HI Htag Hlast. unfold pop. rewrite He, Hd, Ht.
  destruct (top_ Hh =? NONE).
  { simpl. destruct h. simpl in *. by subst. }
  rewrite (pop_children_fmap snd).
  destruct (pop_children _ _ _ _) as [[d1 nt]|]; [|done].
  rewrite !obind_Some. cbv beta iota.
  unfold pop_compact. cbv zeta. rewrite He, Ht.
  rewrite !vsize_fmap, !vec_at_fmap.
  destruct (vec_at (elements_ Hh) (size_minus_1 (vsize (elements_ Hh))))
    as [lst|] eqn:El; simpl; [|done].
  rewrite (id_read_Some key _ _ _ (Hlast lst eq_refl)).
  assert (id_read fst (map_ Hh) lst = (lst.1, map_ Hh)) as ->.
  { apply vec_at_elem_of in El. apply (Inv_elements _ _ _ _ _ _ HI) in El.
    apply list_elem_of_fmap in El as ([i v] & -> & Hin).
    destruct (inv_vals _ _ _ _ _ HI i v Hin) as [_ Hm]. simpl.
    rewrite (Htag i v Hin). by apply id_read_Some. }
  destruct (vec_at d1 (top_ Hh)) as [n0|]; simpl; [|done].
  rewrite (vec_set_fmap snd).
  destruct (vec_set (elements_ Hh) (item_index n0) lst) as [e1|]; simpl;
    [|done].
  repeat match goal with
         | |- (?x ≫= _) = _ <$> (?x ≫= _) =>
             destruct x; simpl; [|reflexivity]
         end.
  rewrite (pop_back_fmap snd). by destruct (pop_back e1).
Qed.

(** C9: on a heap reached by a run of the front end with the internal map
    in which no item was pushed while an item with the same key was stored,
    pushing below the capacity of the arena a value [x] equal under the key
    to a stored value [y] is defined and files the new arena index under
    the key they share, so both resolve to the newer node; a [pop] is then
    defined and removes the top; the top is one of the two when [y] was
    the top before the push, and when the top is one of the two the [pop]
    erases the entry for both, the other being still stored. *)
Theorem equal_keys_share_one_entry ops h x y :
  run_pre key compare false Internal ops empty_heap = true →
  run key compare Internal ops empty_heap = Some h →
  y ∈ elements_ h → key y = key x → vsize (data_ h) < max_size →
  ∃ h1, push key compare x h = Some h1 ∧
    vsize (data_ h1) = vsize (data_ h) + 1 ∧
    id_read key (map_ h1) x = (vsize (data_ h), map_ h1) ∧
    id_read key (map_ h1) y = (vsize (data_ h), map_ h1) ∧
    ∃ vt h2, top h1 = Some vt ∧
      pop_of key compare Internal h1 = Some h2 ∧
      elements_ h1 ≡ₚ vt :: elements_ h2 ∧
      (top h = Some y → key vt = key x) ∧
      (key vt = key x →
       map_ h2 !! key x = None ∧ map_ h2 !! key y = None ∧
       ∃ v, v ∈ elements_ h2 ∧ key v = key x).
Proof.
  intros Hpre Hrun Hy Hk Hcap.
  destruct (valid_run_Inv key compare Internal ops h Hpre Hrun) as [t HI].
  assert (False → asymmetric by_value) as asym by done.
  destruct (tagging False h t HI)
    as (Hh & t' & HIh & Htag & (He & Hd & Ht) & _).
  (* the push, on tagged values *)
  destruct (push_Inv fst by_value False asym Hh t' (vsize (data_ Hh), x) HIh)
    as (H1 & t1 & Hp1 & HI1 & Hperm1);
    [by eapply tag_is_fresh|by rewrite <- Hd|].
  pose proof (push_tagged x h Hh (conj He (conj Hd Ht))) as Hp.
  rewrite Hp1 in Hp. simpl in Hp. rewrite <- Hd in Hperm1.
  set (n := vsize (data_ h)) in *.
  set (h1 := untag (<[key x := n]> (map_ h)) H1) in *.
  assert (map_ h1 !! key x = Some n) as Hmx by apply lookup_insert_eq.
  exists h1. split; [done|]. split; [by destruct (push_map _ _ _ _ _ Hp)|].
  split; [by apply id_read_Some|].
  split; [apply id_read_Some; by rewrite Hk|].
  (* the pop, on tagged values *)
  pose proof (push_elements _ _ _ _ _ Hp1) as He1.
  assert (size H1 ≠ 0) as Hz.
  { unfold size. rewrite He1, vsize_app. lia. }
  destruct (Inv_top _ _ _ _ _ HI1 Hz) as (VT & c & -> & HVT).
  destruct (pop_Inv fst by_value False asym H1 (top_ H1) VT c HI1)
    as (H2 & t2 & Hp2 & _ & HI2 & Hperm2 & _).
  assert (tagged (Br (top_ H1) VT c Lf)) as Htag1.
  { intros i V Hin. rewrite Hperm1 in Hin.
    apply elem_of_cons in Hin as [[= -> ->]|Hin]; [done|].
    by apply Htag. }
  pose proof (pop_tagged False h1 H1 _ (conj eq_refl (conj eq_refl eq_refl))
                HI1 Htag1) as Hpop.
  rewrite Hp2 in Hpop. simpl in Hpop.
  assert (top h1 = Some VT.2) as Htop.
  { unfold top, h1. simpl. rewrite value_at_fmap. fold (top H1).
    by rewrite HVT. }
  assert (elements_ H1 ≡ₚ VT :: elements_ H2) as HpermE.
  { rewrite (Inv_elements_perm _ _ _ _ _ HI1).
    rewrite (Inv_elements_perm _ _ _ _ _ HI2), Hperm2.
    simpl. by rewrite app_nil_r. }
  exists VT.2. eexists. split; [done|]. split.
  { apply pop_internal_Some. eexists _, _. split; [done|]. split; [|done].
    apply Hpop. intros V HV. rewrite He1 in HV.
    pose proof (inv_size _ _ _ _ _ HIh) as Hsz.
    pose proof max_size_lt_NONE as Hmax. unfold NONE in Hmax.
    rewrite vsize_app, size_minus_1_succ, vec_at_app_r in HV
      by (rewrite <- Hd in Hsz; unfold n in *; lia).
    injection HV as <-. simpl. by rewrite <- Hd. }
  simpl. split; [by rewrite HpermE|]. split.
  { intros Hty.
    destruct (push_top fst by_value False asym Hh t' (vsize (data_ Hh), x) HIh)
      as (H1' & Hp1' & Htop1); [by eapply tag_is_fresh|by rewrite <- Hd|].
    assert (H1' = H1) as -> by congruence.
    unfold top in Hty. rewrite He, Hd, Ht, value_at_fmap in Hty.
    fold (top Hh) in Hty. rewrite HVT in Htop1.
    destruct (top Hh) as [VT0|]; [|done]. injection Hty as Hty.
    injection Htop1 as ->. simpl. rewrite Hty.
    destruct (compare x y); [done|]. simpl. by rewrite Hty. }
  intros Hkt. rewrite <- Hk at 2. rewrite Hk, <- Hkt.
  do 2 (split; [apply lookup_delete_eq|]).
  assert (elements_ h ++ [x] ≡ₚ VT.2 :: (elements_ H2).*2) as Hpe.
  { rewrite <- (push_elements _ _ _ _ _ Hp). unfold h1. simpl.
    by rewrite HpermE. }
  assert (y ∈ VT.2 :: (elements_ H2).*2) as Hy2.
  { rewrite <- Hpe. apply elem_of_app. by left. }
  apply elem_of_cons in Hy2 as [Hyv|Hy2]; [|exists y; by rewrite Hk, <- Hkt].
  apply elem_of_Permutation in Hy as (rest & Hrest).
  rewrite Hrest, <- Hyv in Hpe. simpl in Hpe.
  apply Permutation_cons_inv in Hpe.
  exists x. split; [|done]. rewrite <- Hpe. apply elem_of_app. right. left.
Qed.

End Locator.

End Simple.

(** * The heap over integers *)

(** ** Plain integers under the default internal map *)

Local Open Scope Z_scope.

(** C8, as stated, fails when [x] is already the child of [y]: the previous
    child of [y] is [x] itself, and [merge] overwrites its left sibling. *)
Lemma merge_rewrites_left_sibling_of_own_child :
  ¬ (∀ d x y d', x ≠ y → merge x y d = Some d' → merge_links d x y d').
Proof.
  intros Hc.
  destruct (Hc [mk_node 0 NONE 1 NONE NONE; mk_node 1 0 NONE NONE NONE]
               1%N 0%N
               [mk_node 0 NONE 1 NONE NONE; mk_node 1 0 NONE 1 1])
    as (nx & ny & Hx & Hy & _ & Hall); [done|reflexivity|].
  destruct (Hall 1%N nx Hx) as (nj & Hj & _ & _ & _ & Hl & _).
  vm_compute in Hx, Hy, Hj. injection Hx as <-. injection Hy as <-.
  injection Hj as <-. vm_compute in Hl. discriminate.
Qed.

Lemma merge_sets_four_links_witness :
  ∃ d', merge 0 1 [mk_node 0 NONE NONE NONE NONE; mk_node 1 NONE 2 NONE NONE;
                   mk_node 2 1 NONE NONE NONE] = Some d' ∧
        merge_links [mk_node 0 NONE NONE NONE NONE; mk_node 1 NONE 2 NONE NONE;
                     mk_node 2 1 NONE NONE NONE] 0 1 d'.
Proof.
  apply (merge_sets_four_links _ 0%N 1%N (mk_node 0 NONE NONE NONE NONE)
           (mk_node 1 NONE 2 NONE NONE)).
  - done.
  - reflexivity.
  - reflexivity.
  - simpl. done.
  - intros _. vm_compute. reflexivity.
Defined.

(** C6, as stated, fails: a [pop] on the empty heap is counted by the claim
    but removes nothing. *)
Lemma size_is_not_pushes_minus_pops :
  ∃ h, run id Z.ltb External [Pop; Push 1] empty_heap = Some h ∧
       Z.of_N (size h) ≠
         Z.of_nat (count_pushes [Pop; Push 1]) -
         Z.of_nat (count_pops [Pop; Push 1]).
Proof. eexists. split; [vm_compute; reflexivity|]. vm_compute. discriminate. Qed.

Lemma size_is_pushes_minus_guarded_pops_witness :
  ∃ h, run id Z.ltb External [Push 4; Pop; Pop; Push 2; Push 7] empty_heap
         = Some h ∧
       Nat.add (N.to_nat (size h))
         (count_guarded_pops id Z.ltb External
            [Push 4; Pop; Pop; Push 2; Push 7] empty_heap)
       = count_pushes [Push 4; Pop; Pop; Push 2; Push 7] ∧
       (empty h = true ↔ size h = 0%N).
Proof.
  eexists. split; [vm_compute; reflexivity|].
  apply (size_is_pushes_minus_guarded_pops id Z.ltb External
           [Push 4; Pop; Pop; Push 2; Push 7]).
  vm_compute. reflexivity.
Defined.

Lemma arena_never_shrinks_witness :
  ∃ h, run id Z.ltb Internal [Push 4; Push 2; Pop; Push 7] empty_heap
         = Some h ∧
       length (data_ h) = count_pushes [Push 4; Push 2; Pop; Push 7] ∧
       ∀ h', top_ h ≠ NONE → pop_of id Z.ltb Internal h = Some h' →
         length (data_ h') = length (data_ h) ∧
         vec_at (data_ h') (top_ h) = Some dead_node ∧
         S (length (elements_ h')) = length (elements_ h).
Proof.
  eexists. split; [vm_compute; reflexivity|].
  apply (arena_never_shrinks id Z.ltb Internal [Push 4; Push 2; Pop; Push 7]).
  vm_compute. reflexivity.
Defined.

Lemma update_of_root_only_overwrites_witness :
  ∃ h h', run id Z.ltb Internal [Push 4; Push 2] empty_heap = Some h ∧
    update id Z.ltb 2 h = Some h' ∧
    data_ h' = data_ h ∧ top_ h' = top_ h ∧ size h' = size h ∧
    ∃ nd, vec_at (data_ h) (top_ h) = Some nd ∧
          (item_index nd < size h)%N ∧
          elements_ h' = vput (elements_ h) (item_index nd) 2.
Proof.
  do 2 eexists. split; [vm_compute; reflexivity|].
  split; [vm_compute; reflexivity|].
  apply (update_of_root_only_overwrites id Z.ltb 2).
  - vm_compute. reflexivity.
  - vm_compute. reflexivity.
Defined.

Lemma equal_keys_share_one_entry_witness :
  ∃ h, run id Z.ltb Internal [Push 7; Push 5] empty_heap = Some h ∧
    ∃ h1, push id Z.ltb 5 h = Some h1 ∧
      vsize (data_ h1) = (vsize (data_ h) + 1)%N ∧
      id_read id (map_ h1) 5 = (vsize (data_ h), map_ h1) ∧
      id_read id (map_ h1) 5 = (vsize (data_ h), map_ h1) ∧
      ∃ vt h2, top h1 = Some vt ∧
        pop_of id Z.ltb Internal h1 = Some h2 ∧
        elements_ h1 ≡ₚ vt :: elements_ h2 ∧
        (top h = Some 5 → id vt = id 5) ∧
        (id vt = id 5 →
         map_ h2 !! id 5 = None ∧ map_ h2 !! id 5 = None ∧
         ∃ v, v ∈ elements_ h2 ∧ id v = id 5).
Proof.
  eexists. split; [vm_compute; reflexivity|].
  apply (equal_keys_share_one_entry Z.ltb id [Push 7; Push 5] _ 5 5).
  - vm_compute. reflexivity.
  - vm_compute. reflexivity.
  - apply (bool_decide_unpack _). vm_compute. reflexivity.
  - reflexivity.
  - vm_compute. reflexivity.
Defined.

(** Two equal values, one [pop]: the value that stays has lost its entry. *)
Lemma pop_of_duplicate_erases_shared_entry :
  ∃ h, run id Z.ltb Internal [Push 5; Push 5; Pop] empty_heap = Some h ∧
       elements_ h = [5] ∧ map_ h !! 5 = None.
Proof. eexists. split; [vm_compute; reflexivity|]. split; reflexivity. Qed.

(** C3, as stated, fails on plain integers: [update(0)] resolves the key [0],
    which creates the entry [0 ↦ 0], and overwrites the first value pushed. *)
Lemma update_by_value_misses_the_item :
  (h ← run id Z.ltb Internal
         [Push 5; Push 3; Push 8; Push 1; Update 0] empty_heap;
   fst <$> drain id Z.ltb Internal 4 h) = Some [0; 1; 3; 8] ∧
  (h ← run id Z.ltb Internal
         [Push 5; Push 3; Push 8; Push 1; Update 0] empty_heap;
   fst <$> drain id Z.ltb Internal 4 h) ≠ Some [0; 1; 3; 5] ∧
  (h ← run id Z.ltb External
         [Push 5; Push 3; Push 8; Push 1; Update 0] empty_heap;
   fst <$> drain id Z.ltb External 4 h) ≠ Some [0; 1; 3; 5].
Proof. repeat split; vm_compute; (reflexivity || discriminate). Qed.

(** C1, as stated, fails: equal values share one locator entry, the second
    [pop] redirects the slot of a live node, and a later [pop] puts 20 above
    8. *)
Lemma equal_values_break_heap_order :
  ∃ h, run id Z.ltb Internal
         [Push 9; Push 5; Push 5; Pop; Pop; Push 7; Push 8; Push 20; Pop]
         empty_heap = Some h ∧
       ¬ heap_order Z.ltb h.
Proof.
  eexists. split; [vm_compute; reflexivity|].
  intros Ho. destruct (Ho 4%N (mk_node 2 3 5 NONE NONE)) as
    (np & vc & vp & Hp & Hc & Hv & Hcmp); [reflexivity|done|].
  vm_compute in Hp, Hc, Hv. injection Hp as <-. injection Hc as <-.
  injection Hv as <-. discriminate.
Qed.

(** ** Items with an identity *)

(** C3 (amended): with items filed under an identity that [update] keeps,
    pushing priorities 5, 3, 8, 1 and updating the item of priority 8 to
    priority 0 makes the extractions return priorities 0, 1, 3, 5. *)
Theorem update_by_identity_decreases_key :
  ∀ pol,
    (h ← run item_key item_less pol
           [Push (0, 5); Push (1, 3); Push (2, 8); Push (3, 1); Update (2, 0)]
           empty_heap;
     fst <$> drain item_key item_less pol 4 h)
    = Some [(2, 0); (3, 1); (1, 3); (0, 5)].
Proof. intros []; vm_compute; reflexivity. Qed.


(** ** Valid runs *)

Lemma Z_ltb_asymmetric : asymmetric Z.ltb.
Proof. intros x y Hxy. apply Z.ltb_lt in Hxy. apply Z.ltb_ge. lia. Qed.

Lemma Z_ltb_negatively_transitive : negatively_transitive Z.ltb.
Proof.
  intros x y z Hxy Hyz. apply Z.ltb_ge in Hxy, Hyz. apply Z.ltb_ge. lia.
Qed.

Lemma item_less_asymmetric : asymmetric item_less.
Proof. intros x y. apply Z_ltb_asymmetric. Qed.

Lemma heap_order_of_valid_runs_witness :
  ∃ h, run item_key item_less Internal
         [Push (0, 5); Push (1, 3); Push (2, 8); Push (3, 1); Update (2, 0);
          Pop; Push (4, 7); Pop] empty_heap = Some h ∧
       heap_order item_less h.
Proof.
  eexists. split; [vm_compute; reflexivity|].
  apply (heap_order_of_valid_runs item_key item_less Internal
           [Push (0, 5); Push (1, 3); Push (2, 8); Push (3, 1); Update (2, 0);
            Pop; Push (4, 7); Pop]).
  - apply item_less_asymmetric.
  - vm_compute. reflexivity.
  - vm_compute. reflexivity.
Defined.

(** C4, as stated, fails: of two equal values the second is still stored
    after one [pop], which erased the entry they share; the locator then
    yields the index of the extracted node. *)
Lemma equal_values_lose_the_locator :
  ∃ h, run id Z.ltb Internal [Push 5; Push 5; Pop] empty_heap = Some h ∧
       items id Z.ltb Internal [Push 5; Push 5; Pop] empty_heap ∅ !! 1%N
         = Some 5 ∧
       ¬ locates id h 5.
Proof.
  eexists. split; [vm_compute; reflexivity|]. split; [vm_compute; reflexivity|].
  intros (nd & Hnd & Hv). vm_compute in Hnd. injection Hnd as <-.
  vm_compute in Hv. discriminate.
Qed.


Lemma locator_finds_stored_items_witness :
  ∃ h, run item_key item_less Internal
         [Push (0, 5); Push (1, 3); Push (2, 8); Update (2, 4); Pop]
         empty_heap = Some h ∧
       id_read item_key (map_ h) (2, 4) = (2%N, map_ h) ∧
       locates item_key h (2, 4).
Proof.
  eexists. split; [vm_compute; reflexivity|].
  apply (locator_finds_stored_items item_key item_less Internal
           [Push (0, 5); Push (1, 3); Push (2, 8); Update (2, 4); Pop]).
  - vm_compute. reflexivity.
  - vm_compute. reflexivity.
  - vm_compute. reflexivity.
Defined.

Lemma extraction_is_sorted_witness :
  ∃ out h h',
    run id Z.ltb Internal (Push <$> [5; 3; 8; 1]) empty_heap = Some h ∧
    drain id Z.ltb Internal (length [5; 3; 8; 1]) h = Some (out, h') ∧
    out ≡ₚ [5; 3; 8; 1] ∧
    StronglySorted (λ a b, (b <? a) = false) out ∧
    elements_ h' = [].
Proof.
  apply (extraction_is_sorted id Z.ltb Internal [5; 3; 8; 1]).
  - apply Z_ltb_asymmetric.
  - apply Z_ltb_negatively_transitive.
  - intros x y Hxy. exact Hxy.
  - apply (bool_decide_unpack _). vm_compute. reflexivity.
  - vm_compute. discriminate.
Defined.


(** ** Heaps reached by valid runs, on integers *)

Lemma top_is_least_witness :
  ∃ h, run id Z.ltb Internal [Push 5; Push 3; Push 8; Pop; Push 4] empty_heap
         = Some h ∧
       ∃ vt, top h = Some vt ∧ vt ∈ elements_ h ∧
             ∀ v, v ∈ elements_ h → (v <? vt) = false.
Proof.
  eexists. split; [vm_compute; reflexivity|].
  apply (top_is_least id Z.ltb Internal [Push 5; Push 3; Push 8; Pop; Push 4]).
  - apply Z_ltb_asymmetric.
  - apply Z_ltb_negatively_transitive.
  - vm_compute. reflexivity.
  - vm_compute. reflexivity.
  - vm_compute. discriminate.
Defined.

Lemma pop_removes_the_top_witness :
  ∃ h, run id Z.ltb Internal [Push 5; Push 3; Push 8; Push 1] empty_heap
         = Some h ∧
       ∃ vt h', top h = Some vt ∧ pop_of id Z.ltb Internal h = Some h' ∧
                elements_ h ≡ₚ vt :: elements_ h' ∧
                size h = (size h' + 1)%N.
Proof.
  eexists. split; [vm_compute; reflexivity|].
  apply (pop_removes_the_top id Z.ltb Internal
           [Push 5; Push 3; Push 8; Push 1]).
  - vm_compute. reflexivity.
  - vm_compute. reflexivity.
  - vm_compute. discriminate.
Defined.

Lemma push_sets_the_top_witness :
  ∃ h, run id Z.ltb External [Push 5; Push 3; Push 8] empty_heap = Some h ∧
       ∃ h', push id Z.ltb 4 h = Some h' ∧
         elements_ h' = elements_ h ++ [4] ∧
         top h' = Some (match top h with
                        | Some vt => if 4 <? vt then 4 else vt
                        | None => 4
                        end).
Proof.
  eexists. split; [vm_compute; reflexivity|].
  apply (push_sets_the_top id Z.ltb External [Push 5; Push 3; Push 8]).
  - vm_compute. reflexivity.
  - vm_compute. reflexivity.
  - vm_compute. reflexivity.
  - vm_compute. reflexivity.
Defined.

Lemma update_replaces_the_value_witness :
  ∃ h, run item_key item_less Internal
         [Push (0, 5); Push (1, 3); Push (2, 8)] empty_heap = Some h ∧
       ∃ h' old rest, update item_key item_less (2, 1) h = Some h' ∧
         item_key old = item_key (2, 1) ∧
         elements_ h ≡ₚ old :: rest ∧ elements_ h' ≡ₚ (2, 1) :: rest ∧
         size h' = size h ∧ map_ h' = map_ h.
Proof.
  eexists. split; [vm_compute; reflexivity|].
  apply (update_replaces_the_value item_key item_less Internal
           [Push (0, 5); Push (1, 3); Push (2, 8)]).
  - vm_compute. reflexivity.
  - vm_compute. reflexivity.
  - vm_compute. reflexivity.
Defined.

Lemma valid_runs_are_defined_witness :
  ∃ h, run item_key item_less Internal
         [Push (0, 5); Push (1, 3); Pop; Update (0, 2); Pop; Push (0, 7)]
         empty_heap = Some h.
Proof.
  apply (valid_runs_are_defined item_key item_less Internal).
  - vm_compute. reflexivity.
  - vm_compute. reflexivity.
  - vm_compute. discriminate.
Defined.

Lemma drain_after_run_is_sorted_witness :
  ∃ h, run item_key item_less External
         [Push (0, 5); Push (1, 3); Push (2, 8); Update (2, 1); Pop;
          Push (3, 4)] empty_heap = Some h ∧
       ∃ out h',
         drain item_key item_less External (N.to_nat (size h)) h
           = Some (out, h') ∧
         out ≡ₚ elements_ h ∧
         StronglySorted (λ a b, item_less b a = false) out ∧
         size h' = 0%N.
Proof.
  eexists. split; [vm_compute; reflexivity|].
  apply (drain_after_run_is_sorted item_key item_less External
           [Push (0, 5); Push (1, 3); Push (2, 8); Update (2, 1); Pop;
            Push (3, 4)]).
  - apply item_less_asymmetric.
  - intros x y z. apply Z_ltb_negatively_transitive.
  - vm_compute. reflexivity.
  - vm_compute. reflexivity.
Defined.

Lemma internal_map_holds_the_stored_keys_witness :
  ∃ h, run id Z.ltb Internal [Push 5; Push 3; Pop; Push 8] empty_heap
         = Some h ∧
       ∀ k, is_Some (map_ h !! k) ↔ k ∈ id <$> elements_ h.
Proof.
  eexists. split; [vm_compute; reflexivity|].
  apply (internal_map_holds_the_stored_keys id Z.ltb
           [Push 5; Push 3; Pop; Push 8]).
  - vm_compute. reflexivity.
  - vm_compute. reflexivity.
Defined.

Lemma top_is_defined_iff_not_empty_witness :
  ∃ h, run id Z.ltb External [Push 5; Pop; Pop] empty_heap = Some h ∧
       (top_ h = NONE ↔ empty h = true) ∧
       (is_Some (top h) ↔ empty h = false).
Proof.
  eexists. split; [vm_compute; reflexivity|].
  apply (top_is_defined_iff_not_empty id Z.ltb External [Push 5; Pop; Pop]).
  - vm_compute. reflexivity.
  - vm_compute. reflexivity.
Defined.

Lemma print_writes_every_value_witness :
  ∃ h, run id Z.ltb Internal [Push 5; Push 3; Push 8; Push 1; Pop] empty_heap
         = Some h ∧
       ∃ out, print h = Some out ∧
         printed_values out ≡ₚ elements_ h ∧
         (empty h = true → out = []) ∧
         (empty h = false →
          ∃ vt rest, top h = Some vt ∧ out = Value vt :: rest ++ [Endl]).
Proof.
  eexists. split; [vm_compute; reflexivity|].
  apply (print_writes_every_value id Z.ltb Internal
           [Push 5; Push 3; Push 8; Push 1; Pop]).
  - vm_compute. reflexivity.
  - vm_compute. reflexivity.
Defined.

(** ** [pairing_heap] on integers, equal values among them *)

Lemma ph_heap_order_after_any_run_witness :
  ∃ sh, ph_run Z.ltb
          [PhPush 9; PhPush 5; PhPush 5; PhPop; PhPop; PhPush 7; PhPush 8;
           PhPush 20; PhPop] ph_empty_heap = Some sh ∧
        ph_heap_order Z.ltb sh.
Proof.
  eexists. split; [vm_compute; reflexivity|].
  apply (ph_heap_order_after_any_run Z.ltb
           [PhPush 9; PhPush 5; PhPush 5; PhPop; PhPop; PhPush 7; PhPush 8;
            PhPush 20; PhPop]).
  - apply Z_ltb_asymmetric.
  - vm_compute. reflexivity.
Defined.

Lemma ph_runs_are_defined_witness :
  ∃ sh, ph_run Z.ltb [PhPop; PhPush 5; PhPush 5; PhPop; PhPop; PhPop]
          ph_empty_heap = Some sh.
Proof.
  apply (ph_runs_are_defined Z.ltb). vm_compute. discriminate.
Defined.

Lemma ph_top_is_least_witness :
  ∃ sh, ph_run Z.ltb [PhPush 5; PhPush 3; PhPush 3; PhPop; PhPush 4]
          ph_empty_heap = Some sh ∧
        ∃ vt, ph_top sh = Some vt ∧ vt ∈ ph_elements_ sh ∧
              ∀ v, v ∈ ph_elements_ sh → (v <? vt) = false.
Proof.
  eexists. split; [vm_compute; reflexivity|].
  apply (ph_top_is_least Z.ltb [PhPush 5; PhPush 3; PhPush 3; PhPop; PhPush 4]).
  - apply Z_ltb_asymmetric.
  - apply Z_ltb_negatively_transitive.
  - vm_compute. reflexivity.
  - vm_compute. discriminate.
Defined.

Lemma ph_pop_removes_the_top_witness :
  ∃ sh, ph_run Z.ltb [PhPush 5; PhPush 3; PhPush 3] ph_empty_heap = Some sh ∧
        ∃ sh', ph_pop Z.ltb sh = Some sh' ∧
          (ph_size sh = 0%N → sh' = sh) ∧
          (ph_size sh ≠ 0%N →
           ∃ vt, ph_top sh = Some vt ∧
                 ph_elements_ sh ≡ₚ vt :: ph_elements_ sh').
Proof.
  eexists. split; [vm_compute; reflexivity|].
  apply (ph_pop_removes_the_top Z.ltb [PhPush 5; PhPush 3; PhPush 3]).
  vm_compute. reflexivity.
Defined.

Lemma ph_make_and_drain_sorts_witness :
  ∃ sh out sh',
    ph_make Z.ltb [5; 3; 8; 3; 1; 5] = Some sh ∧
    ph_elements_ sh = [5; 3; 8; 3; 1; 5] ∧
    ph_drain Z.ltb (length [5; 3; 8; 3; 1; 5]) sh = Some (out, sh') ∧
    out ≡ₚ [5; 3; 8; 3; 1; 5] ∧
    StronglySorted (λ a b, (b <? a) = false) out ∧
    ph_empty sh' = true.
Proof.
  apply (ph_make_and_drain_sorts Z.ltb [5; 3; 8; 3; 1; 5]).
  - apply Z_ltb_asymmetric.
  - apply Z_ltb_negatively_transitive.
  - vm_compute. discriminate.
Defined.

Lemma reversemap_inverts_item_index_witness :
  ∃ sh, ph_run Z.ltb [PhPush 5; PhPush 3; PhPush 3; PhPop; PhPush 4]
          ph_empty_heap = Some sh ∧
        reversemap_ok sh.
Proof.
  eexists. split; [vm_compute; reflexivity|].
  apply (reversemap_inverts_item_index Z.ltb
           [PhPush 5; PhPush 3; PhPush 3; PhPop; PhPush 4]).
  vm_compute. reflexivity.
Defined.

Lemma ph_drain_after_any_run_is_sorted_witness :
  ∃ sh, ph_run Z.ltb [PhPush 5; PhPush 3; PhPush 3; PhPop; PhPush 4]
          ph_empty_heap = Some sh ∧
        ∃ out sh',
          ph_drain Z.ltb (N.to_nat (ph_size sh)) sh = Some (out, sh') ∧
          out ≡ₚ ph_elements_ sh ∧
          StronglySorted (λ a b, (b <? a) = false) out ∧
          ph_empty sh' = true.
Proof.
  eexists. split; [vm_compute; reflexivity|].
  apply (ph_drain_after_any_run_is_sorted Z.ltb
           [PhPush 5; PhPush 3; PhPush 3; PhPop; PhPush 4]).
  - apply Z_ltb_asymmetric.
  - apply Z_ltb_negatively_transitive.
  - vm_compute. reflexivity.
Defined.


Lemma update_of_extracted_item_is_undefined_witness :
  ∃ h, run item_key item_less External
         [Push (0, 5); Push (1, 3); Push (2, 8)] empty_heap = Some h ∧
       ∃ h', pop_of item_key item_less External h = Some h' ∧
         map_ h' = map_ h ∧
         map_ h' !! item_key (1, 0) = Some (top_ h) ∧
         vec_at (data_ h') (top_ h) = Some dead_node ∧
         update item_key item_less (1, 0) h' = None.
Proof.
  eexists. split; [vm_compute; reflexivity|].
  apply (update_of_extracted_item_is_undefined item_key item_less
           [Push (0, 5); Push (1, 3); Push (2, 8)] _ (1, 0) (1, 3)).
  - vm_compute. reflexivity.
  - vm_compute. reflexivity.
  - vm_compute. reflexivity.
  - reflexivity.
Defined.

Lemma ph_arena_never_shrinks_witness :
  ∃ sh, ph_run Z.ltb [PhPush 5; PhPush 3; PhPop; PhPop; PhPop; PhPush 4]
          ph_empty_heap = Some sh ∧
        length (ph_data_ sh)
        = length (filter ph_is_push
                    [PhPush 5; PhPush 3; PhPop; PhPop; PhPop; PhPush 4]) ∧
        (length (ph_elements_ sh) ≤ length (ph_data_ sh))%nat.
Proof.
  eexists. split; [vm_compute; reflexivity|].
  apply (ph_arena_never_shrinks Z.ltb
           [PhPush 5; PhPush 3; PhPop; PhPop; PhPop; PhPush 4]).
  vm_compute. reflexivity.
Defined.
